(** * ton-api-indexing: a shallow embedding of the ingestion core

    The development follows the TypeScript sources of the indexer:
    - [directoryStructure] (hash-sharded directory layout),
    - [fileUtils] (cursor file and snapshot store),
    - [addressFilter] (heuristic pre-filter),
    - [RestClient] / [GraphQLClient] (retry decision in [handleError]),
    - [IndexerService] (one iteration, the run-until-exhausted loop, the
      bounded-concurrency batch and the batch summary).

    JavaScript numbers that hold counts, delays and status codes are
    modelled as [Z]; strings as Rocq [string]s (sequences of 8-bit
    characters; every identifier the indexer handles is ASCII). *)

From stdpp Require Import base numbers option list strings gmap pretty.
From Stdlib Require Import Ascii QArith.

Local Open Scope string_scope.
Local Open Scope Z_scope.

(** ** JavaScript helpers *)

(** Truthiness of an optional string: [undefined], [null] and the empty
    string are falsy. *)
Definition truthy_str (o : option string) : bool :=
  match o with
  | Some s => negb (String.eqb s "")
  | None => false
  end.

(** Truthiness of an optional boolean: [undefined] and [false] are falsy. *)
Definition truthy_bool (o : option bool) : bool :=
  match o with
  | Some b => b
  | None => false
  end.

(** [a || b] on optional strings. *)
Definition or_str (a b : option string) : option string :=
  if truthy_str a then a else b.

(** ** Types (src/types/index.ts) *)

Module ProcessingResult.
Record t : Type := mk {
  address : string;
  success : bool;
  error : option string;
  skipped : option bool;
  filePath : option string;
}.
End ProcessingResult.
Abbreviation ProcessingResult := ProcessingResult.t.

Module BatchSummary.
Record t : Type := mk {
  total : nat;
  successful : nat;
  failed : nat;
  skipped : nat;
  errors : list (string * string);   (* { address, error } *)
}.
End BatchSummary.
Abbreviation BatchSummary := BatchSummary.t.

Module PageInfo.
Record t : Type := mk {
  hasNextPage : bool;
  endCursor : option string;
}.
End PageInfo.
Abbreviation PageInfo := PageInfo.t.

Module IterationResult.
Record t : Type := mk {
  summary : BatchSummary;
  hasNextPage : bool;
  endCursor : option string;
}.
End IterationResult.
Abbreviation IterationResult := IterationResult.t.

(** ** IndexerService.compileBatchSummary *)

(** The body of the [for (const result of results)] loop: one result
    updates the summary under construction. *)
Definition summary_step (summary : BatchSummary) (result : ProcessingResult)
  : BatchSummary :=
  let '(BatchSummary.mk total successful failed skipped errors) := summary in
  if ProcessingResult.success result then
    if truthy_bool (ProcessingResult.skipped result) then
      BatchSummary.mk total successful failed (S skipped) errors
    else
      BatchSummary.mk total (S successful) failed skipped errors
  else
    match ProcessingResult.error result with
    | Some e =>
        if truthy_str (Some e) then
          BatchSummary.mk total successful (S failed) skipped
            (errors ++ [(ProcessingResult.address result, e)])%list
        else BatchSummary.mk total successful (S failed) skipped errors
    | None => BatchSummary.mk total successful (S failed) skipped errors
    end.

Definition compileBatchSummary (results : list ProcessingResult) : BatchSummary :=
  fold_left summary_step results
    (BatchSummary.mk (length results) 0 0 0 []).

(** Number of results counted in one of the three buckets. *)
Definition counted (s : BatchSummary) : nat :=
  (BatchSummary.successful s + BatchSummary.failed s + BatchSummary.skipped s)%nat.

(** [e] is the address and message of a failed result of [results]. *)
Definition error_from (results : list ProcessingResult) (e : string * string) : Prop :=
  exists r, In r results
    /\ ProcessingResult.success r = false
    /\ ProcessingResult.address r = e.1
    /\ ProcessingResult.error r = Some e.2.

(** ** directoryStructure: constants and optimal depth *)

Module DIRECTORY_CONSTANTS.
Definition MAX_FILES_PER_DIRECTORY : Z := 1000.
Definition HASH_LENGTH : Z := 2.
Definition MIN_DIRECTORY_LEVELS : Z := 2.
Definition MAX_DIRECTORY_LEVELS : Z := 6.
End DIRECTORY_CONSTANTS.

(** [x > y] on rationals, as a boolean. *)
Definition Qgtb (x y : Q) : bool := negb (Qle_bool x y).

(** [Math.pow(256, HASH_LENGTH)]. *)
Definition foldersPerLevel : Z := 256 ^ DIRECTORY_CONSTANTS.HASH_LENGTH.

(** The [while] loop of [calculateOptimalDirectoryLevels], one iteration
    per unit of fuel.  The quotient [expectedFileCount / totalFolders] is
    an exact rational: [totalFolders] is a power of two, for which the
    floating-point division of an integer below 2^53 is exact. *)
Fixpoint levels_loop (fuel : nat) (expectedFileCount requiredLevels totalFolders : Z)
  : option Z :=
  match fuel with
  | O => None
  | S fuel' =>
      if Qgtb (inject_Z expectedFileCount / inject_Z totalFolders)
              (inject_Z DIRECTORY_CONSTANTS.MAX_FILES_PER_DIRECTORY)
         && (requiredLevels <? DIRECTORY_CONSTANTS.MAX_DIRECTORY_LEVELS)
      then levels_loop fuel' expectedFileCount (requiredLevels + 1)
             (foldersPerLevel ^ (requiredLevels + 1))
      else Some requiredLevels
  end.

(** [None] only when the fuel runs out; [calculateOptimalDirectoryLevels_total]
    shows that it never does. *)
Definition calculateOptimalDirectoryLevels (expectedFileCount : Z) : option Z :=
  let requiredLevels := DIRECTORY_CONSTANTS.MIN_DIRECTORY_LEVELS in
  let totalFolders := foldersPerLevel ^ requiredLevels in
  match levels_loop 5 expectedFileCount requiredLevels totalFolders with
  | Some r => Some (Z.min r DIRECTORY_CONSTANTS.MAX_DIRECTORY_LEVELS)
  | None => None
  end.

(** The depth as the specification words it: the smallest depth in [2,6]
    with [n / 256^depth <= 1000], and 6 when no such depth exists. *)
Definition optimalDepth_spec (n : Z) : Z :=
  match find (fun d => Qle_bool (inject_Z n / inject_Z (256 ^ d)) (inject_Z 1000))
             [2; 3; 4; 5; 6] with
  | Some d => d
  | None => 6
  end.


(** What the loop of [calculateOptimalDirectoryLevels] computes, in closed
    form: [foldersPerLevel] is [256^2 = 65536], so the bound tested at
    depth [d] is [n / 65536^d <= 1000]. *)
Definition depth_by_fan_out (fanOut n : Z) : Z :=
  match find (fun d => n <=? 1000 * fanOut ^ d) [2; 3; 4; 5; 6] with
  | Some d => d
  | None => 6
  end.

(** ** Configuration (src/types/index.ts, src/config) *)

Module IndexerConfig.
Record t : Type := mk {
  tonApiKey : string;
  graphqlUrl : string;
  restUrl : string;
  cursorFilePath : string;
  dataDirectory : string;
  maxConcurrentRequests : Z;
  requestDelayMs : Z;
  accountsPerPage : Z;
  maxRetries : Z;
  retryDelayMs : Z;
  logLevel : string;
  logPretty : bool;
}.
End IndexerConfig.
Abbreviation IndexerConfig := IndexerConfig.t.

(** ** [parseInt(s, 10)]

    Leading white space is skipped, one sign is accepted, and the longest
    prefix of decimal digits is read; [None] stands for [NaN]. *)

Definition is_js_whitespace (c : ascii) : bool :=
  let n := nat_of_ascii c in
  ((9 <=? n)%nat && (n <=? 13)%nat) || (n =? 32)%nat || (n =? 160)%nat.

Fixpoint skip_whitespace (s : string) : string :=
  match s with
  | String c s' => if is_js_whitespace c then skip_whitespace s' else s
  | EmptyString => EmptyString
  end.

Definition digit_value (c : ascii) : option Z :=
  let n := Z.of_nat (nat_of_ascii c) in
  if (48 <=? n) && (n <=? 57) then Some (n - 48) else None.

Fixpoint parse_digits (acc : option Z) (s : string) : option Z :=
  match s with
  | String c s' =>
      match digit_value c with
      | Some d => parse_digits (Some (10 * default 0 acc + d)) s'
      | None => acc
      end
  | EmptyString => acc
  end.

Definition parseInt10 (s : string) : option Z :=
  match skip_whitespace s with
  | String "-" s' => Z.opp <$> parse_digits None s'
  | String "+" s' => parse_digits None s'
  | s' => parse_digits None s'
  end.

(** ** Retry decisions of the two network clients *)

(** The value [handleError] returns: the message of the [Error] it
    builds, whether to retry, and the delay before the next attempt. *)
Module Handled.
Record t : Type := mk {
  error : string;
  shouldRetry : bool;
  delay : Z;
}.
End Handled.
Abbreviation Handled := Handled.t.

(** HTTP response headers, a JavaScript object indexed by header name. *)
Abbreviation Headers := (gmap string string).

(** [headers['retry-after'] || headers['Retry-After']]. *)
Definition retryAfterHeader (headers : Headers) : option string :=
  or_str (headers !! "retry-after") (headers !! "Retry-After").

(** [error.response.headers] of a [ClientError].  graphql-request hands
    over the [Headers] object of the fetch response: its fields are read
    with [headers.get(name)] and are not properties of the object.  An
    object built by hand can be a plain record instead, as the cast
    [headers as Record<string, string>] of the source takes it to be. *)
Inductive HeadersObject : Type :=
| FetchHeaders (fields : Headers)
| PlainRecord (properties : Headers).

(** The properties of the object that [headers[name]] can read, for a
    [name] that is a header name.  The only properties of a [Headers]
    object are its methods. *)
Definition ownProperties (headers : HeadersObject) : Headers :=
  match headers with
  | FetchHeaders _ => ∅
  | PlainRecord properties => properties
  end.

(** The delay the specification gives a failure that is retried without
    a retry-after value: [baseDelayMs * 2^attempt], capped at the maximum
    of 60,000 ms. *)
Definition backoff_spec (baseDelayMs attempt : Z) : Z :=
  Z.min (baseDelayMs * 2 ^ attempt) 60000.

Module RestClient.

(** [ApiError], the body of an error response. *)
Record ApiError : Type := mkApiError {
  api_error : option string;
  api_message : option string;
}.

(** [axiosError.response]. *)
Record Response : Type := mkResponse {
  status : Z;
  data : option ApiError;
  headers : Headers;
}.

(** What [inspectContract] can catch: an Axios error, with a response,
    or with only the request, or with neither; or any other value, of
    which only the message ([error.message] or [String(error)]) is
    used. *)
Inductive Thrown : Type :=
| AxiosError (response : option Response) (request : bool) (message : string)
| OtherThrown (message : string).

Definition thrownMessage (e : Thrown) : string :=
  match e with
  | AxiosError _ _ m => m
  | OtherThrown m => m
  end.

(** [data?.error || data?.message || `HTTP ${status}`]. *)
Definition errorMessage (r : Response) : string :=
  default ("HTTP " ++ pretty (status r))
    (or_str (or_str (data r ≫= api_error) (data r ≫= api_message))
            (Some ("HTTP " ++ pretty (status r)))).

Definition handleError (config : IndexerConfig) (error : Thrown)
    (rawAddress : string) (attempt : Z) : Handled :=
  let unknown :=
    Handled.mk ("Unknown error: " ++ thrownMessage error) false 0 in
  match error with
  | AxiosError (Some response) _ _ =>
      if status response =? 429 then
        let retryAfter := retryAfterHeader (headers response) in
        let rateLimitDelay :=
          if truthy_str retryAfter then
            match parseInt10 (default "" retryAfter) with
            | Some retryAfterSeconds => retryAfterSeconds * 1000
            | None => Z.min (IndexerConfig.retryDelayMs config * 2 ^ attempt) 60000
            end
          else Z.min (IndexerConfig.retryDelayMs config * 2 ^ attempt) 60000 in
        Handled.mk
          ("Rate limit exceeded (" ++ pretty (status response) ++ "): "
             ++ errorMessage response)
          true
          rateLimitDelay
      else
        Handled.mk
          ("API error (" ++ pretty (status response) ++ "): "
             ++ errorMessage response)
          true
          (IndexerConfig.retryDelayMs config * attempt)
  | AxiosError None true message =>
      Handled.mk ("Network error: " ++ message) true
        (IndexerConfig.retryDelayMs config * attempt)
  | AxiosError None false _ => unknown
  | OtherThrown _ => unknown
  end.

End RestClient.

Module GraphQLClient.

(** What [fetchAccounts] can catch: a [ClientError] of graphql-request
    with [error.response?.status] and [error.response?.headers], or any
    other value (a failed [fetch] among them). *)
Inductive Thrown : Type :=
| ClientError (status : option Z) (headers : option HeadersObject) (message : string)
| OtherThrown (message : string).

Definition handleError (config : IndexerConfig) (error : Thrown)
    (attempt : Z) : Handled :=
  match error with
  | ClientError status headers message =>
      if bool_decide (status = Some 429) then
        let retryAfter := retryAfterHeader (default ∅ (ownProperties <$> headers)) in
        let rateLimitDelay :=
          if truthy_str retryAfter then
            match parseInt10 (default "" retryAfter) with
            | Some retryAfterSeconds => retryAfterSeconds * 1000
            | None => Z.min (IndexerConfig.retryDelayMs config * 2 ^ attempt) 60000
            end
          else Z.min (IndexerConfig.retryDelayMs config * 2 ^ attempt) 60000 in
        Handled.mk
          ("GraphQL rate limit exceeded (" ++ pretty 429 ++ "): " ++ message)
          true
          rateLimitDelay
      else
        Handled.mk ("GraphQL request failed: " ++ message) true
          (IndexerConfig.retryDelayMs config * attempt)
  | OtherThrown message =>
      Handled.mk ("GraphQL request failed: " ++ message) false 0
  end.

End GraphQLClient.

(** ** directoryStructure: shard paths *)

(** [address.replace(/^(EQ|UQ|kQ)/, '')]. *)
Definition stripAddressPrefix (address : string) : string :=
  match address with
  | String "E" (String "Q" rest) => rest
  | String "U" (String "Q" rest) => rest
  | String "k" (String "Q" rest) => rest
  | _ => address
  end.

(** [s.substring(startIndex, endIndex)] for [0 <= startIndex <= endIndex];
    both indices are clamped to the length of [s]. *)
Definition js_substring (s : string) (startIndex endIndex : nat) : string :=
  String.substring startIndex (endIndex - startIndex) s.

Definition is_alnum (c : ascii) : bool :=
  let n := nat_of_ascii c in
  ((48 <=? n) && (n <=? 57) || (65 <=? n) && (n <=? 90)
   || (97 <=? n) && (n <=? 122))%nat.

(** A lower-case hexadecimal digit, as [digest('hex')] prints them. *)
Definition is_hex_digit (c : ascii) : bool :=
  let n := nat_of_ascii c in
  ((48 <=? n) && (n <=? 57) || (97 <=? n) && (n <=? 102))%nat.

Fixpoint string_forallb (p : ascii -> bool) (s : string) : bool :=
  match s with
  | String c s' => p c && string_forallb p s'
  | EmptyString => true
  end.

Fixpoint string_map (f : ascii -> ascii) (s : string) : string :=
  match s with
  | String c s' => String (f c) (string_map f s')
  | EmptyString => EmptyString
  end.

(** [address.replace(/[^a-zA-Z0-9]/g, '_')]. *)
Definition sanitizeAddress (address : string) : string :=
  string_map (fun c => if is_alnum c then c else "_"%char) address.

(** The [for (let i = 0; i < levels; i++)] loop of [getDirectoryPath]:
    [n] iterations remain, [i] is the loop counter. *)
Fixpoint directories_loop (n i : nat) (hash : string) (directories : list string)
  : list string :=
  match n with
  | O => directories
  | S n' =>
      let hashLength := Z.to_nat DIRECTORY_CONSTANTS.HASH_LENGTH in
      let startIndex := (i * hashLength)%nat in
      let endIndex := (startIndex + hashLength)%nat in
      let levelHash := js_substring hash startIndex endIndex in
      directories_loop n' (S i) hash (directories ++ [levelHash])%list
  end.

Section DirectoryStructure.

(** [generateHash]: the hexadecimal MD5 digest of Node's [crypto]. *)
Variable generateHash : string -> string.
(** [path.join] of Node's [path]. *)
Variable path_join : list string -> string.

(** [directoryLevels || MIN_DIRECTORY_LEVELS]: an absent or zero depth
    falls back to the minimum. *)
Definition effectiveLevels (directoryLevels : option Z) : Z :=
  match directoryLevels with
  | Some l => if l =? 0 then DIRECTORY_CONSTANTS.MIN_DIRECTORY_LEVELS else l
  | None => DIRECTORY_CONSTANTS.MIN_DIRECTORY_LEVELS
  end.

(** The array [directories] that [getDirectoryPath] hands to
    [path.join] after the base directory. *)
Definition shardSegments (address : string) (directoryLevels : option Z)
  : list string :=
  let cleanAddress := stripAddressPrefix address in
  let hash := generateHash cleanAddress in
  let levels := effectiveLevels directoryLevels in
  directories_loop (Z.to_nat levels) 0 hash [].

Definition getDirectoryPath (address baseDir : string)
    (directoryLevels : option Z) : string :=
  path_join (baseDir :: shardSegments address directoryLevels).

Definition inspectFileName (address : string) : string :=
  "inspect_" ++ sanitizeAddress address ++ ".json".

Definition getFilePath (address baseDir : string)
    (directoryLevels : option Z) : string :=
  let dirPath := getDirectoryPath address baseDir directoryLevels in
  let fileName := inspectFileName address in
  path_join [dirPath; fileName].

End DirectoryStructure.

(** The specification's words for the shard path.  The cosmetic
    prefixes of an identifier are [EQ], [UQ] and [kQ]; [remainder] is
    the identifier without its prefix when it is what follows one of
    them at the start of the identifier, or the identifier itself when
    it starts with none of them. *)
Definition cosmetic_prefixes : list string := ["EQ"; "UQ"; "kQ"].

Definition prefix_stripped (identifier remainder : string) : Prop :=
  (exists p, In p cosmetic_prefixes /\ identifier = p ++ remainder)
  \/ (identifier = remainder
      /\ forall p, In p cosmetic_prefixes -> String.prefix p identifier = false).

(** [depth] successive segments of two characters of a digest: the
    characters 0 and 1, then 2 and 3, and so on. *)
Definition successive_segments (digest : string) (depth : nat) : list string :=
  map (fun i => String.substring (2 * i) 2 digest) (seq 0 depth).

(** ** A monad for code that mutates an object and may throw

    [M S A] is a computation over a mutable state [S] that returns an [A]
    or throws; the thrown value is represented by its message. *)

Definition M (S A : Type) : Type := S -> (string + A) * S.

Definition ret {S A : Type} (a : A) : M S A := fun s => (inr a, s).
Definition throw {S A : Type} (e : string) : M S A := fun s => (inl e, s).
Definition bind {S A B : Type} (m : M S A) (f : A -> M S B) : M S B :=
  fun s => match m s with
           | (inr a, s') => f a s'
           | (inl e, s') => (inl e, s')
           end.
Definition try_catch {S A : Type} (m : M S A) (handler : string -> M S A) : M S A :=
  fun s => match m s with
           | (inr a, s') => (inr a, s')
           | (inl e, s') => handler e s'
           end.
Definition modify {S : Type} (f : S -> S) : M S unit := fun s => (inr tt, f s).

Notation "'let*' x ':=' m 'in' k" := (bind m (fun x => k))
  (at level 10, x name, m at level 100, k at level 200, only parsing).
Notation "'do' m 'then' k" := (bind m (fun _ => k))
  (at level 10, m at level 100, k at level 200, only parsing).

(** ** addressFilter *)

Module FilterResult.
Record t : Type := mk {
  shouldProcess : bool;
  skipReason : option string;
}.
End FilterResult.
Abbreviation FilterResult := FilterResult.t.

(** The mutable part of an [AddressFilter]: [this.stats], and the
    messages handed to [logger.warn]. *)
Module FilterState.
Record t : Type := mk {
  total : Z;
  processed : Z;
  skipped : Z;
  skipReasons : gmap string Z;
  warnings : list string;
}.
Definition initial : t := mk 0 0 0 ∅ [].
End FilterState.
Abbreviation FilterState := FilterState.t.

(** String helpers used by the built-in rules. *)

Fixpoint count_char (c : ascii) (s : string) : Z :=
  match s with
  | String c' s' => (if Ascii.eqb c c' then 1 else 0) + count_char c s'
  | EmptyString => 0
  end.

Fixpoint string_drop (n : nat) (s : string) : string :=
  match n, s with
  | S n', String _ s' => string_drop n' s'
  | _, _ => s
  end.

(** [n] copies of [c]. *)
Fixpoint repeat_char (c : ascii) (n : nat) : string :=
  match n with
  | O => EmptyString
  | S n' => String c (repeat_char c n')
  end.

Definition ends_with (suffix s : string) : bool :=
  let n := String.length s in
  let k := String.length suffix in
  (k <=? n)%nat && String.eqb (string_drop (n - k) s) suffix.

(** [s.split(':')]. *)
Fixpoint split_colon (s : string) : list string :=
  match s with
  | EmptyString => [EmptyString]
  | String c s' =>
      if Ascii.eqb c ":" then EmptyString :: split_colon s'
      else match split_colon s' with
           | part :: parts => String c part :: parts
           | [] => [String c EmptyString]
           end
  end.

(** The characters [.] does not match in a regular expression. *)
Definition is_line_terminator (c : ascii) : bool :=
  let n := nat_of_ascii c in (n =? 10)%nat || (n =? 13)%nat.

(** [hash.match(/.{8}/g) || []]: successive non-overlapping runs of eight
    characters other than line terminators, scanning from the left. *)
Fixpoint chunks8 (fuel : nat) (s : string) : list string :=
  match fuel with
  | O => []
  | S fuel' =>
      let chunk := String.substring 0 8 s in
      if (String.length chunk =? 8)%nat then
        if string_forallb (fun c => negb (is_line_terminator c)) chunk
        then chunk :: chunks8 fuel' (string_drop 8 s)
        else chunks8 fuel' (string_drop 1 s)
      else []
  end.

(** [/^[0-9a-f]{10,}0{20,}/]: at some offset [i >= 10], twenty zeros
    preceded only by lower-case hexadecimal digits. *)
Definition hex_then_zeros (hash : string) : bool :=
  existsb (fun i =>
             string_forallb is_hex_digit (String.substring 0 i hash)
             && String.eqb (String.substring i 20 hash) (repeat_char "0" 20))
          (seq 10 (String.length hash)).

(** [/0{15,}[0-9a-f]{5,}$/]: somewhere fifteen zeros, followed up to the
    end of the string by at least five lower-case hexadecimal digits. *)
Definition zeros_then_short_data (hash : string) : bool :=
  existsb (fun i =>
             String.eqb (String.substring i 15 hash) (repeat_char "0" 15)
             && string_forallb is_hex_digit (string_drop (i + 15) hash)
             && (5 <=? String.length (string_drop (i + 15) hash))%nat)
          (seq 0 (S (String.length hash))).

(** [/^0000000000000000000000000[0-9a-f]{10,}$/]. *)
Definition zero_prefix_with_identifier (hash : string) : bool :=
  String.prefix (repeat_char "0" 25) hash
  && string_forallb is_hex_digit (string_drop 25 hash)
  && (10 <=? String.length (string_drop 25 hash))%nat.

(** The array [systemPatterns], each regular expression as a test. *)
Definition systemPatterns : list (string -> bool) :=
  [ String.prefix (repeat_char "0" 20);        (* /^0{20,}/ *)
    String.prefix (repeat_char "0" 23);        (* /^00000000000000000000000/ *)
    String.prefix (repeat_char "f" 13);        (* /^fffffffffffff/ *)
    ends_with (repeat_char "f" 11);            (* /fffffffffff$/ *)
    hex_then_zeros;
    zeros_then_short_data;
    zero_prefix_with_identifier ].

(** [zeroCount / hash.length > threshold].  The quotient is an exact
    rational; for the lengths a string can have, the floating-point
    comparison against 0.55, 0.8 and 0.75 has the same outcome.  A
    division by zero gives [NaN] in the source and [0] here, and both
    compare as not greater. *)
Definition zeroPercentageAbove (hash : string) (threshold : Q) : bool :=
  let zeroCount := count_char "0" hash in
  Qgtb (inject_Z zeroCount / inject_Z (Z.of_nat (String.length hash))) threshold.

Definition isMasterchainSystemAddress (rawAddress : string) : bool :=
  if String.prefix "-2:" rawAddress then true
  else if negb (String.prefix "-1:" rawAddress) then false
  else
    let hash := string_drop 3 rawAddress in
    if negb (String.length hash =? 64)%nat then true
    else if zeroPercentageAbove hash (55 # 100) then true
    else if existsb (fun pattern => pattern hash) systemPatterns then true
    else
      let chunks := chunks8 (String.length hash) hash in
      let uniqueChunks := remove_dups chunks in
      ((8 <=? length chunks)%nat && (length uniqueChunks <=? 2)%nat).

Definition isZeroHeavyAddress (rawAddress : string) : bool :=
  match split_colon rawAddress with
  | [workchain; hash] =>
      if String.eqb workchain "-1" || String.eqb workchain "-2"
      then zeroPercentageAbove hash (8 # 10)
      else zeroPercentageAbove hash (75 # 100)
  | _ => false
  end.

Definition isShortAddress (rawAddress : string) : bool :=
  (String.length rawAddress <? 10)%nat.

Section AddressFilter.

(** The regular-expression engine of the JavaScript runtime:
    [new RegExp(pattern)] returns a compiled expression or throws a
    [SyntaxError] with a message; [regex.test(s)] is a boolean. *)
Variable RegExp : Type.
Variable RegExp_new : string -> string + RegExp.
Variable RegExp_test : RegExp -> string -> bool.

(** [config.customSkipPatterns]. *)
Variable customSkipPatterns : list string.

Definition logWarning (message : string) : M FilterState unit :=
  modify (fun st =>
    FilterState.mk (FilterState.total st) (FilterState.processed st)
      (FilterState.skipped st) (FilterState.skipReasons st)
      (FilterState.warnings st ++ [message])%list).

Definition matchesPattern (rawAddress pattern : string) : M FilterState bool :=
  try_catch
    (let* regex := (fun st => (RegExp_new pattern, st)) in
     ret (RegExp_test regex rawAddress))
    (fun error =>
       do logWarning ("Invalid regex pattern in address filter: " ++ pattern)%string then
       ret false).

Definition skipAddress (reason : string) : M FilterState FilterResult :=
  do modify (fun st =>
    FilterState.mk (FilterState.total st) (FilterState.processed st)
      (FilterState.skipped st + 1)
      (<[reason := default 0 (FilterState.skipReasons st !! reason) + 1]>
         (FilterState.skipReasons st))
      (FilterState.warnings st)) then
  ret (FilterResult.mk false (Some reason)).

(** The [for (const pattern of this.config.customSkipPatterns)] loop,
    with its early [return], followed by the final statements of
    [shouldProcessAddress]. *)
Fixpoint customPatternsLoop (rawAddress : string) (patterns : list string)
  : M FilterState FilterResult :=
  match patterns with
  | pattern :: rest =>
      let* matches := matchesPattern rawAddress pattern in
      if (matches : bool) then skipAddress ("custom_pattern:" ++ pattern)
      else customPatternsLoop rawAddress rest
  | [] =>
      do modify (fun st =>
        FilterState.mk (FilterState.total st) (FilterState.processed st + 1)
          (FilterState.skipped st) (FilterState.skipReasons st)
          (FilterState.warnings st)) then
      ret (FilterResult.mk true None)
  end.

Definition shouldProcessAddress (rawAddress : string) : M FilterState FilterResult :=
  do modify (fun st =>
    FilterState.mk (FilterState.total st + 1) (FilterState.processed st)
      (FilterState.skipped st) (FilterState.skipReasons st)
      (FilterState.warnings st)) then
  if isMasterchainSystemAddress rawAddress then skipAddress "masterchain_system"
  else if isZeroHeavyAddress rawAddress then skipAddress "zero_heavy"
  else if isShortAddress rawAddress then skipAddress "too_short"
  else customPatternsLoop rawAddress customSkipPatterns.

End AddressFilter.

(** Two filter states with the same statistics (the logged warnings may
    differ). *)
Definition same_stats (s1 s2 : FilterState) : Prop :=
  FilterState.total s1 = FilterState.total s2
  /\ FilterState.processed s1 = FilterState.processed s2
  /\ FilterState.skipped s1 = FilterState.skipped s2
  /\ FilterState.skipReasons s1 = FilterState.skipReasons s2.

(** The filter state after the warning about an invalid pattern. *)
Definition warned (p : string) (st : FilterState) : FilterState :=
  FilterState.mk (FilterState.total st) (FilterState.processed st)
    (FilterState.skipped st) (FilterState.skipReasons st)
    (FilterState.warnings st
       ++ [("Invalid regex pattern in address filter: " ++ p)%string])%list.

(** ** The file system *)

(** Regular files by path with their content, and the directories. *)
Module FS.
Record t : Type := mk {
  files : gmap string string;
  dirs : gset string;
}.
Definition empty : t := mk ∅ ∅.

(** [fs.pathExists]. *)
Definition pathExists (fs : t) (p : string) : bool :=
  bool_decide (is_Some (files fs !! p)) || bool_decide (p ∈ dirs fs).
End FS.

(** The system calls a write path issues, at the granularity at which a
    crash can interrupt it.  [fs.writeFile(path, content)] opens the file
    with flag [w] (create or truncate) and then writes the content in one
    or more chunks. *)
Inductive FsStep : Type :=
| MkdirP (dir : string)
| OpenTruncate (path : string)
| Append (path chunk : string)
| Rename (source target : string).

Definition apply_step (fs : FS.t) (step : FsStep) : FS.t :=
  match step with
  | MkdirP dir => FS.mk (FS.files fs) ({[dir]} ∪ FS.dirs fs)
  | OpenTruncate path => FS.mk (<[path := ""]> (FS.files fs)) (FS.dirs fs)
  | Append path chunk =>
      match FS.files fs !! path with
      | Some old => FS.mk (<[path := old ++ chunk]> (FS.files fs)) (FS.dirs fs)
      | None => fs
      end
  | Rename source target =>
      match FS.files fs !! source with
      | Some content =>
          FS.mk (<[target := content]> (delete source (FS.files fs))) (FS.dirs fs)
      | None => fs
      end
  end.

Definition run_steps (steps : list FsStep) (fs : FS.t) : FS.t :=
  fold_left apply_step steps fs.

(** The file system found after a crash that let only the first [k]
    steps through. *)
Definition crash_after (k : nat) (steps : list FsStep) (fs : FS.t) : FS.t :=
  run_steps (take k steps) fs.

(** [fs.writeFile(path, content, 'utf-8')], one character per chunk: the
    states a crash can leave are those of every coarser chunking. *)
Definition writeFile_steps (path content : string) : list FsStep :=
  OpenTruncate path
    :: map (fun c => Append path (String c EmptyString)) (String.list_ascii_of_string content).

(** A write is atomic when, at every crash point, the target path is
    either not visible or holds the complete content. *)
Definition atomic_write (steps : list FsStep) (fs : FS.t) (path content : string)
  : Prop :=
  forall k, FS.pathExists (crash_after k steps fs) path = true ->
            FS.files (crash_after k steps fs) !! path = Some content.

(** A direct write: the steps open the final path itself for writing. *)
Definition writes_directly (steps : list FsStep) (path : string) : Prop :=
  In (OpenTruncate path) steps.

(** [generateFileName] of fileUtils. *)
Fixpoint replace_colons (s : string) : string :=
  match s with
  | String c s' => String (if Ascii.eqb c ":" then "_"%char else c) (replace_colons s')
  | EmptyString => EmptyString
  end.

Definition generateFileName (rawAddress : string) : string :=
  "inspect_" ++ replace_colons rawAddress ++ ".json".

Section Store.

Variable generateHash : string -> string.
Variable path_join : list string -> string.
(** The detail payload and [JSON.stringify(data, null, 2)]. *)
Variable Data : Type.
Variable JSON_stringify : Data -> string.

(** src/utils/fileUtils.ts: all snapshots in one directory. *)
Definition flat_filePathOf (dataDirectory rawAddress : string) : string :=
  let fileName := generateFileName rawAddress in
  path_join [dataDirectory; fileName].

(** [saveContractData] of that file: [fs.ensureDir(dataDirectory)], then
    [fs.writeFile(filePath, JSON.stringify(data, null, 2))]. *)
Definition flat_saveContractData_steps (dataDirectory rawAddress : string)
    (data : Data) : list FsStep :=
  MkdirP dataDirectory
    :: writeFile_steps (flat_filePathOf dataDirectory rawAddress)
         (JSON_stringify data).

(** The revision of fileUtils with hierarchical directories. *)
Definition hier_filePathOf (dataDirectory rawAddress : string)
    (directoryLevels : option Z) : string :=
  getFilePath generateHash path_join rawAddress dataDirectory directoryLevels.

(** [saveContractData] of that revision: [prepareFilePath] creates the
    directory chain ([fs.mkdir(dirPath, { recursive: true })]) and
    returns the file path, then [fs.writeFile] writes to it. *)
Definition hier_saveContractData_steps (dataDirectory rawAddress : string)
    (data : Data) (directoryLevels : option Z) : list FsStep :=
  MkdirP (getDirectoryPath generateHash path_join rawAddress dataDirectory
            directoryLevels)
    :: writeFile_steps (hier_filePathOf dataDirectory rawAddress directoryLevels)
         (JSON_stringify data).

End Store.

(** What a write path does when it is one [mkdir -p] of [dir] followed by
    a plain [writeFile] of [content] to [final]: it opens the final path
    itself, never renames, and a crash after [2 + k] steps leaves the
    first [k] characters of the content at the final path. *)
Definition direct_write_behaviour (steps : list FsStep) (dir final content : string)
    (fs : FS.t) : Prop :=
  writes_directly steps final
  /\ (forall step source target, In step steps -> step <> Rename source target)
  /\ crash_after 0 steps fs = fs
  /\ crash_after 1 steps fs = FS.mk (FS.files fs) ({[dir]} ∪ FS.dirs fs)
  /\ (forall k, crash_after (2 + k) steps fs
                = FS.mk (<[final := String.substring 0 k content]> (FS.files fs))
                        ({[dir]} ∪ FS.dirs fs))
  /\ (forall k, FS.pathExists (crash_after (2 + k) steps fs) final = true)
  /\ run_steps steps fs
     = FS.mk (<[final := content]> (FS.files fs)) ({[dir]} ∪ FS.dirs fs).

(** ** The indexer and its environment *)

(** [s.trim()]. *)
Fixpoint trim_end (s : string) : string :=
  match s with
  | EmptyString => EmptyString
  | String c s' =>
      match trim_end s' with
      | EmptyString => if is_js_whitespace c then EmptyString else String c EmptyString
      | t => String c t
      end
  end.

Definition js_trim (s : string) : string := trim_end (skip_whitespace s).

(** [AllAccountsResponse.allAccounts]: the addresses of the nodes and the
    page information. *)
Module Page.
Record t : Type := mk {
  nodes : list string;
  pageInfo : PageInfo;
}.
End Page.

(** The observable trace of a run: the log lines of the services, the
    settling of each task of a batch, and the entry into [saveCursor]
    (before it touches the file system). *)
Inductive Event : Type :=
| IterationStarted                                   (* 'Starting indexer iteration' *)
| CursorRead (cursor : option string)                (* 'Loaded cursor from file' / 'Cursor file does not exist' *)
| PageFetched (accounts : list string)               (* 'Successfully fetched accounts' *)
| OperationThrew (index : nat) (rawAddress message : string)
    (* a call made by the task at [index], for [rawAddress], threw *)
| TaskSettled (index : nat) (result : ProcessingResult)
| SaveCursorCalled (cursor : string)                 (* [saveCursor] is entered *)
| CursorSaved (cursor : string)                      (* 'Saved cursor to file' *)
| IterationFinished (result : IterationResult).      (* 'Indexer iteration completed' *)

(** Everything the indexer mutates: the file system, the statistics of
    its address filter, and the trace.  [clock] counts the interactions
    with the outside so far; the environment answers by it. *)
Module World.
Record t : Type := mk {
  fs : FS.t;
  filter : FilterState;
  clock : nat;
  events : list Event;
}.
Definition initial : t := mk FS.empty FilterState.initial 0 [].
End World.
Abbreviation World := World.t.

(** The outcome of a computation that may run out of fuel. *)
Inductive Outcome (A : Type) : Type :=
| Returned (a : A)
| Thrown (e : string)
| Unfinished.
Arguments Returned {A} a.
Arguments Thrown {A} e.
Arguments Unfinished {A}.

Definition MF (S A : Type) : Type := S -> Outcome A * S.

Definition retF {S A : Type} (a : A) : MF S A := fun s => (Returned a, s).
Definition bindF {S A B : Type} (m : MF S A) (f : A -> MF S B) : MF S B :=
  fun s => match m s with
           | (Returned a, s') => f a s'
           | (Thrown e, s') => (Thrown e, s')
           | (Unfinished, s') => (Unfinished, s')
           end.
Definition liftF {S A : Type} (m : M S A) : MF S A :=
  fun s => match m s with
           | (inr a, s') => (Returned a, s')
           | (inl e, s') => (Thrown e, s')
           end.

Notation "'let+' x ':=' m 'in' k" := (bindF m (fun x => k))
  (at level 10, x name, m at level 100, k at level 200, only parsing).

(** What the indexer takes from its platform: the detail payload with
    [JSON.stringify(data, null, 2)], the regular expressions of the
    JavaScript runtime, the layout of the store as [fileUtils] computes
    it from the data directory and the address (the directory it ensures
    and the path of the snapshot file), and [path.dirname] of Node. *)
Module Platform.
Class t : Type := mk {
  Data : Type;
  JSON_stringify : Data -> string;
  RegExp : Type;
  RegExp_new : string -> string + RegExp;
  RegExp_test : RegExp -> string -> bool;
  storeDirOf : string -> string -> string;
  storeFileOf : string -> string -> string;
  path_dirname : string -> string;
}.
End Platform.
Import Platform.

Section Indexer.

Context {platform : Platform.t}.

(** The outside world.  Each answer may depend on the clock, so that an
    environment is free to answer every call differently.
    - [customSkipPatterns] is [CUSTOM_SKIP_PATTERNS], split and trimmed;
    - [fetchAccounts] and [inspectContract] are the two clients, retries
      included: the message of the error finally thrown, or the result;
    - the [_error] fields say whether a file-system call fails, and
      with which message; [writeFile_progress] says how many steps of
      a failing write went through before it failed;
    - [pick] is the event loop: which suspended task is resumed next. *)
Record Env : Type := mkEnv {
  customSkipPatterns : list string;
  fetchAccounts : nat -> Z -> option string -> string + Page.t;
  inspectContract : nat -> string -> string + Data;
  ensureDir_error : nat -> string -> option string;
  writeFile_error : nat -> string -> option string;
  writeFile_progress : nat -> string -> nat;
  readFile_error : nat -> string -> option string;
  pick : nat -> nat;
}.

Variable env : Env.
Variable config : IndexerConfig.

(** *** Primitive effects *)

Definition tick : M World nat :=
  fun w => (inr (World.clock w),
            World.mk (World.fs w) (World.filter w) (S (World.clock w)) (World.events w)).

Definition emit (e : Event) : M World unit :=
  modify (fun w => World.mk (World.fs w) (World.filter w) (World.clock w)
                     (World.events w ++ [e])%list).

Definition set_fs (f : FS.t -> FS.t) : M World unit :=
  modify (fun w => World.mk (f (World.fs w)) (World.filter w) (World.clock w)
                     (World.events w)).

Definition get_fs : M World FS.t := fun w => (inr (World.fs w), w).

(** [fs.ensureDir(dir)]. *)
Definition ensureDir (dir : string) : M World unit :=
  let* t := tick in
  match ensureDir_error env t dir with
  | Some e => throw e
  | None => set_fs (fun fs => apply_step fs (MkdirP dir))
  end.

(** [fs.writeFile(path, content, 'utf-8')].  A write that fails has
    gone through the first [writeFile_progress] of its steps: none of
    them when the file could not be opened; after that the file is
    there, truncated, with the beginning of the content. *)
Definition writeFile (path content : string) : M World unit :=
  let* t := tick in
  match writeFile_error env t path with
  | Some e =>
      do set_fs (crash_after (writeFile_progress env t path)
                   (writeFile_steps path content)) then
      throw e
  | None => set_fs (run_steps (writeFile_steps path content))
  end.

(** [fs.readFile(path, 'utf-8')]. *)
Definition readFile (path : string) : M World string :=
  let* t := tick in
  let* fs := get_fs in
  match readFile_error env t path, FS.files fs !! path with
  | Some e, _ => throw e
  | None, Some content => ret content
  | None, None => throw ("ENOENT: no such file or directory, open '" ++ path ++ "'")
  end.

(** [fs.pathExists(path)]: never throws. *)
Definition pathExists (path : string) : M World bool :=
  let* _ := tick in
  let* fs := get_fs in
  ret (FS.pathExists fs path).

(** *** fileUtils *)

Definition readCursor (filePath : string) : M World (option string) :=
  try_catch
    (let* found := pathExists filePath in
     if (found : bool) then
       let* cursor := readFile filePath in
       let trimmed := js_trim cursor in
       do emit (CursorRead (Some trimmed)) then
       ret (if String.eqb trimmed "" then None else Some trimmed)
     else
       do emit (CursorRead None) then
       ret None)
    (fun error => throw ("Failed to read cursor file: " ++ error)).

Definition saveCursor (filePath cursor : string) : M World unit :=
  do emit (SaveCursorCalled cursor) then
  try_catch
    (do ensureDir (path_dirname filePath) then
     do writeFile filePath cursor then
     emit (CursorSaved cursor))
    (fun error => throw ("Failed to save cursor: " ++ error)).

Definition contractFileExists (dataDirectory rawAddress : string) : M World bool :=
  pathExists (storeFileOf dataDirectory rawAddress).

Definition saveContractData (dataDirectory rawAddress : string) (data : Data)
  : M World string :=
  try_catch
    (do ensureDir (storeDirOf dataDirectory rawAddress) then
     let filePath := storeFileOf dataDirectory rawAddress in
     do writeFile filePath (JSON_stringify data) then
     ret filePath)
    (fun error =>
       throw ("Failed to save contract data for " ++ rawAddress ++ ": " ++ error)).

Definition ensureDataDirectory (dataDirectory : string) : M World unit :=
  try_catch (ensureDir dataDirectory)
    (fun error => throw ("Failed to create data directory: " ++ error)).

(** *** The calls a task makes *)

(** The filter runs inside the call of [processAccount]; the three
    others are awaited, and the task is suspended on them. *)
Inductive Op : Type -> Type :=
| ShouldProcessAddress (rawAddress : string) : Op FilterResult
| ContractFileExists (dataDirectory rawAddress : string) : Op bool
| InspectContract (rawAddress : string) : Op Data
| SaveContractData (dataDirectory rawAddress : string) (data : Data) : Op string.

Definition is_sync {X : Type} (op : Op X) : bool :=
  match op with
  | ShouldProcessAddress _ => true
  | _ => false
  end.

Definition op_address {X : Type} (op : Op X) : string :=
  match op with
  | ShouldProcessAddress a => a
  | ContractFileExists _ a => a
  | InspectContract a => a
  | SaveContractData _ a _ => a
  end.

(** [this.addressFilter.shouldProcessAddress], on the filter of the
    world. *)
Definition runFilter (rawAddress : string) : M World FilterResult :=
  fun w =>
    let '(r, st) := shouldProcessAddress RegExp RegExp_new RegExp_test
                      (customSkipPatterns env) rawAddress (World.filter w) in
    (r, World.mk (World.fs w) st (World.clock w) (World.events w)).

(** [this.restClient.inspectContract]. *)
Definition callInspect (rawAddress : string) : M World Data :=
  let* t := tick in
  match inspectContract env t rawAddress with
  | inl e => throw e
  | inr data => ret data
  end.

Definition perform {X : Type} (op : Op X) : M World X :=
  match op in Op X return M World X with
  | ShouldProcessAddress a => runFilter a
  | ContractFileExists d a => contractFileExists d a
  | InspectContract a => callInspect a
  | SaveContractData d a data => saveContractData d a data
  end.

(** A call as the task at [index] sees it: the answer or the
    exception, the latter also left in the trace. *)
Definition exec_op {X : Type} (index : nat) (op : Op X) (w : World)
  : (string + X) * World :=
  match perform op w with
  | (inr x, w') => (inr x, w')
  | (inl e, w') => (inl e, (emit (OperationThrew index (op_address op) e) w').2)
  end.

(** *** Tasks *)

(** An [async] function body: it has returned, or thrown, or it is at
    a call whose answer (a value or an exception) it continues with. *)
Inductive Prog (A : Type) : Type :=
| Done (a : A)
| Fail (e : string)
| Await {X : Type} (op : Op X) (k : string + X -> Prog A).
Arguments Done {A} a.
Arguments Fail {A} e.
Arguments Await {A X} op k.

Definition call {X : Type} (op : Op X) : Prog X :=
  Await op (fun answer => match answer with
                          | inr x => Done x
                          | inl e => Fail e
                          end).

Fixpoint prog_bind {A B : Type} (p : Prog A) (f : A -> Prog B) : Prog B :=
  match p with
  | Done a => f a
  | Fail e => Fail e
  | Await op k => Await op (fun answer => prog_bind (k answer) f)
  end.

Fixpoint prog_try {A : Type} (p : Prog A) (handler : string -> Prog A) : Prog A :=
  match p with
  | Done a => Done a
  | Fail e => handler e
  | Await op k => Await op (fun answer => prog_try (k answer) handler)
  end.

Notation "'let!' x ':=' p 'in' k" := (prog_bind p (fun x => k))
  (at level 10, x name, p at level 100, k at level 200, only parsing).

(** *** IndexerService.processAccount *)

Definition processAccount (rawAddress : string) : Prog ProcessingResult :=
  prog_try
    (let! filterResult := call (ShouldProcessAddress rawAddress) in
     if negb (FilterResult.shouldProcess filterResult) then
       Done (ProcessingResult.mk rawAddress true
               (Some ("Filtered: "
                        ++ default "undefined" (FilterResult.skipReason filterResult)))
               (Some true) None)
     else
       let! fileExists :=
         call (ContractFileExists (IndexerConfig.dataDirectory config) rawAddress) in
       if (fileExists : bool) then
         Done (ProcessingResult.mk rawAddress true None (Some true) None)
       else
         let! contractData := call (InspectContract rawAddress) in
         let! filePath :=
           call (SaveContractData (IndexerConfig.dataDirectory config) rawAddress
                   contractData) in
         Done (ProcessingResult.mk rawAddress true None None (Some filePath)))
    (fun errorMessage =>
       Done (ProcessingResult.mk rawAddress false (Some errorMessage) None None)).

(** *** p-limit and Promise.all *)

(** One task of a batch: waiting in the queue of the limiter, suspended
    on an awaited call, or settled. *)
Inductive Slot : Type :=
| Queued (rawAddress : string)
| Running (p : Prog ProcessingResult)
| Fulfilled (r : ProcessingResult)
| Rejected (e : string).

(** Run the task at [index] up to its next awaited call. *)
Fixpoint run_to_await (index : nat) (p : Prog ProcessingResult) (w : World)
  : Slot * World :=
  match p with
  | Done r => (Fulfilled r, (emit (TaskSettled index r) w).2)
  | Fail e => (Rejected e, w)
  | Await op k =>
      if is_sync op then
        let '(answer, w') := exec_op index op w in
        run_to_await index (k answer) w'
      else (Running p, w)
  end.

(** The awaited call of a suspended task completes. *)
Definition resume (index : nat) (p : Prog ProcessingResult) (w : World)
  : Slot * World :=
  match p with
  | Await op k =>
      let '(answer, w') := exec_op index op w in
      run_to_await index (k answer) w'
  | _ => run_to_await index p w
  end.

(** The positions of the suspended tasks, from position [index] on. *)
Fixpoint running_from (index : nat) (slots : list Slot) : list nat :=
  match slots with
  | [] => []
  | Running _ :: rest => index :: running_from (S index) rest
  | _ :: rest => running_from (S index) rest
  end.

Definition activeCount (slots : list Slot) : nat :=
  length (running_from 0 slots).

(** The head of the queue of the limiter: the first task not started. *)
Fixpoint first_queued_from (index : nat) (slots : list Slot)
  : option (nat * string) :=
  match slots with
  | [] => None
  | Queued rawAddress :: _ => Some (index, rawAddress)
  | _ :: rest => first_queued_from (S index) rest
  end.

(** The limiter: while fewer than [limit] tasks are active and the
    queue is not empty, the head of the queue is started, and runs up
    to its first awaited call.  Each round starts one task, so the
    number of tasks is fuel enough. *)
Fixpoint fill (fuel limit : nat) (slots : list Slot) (w : World)
  : list Slot * World :=
  match fuel with
  | O => (slots, w)
  | S fuel' =>
      if (activeCount slots <? limit)%nat then
        match first_queued_from 0 slots with
        | Some (index, rawAddress) =>
            let '(slot, w') := run_to_await index (processAccount rawAddress) w in
            fill fuel' limit (<[index := slot]> slots) w'
        | None => (slots, w)
        end
      else (slots, w)
  end.

(** One turn of the event loop: the awaited call of one suspended task
    completes, the task runs to its next await or settles, and the
    limiter starts what it can. *)
Definition turn (limit : nat) (slots : list Slot) (w : World) : list Slot * World :=
  let running := running_from 0 slots in
  match running !! (pick env (World.clock w) `mod` length running)%nat with
  | Some index =>
      match slots !! index with
      | Some (Running p) =>
          let '(slot, w') := resume index p w in
          fill (length slots) limit (<[index := slot]> slots) w'
      | _ => (slots, w)
      end
  | None => (slots, w)
  end.

Fixpoint first_rejection (slots : list Slot) : option string :=
  match slots with
  | [] => None
  | Rejected e :: _ => Some e
  | _ :: rest => first_rejection rest
  end.

(** The values of the tasks when all are fulfilled. *)
Fixpoint all_fulfilled (slots : list Slot) : option (list ProcessingResult) :=
  match slots with
  | [] => Some []
  | Fulfilled r :: rest => cons r <$> all_fulfilled rest
  | _ :: _ => None
  end.

(** [await Promise.all(tasks)]: rejected as soon as a task is, resolved
    with the results in the order of the tasks once all are fulfilled,
    and otherwise waiting for the next turn. *)
Fixpoint await_all (fuel limit : nat) (slots : list Slot)
  : MF World (list ProcessingResult) :=
  fun w =>
    match first_rejection slots with
    | Some e => (Thrown e, w)
    | None =>
        match all_fulfilled slots with
        | Some results => (Returned results, w)
        | None =>
            match fuel with
            | O => (Unfinished, w)
            | S fuel' =>
                let '(slots', w') := turn limit slots w in
                await_all fuel' limit slots' w'
            end
        end
    end.

(** *** IndexerService.processAccountsBatch *)

(** A task makes at most three awaited calls, hence the fuel. *)
Definition processAccountsBatch (accounts : list string)
  : MF World (list ProcessingResult) :=
  fun w =>
    let limit := Z.to_nat (IndexerConfig.maxConcurrentRequests config) in
    let '(slots, w') := fill (length accounts) limit (map Queued accounts) w in
    await_all (3 * length accounts) limit slots w'.

(** *** IndexerService.runIteration *)

Definition emptySummary : BatchSummary := BatchSummary.mk 0 0 0 0 [].

Definition callFetchAccounts (first : Z) (after : option string) : M World Page.t :=
  let* t := tick in
  match fetchAccounts env t first (if truthy_str after then after else None) with
  | inl e => throw e
  | inr response =>
      do emit (PageFetched (Page.nodes response)) then
      ret response
  end.

Definition runIteration : MF World IterationResult :=
  let+ _ := liftF (emit IterationStarted) in
  let+ _ := liftF (ensureDataDirectory (IndexerConfig.dataDirectory config)) in
  let+ cursor := liftF (readCursor (IndexerConfig.cursorFilePath config)) in
  let+ response :=
    liftF (callFetchAccounts (IndexerConfig.accountsPerPage config) cursor) in
  let accounts := Page.nodes response in
  let pageInfo := Page.pageInfo response in
  if (length accounts =? 0)%nat then
    retF (IterationResult.mk emptySummary false None)
  else
    let+ results := processAccountsBatch accounts in
    let+ _ :=
      liftF (if truthy_str (PageInfo.endCursor pageInfo)
             then saveCursor (IndexerConfig.cursorFilePath config)
                    (default "" (PageInfo.endCursor pageInfo))
             else ret tt) in
    let summary := compileBatchSummary results in
    let result := IterationResult.mk summary (PageInfo.hasNextPage pageInfo)
                    (PageInfo.endCursor pageInfo) in
    let+ _ := liftF (emit (IterationFinished result)) in
    retF result.

(** *** IndexerService.runComplete *)

(** The totals logged at the end of a complete run. *)
Record Totals : Type := mkTotals {
  totalProcessed : nat;
  totalSuccessful : nat;
  totalFailed : nat;
  totalSkipped : nat;
}.

(** The [while (hasNextPage)] loop, entered with [hasNextPage] true;
    one iteration of the loop per unit of fuel. *)
Fixpoint runComplete_loop (fuel : nat) (totals : Totals) : MF World Totals :=
  match fuel with
  | O => fun w => (Unfinished, w)
  | S fuel' =>
      let+ summary := runIteration in
      let totals' :=
        mkTotals
          (totalProcessed totals + BatchSummary.total (IterationResult.summary summary))
          (totalSuccessful totals
             + BatchSummary.successful (IterationResult.summary summary))
          (totalFailed totals + BatchSummary.failed (IterationResult.summary summary))
          (totalSkipped totals + BatchSummary.skipped (IterationResult.summary summary))
      in
      let+ cursor := liftF (readCursor (IndexerConfig.cursorFilePath config)) in
      let hasNextPage := truthy_str cursor in
      if hasNextPage then runComplete_loop fuel' totals'
      else retF totals'
  end.

Definition runComplete (fuel : nat) : MF World Totals :=
  runComplete_loop fuel (mkTotals 0 0 0 0).

End Indexer.

Arguments Done {platform A} a.
Arguments Fail {platform A} e.
Arguments Await {platform A X} op k.

(** The events that delimit the iterations of a run. *)
Fixpoint iteration_markers (events : list Event) : list Event :=
  match events with
  | [] => []
  | IterationStarted :: rest => IterationStarted :: iteration_markers rest
  | IterationFinished r :: rest => IterationFinished r :: iteration_markers rest
  | _ :: rest => iteration_markers rest
  end.

(** *** Invariants of a batch *)

(** The result [processAccount] returns from its [catch] block. *)
Definition failedResult (rawAddress message : string) : ProcessingResult :=
  ProcessingResult.mk rawAddress false (Some message) None None.

(** The messages of the exceptions thrown to the task at [index]. *)
Fixpoint thrown_by (index : nat) (events : list Event) : list string :=
  match events with
  | [] => []
  | OperationThrew j _ m :: rest =>
      if (j =? index)%nat then m :: thrown_by index rest else thrown_by index rest
  | _ :: rest => thrown_by index rest
  end.

(** The events a batch over [accounts] adds to the trace: exceptions
    thrown to one of its tasks, for the address of that task, and the
    settling of its tasks. *)
Definition batch_event (accounts : list string) (e : Event) : Prop :=
  match e with
  | OperationThrew j a _ => accounts !! j = Some a
  | TaskSettled j _ => (j < length accounts)%nat
  | _ => False
  end.

(** The events the task at [index], working for [a], adds to the trace. *)
Definition event_of (index : nat) (a : string) (e : Event) : Prop :=
  match e with
  | OperationThrew j a' _ => j = index /\ a' = a
  | TaskSettled j _ => j = index
  | _ => False
  end.

Section BatchInvariants.

Context {platform : Platform.t}.

(** A task for [a] that still makes at most [n] awaited calls, never
    rejects, and settles with a result for [a]: a success as long as no
    call has thrown ([thrown = None]), and the failed result carrying
    the message once a call has thrown it. *)
Fixpoint task_ok (a : string) (thrown : option string) (n : nat)
    (p : Prog ProcessingResult) : Prop :=
  match p with
  | Done r =>
      match thrown with
      | None => ProcessingResult.address r = a /\ ProcessingResult.success r = true
      | Some m => r = failedResult a m
      end
  | Fail _ => False
  | Await op k =>
      thrown = None /\ op_address op = a
      /\ (if is_sync op then
            (forall x, task_ok a None n (k (inr x)))
            /\ (forall e, task_ok a (Some e) n (k (inl e)))
          else
            match n with
            | O => False
            | S n' =>
                (forall x, task_ok a None n' (k (inr x)))
                /\ (forall e, task_ok a (Some e) n' (k (inl e)))
            end)
  end.

Definition awaits_async (p : Prog ProcessingResult) : Prop :=
  match p with
  | Await op _ => is_sync op = false
  | _ => False
  end.

(** The state of the task at [index], for the address [a], against the
    events [new] of the batch so far; [budget] bounds the awaited
    calls the task still makes. *)
Definition slot_ok (new : list Event) (index : nat) (a : string) (budget : nat)
    (s : Slot) : Prop :=
  match s with
  | Queued a' => a' = a /\ budget = 3%nat /\ thrown_by index new = []
  | Running p => awaits_async p /\ task_ok a None budget p /\ thrown_by index new = []
  | Fulfilled r =>
      In (TaskSettled index r) new
      /\ match thrown_by index new with
         | [] => ProcessingResult.address r = a /\ ProcessingResult.success r = true
         | [m] => r = failedResult a m
         | _ => False
         end
  | Rejected _ => False
  end.

(** Every task of the batch over [accounts] is in order against the
    events [new]. *)
Definition slots_ok (new : list Event) (accounts : list string)
    (budgets : list nat) (slots : list Slot) : Prop :=
  length slots = length accounts
  /\ length budgets = length accounts
  /\ forall i a, accounts !! i = Some a ->
       exists s b, slots !! i = Some s /\ budgets !! i = Some b
                   /\ slot_ok new i a b s.

(** The invariant of a batch: the world has gained the events [new]
    since the batch began at [base], all of them events of the batch,
    and every task is in order. *)
Definition batch_inv (base new : list Event) (accounts : list string)
    (budgets : list nat) (slots : list Slot) (w : World) : Prop :=
  World.events w = (base ++ new)%list
  /\ Forall (batch_event accounts) new
  /\ slots_ok new accounts budgets slots.

(** What the limiter guarantees when it stops: the queue is empty or
    all places are taken. *)
Definition limiter_done (limit : nat) (slots : list Slot) : Prop :=
  first_queued_from 0 slots = None \/ (limit <= activeCount slots)%nat.

End BatchInvariants.

(** The number of tasks still in the queue of the limiter. *)
Fixpoint queued_count {platform : Platform.t} (slots : list Slot) : nat :=
  match slots with
  | [] => 0
  | Queued _ :: rest => S (queued_count rest)
  | _ :: rest => queued_count rest
  end.

(** A computation that leaves the trace as it is. *)
Definition keeps_events {A : Type} (m : M World A) : Prop :=
  forall w, World.events (m w).2 = World.events w.

(** *** The shape of the trace of one iteration *)

(** The events of [saveCursor]: its entry and its completion. *)
Definition cursor_event (e : Event) : Prop :=
  match e with
  | SaveCursorCalled _ | CursorSaved _ => True
  | _ => False
  end.

(** A computation that only adds events satisfying [P] to the trace. *)
Definition adds (P : Event -> Prop) {A : Type} (m : M World A) : Prop :=
  forall w, exists l,
    World.events (m w).2 = (World.events w ++ l)%list /\ Forall P l.

(** In [events], every task of the page [accounts] has settled with a
    result for its own identifier. *)
Definition all_settled (accounts : list string) (events : list Event) : Prop :=
  forall i a, accounts !! i = Some a ->
    exists r, In (TaskSettled i r) events /\ ProcessingResult.address r = a.

(** The cursor is saved only after the page: whenever the events split
    at an event of [saveCursor], the page was fetched before it and all
    the tasks of that page have settled in between. *)
Definition cursor_saved_after_page (events : list Event) : Prop :=
  forall before e after,
    cursor_event e ->
    events = (before ++ e :: after)%list ->
    exists head accounts settled,
      before = (head ++ PageFetched accounts :: settled)%list
      /\ all_settled accounts settled.

(** ** Environments of a complete run *)

(** A disk on which no call fails. *)
Definition healthy_disk {platform : Platform.t} (env : Env) : Prop :=
  (forall t dir, ensureDir_error env t dir = None)
  /\ (forall t path, writeFile_error env t path = None)
  /\ (forall t path, readFile_error env t path = None).

(** A source that answers every request with its last page: some
    identifiers, [hasNextPage = false] and the end cursor [cursor]. *)
Definition at_last_page {platform : Platform.t} (env : Env) (cursor : string) : Prop :=
  forall t first after,
    exists nodes,
      nodes <> []
      /\ fetchAccounts env t first after
         = inr (Page.mk nodes (PageInfo.mk false (Some cursor))).

(** The cursor path holds a file, or nothing at all. *)
Definition cursor_readable (path : string) (fs : FS.t) : Prop :=
  is_Some (FS.files fs !! path)
  \/ (FS.files fs !! path = None /\ path ∉ FS.dirs fs).

(** ** A platform and environments to run the indexer on *)

(** A toy expression engine: a pattern is a literal searched in the
    identifier, and the pattern [(] is rejected the way an unterminated
    group is. *)
Definition literal_RegExp_new (pattern : string) : string + string :=
  if String.eqb pattern "("
  then inl "Invalid regular expression: /(/: Unterminated group"
  else inr pattern.

Definition literal_RegExp_test (regex s : string) : bool :=
  match String.index 0 regex s with
  | Some _ => true
  | None => false
  end.

(** Payloads given by their serialization, the flat store of
    src/utils/fileUtils.ts with [/] as the separator, and a cursor file
    in the working directory. *)
Definition examplePlatform : Platform.t :=
  Platform.mk string (fun data => data)
    string literal_RegExp_new literal_RegExp_test
    (fun dataDirectory _ => dataDirectory)
    (flat_filePathOf (String.concat "/"))
    (fun _ => ".").

(** The defaults of [loadConfig], with two concurrent requests. *)
Definition exampleConfig : IndexerConfig :=
  IndexerConfig.mk "key" "https://tonapi.io/v2/graphql" "https://tonapi.io/v2"
    "./cursor.txt" "./data" 2 100 100 3 1000 "info" false.

(** The same with [RETRY_DELAY_MS=10000] and [MAX_RETRIES=10]. *)
Definition slowConfig : IndexerConfig :=
  IndexerConfig.mk "key" "https://tonapi.io/v2/graphql" "https://tonapi.io/v2"
    "./cursor.txt" "./data" 2 100 100 10 10000 "info" false.

Definition address1 : string :=
  "0:abcdef1234567890abcdef1234567890abcdef1234567890abcdef1234567890".
Definition address2 : string :=
  "0:1bcdef1234567890abcdef1234567890abcdef1234567890abcdef1234567890".
Definition address3 : string :=
  "-2:1bcdef1234567890abcdef1234567890abcdef1234567890abcdef1234567890".
Definition address4 : string :=
  "0:2bcdef1234567890abcdef1234567890abcdef1234567890abcdef1234567890".

(** A source at its last page (one identifier, [hasNextPage = false],
    an end cursor), a detail endpoint that answers, a healthy disk. *)
Definition lastPageEnv : Env (platform := examplePlatform) :=
  mkEnv (platform := examplePlatform) []
    (fun _ _ _ => inr (Page.mk [address1] (PageInfo.mk false (Some "c1"))))
    (fun _ _ => inr "{}")
    (fun _ _ => None) (fun _ _ => None) (fun _ _ => 0%nat) (fun _ _ => None)
    (fun t => t).

(** A source with nothing to enumerate. *)
Definition emptySourceEnv : Env (platform := examplePlatform) :=
  mkEnv (platform := examplePlatform) []
    (fun _ _ _ => inr (Page.mk [] (PageInfo.mk false None)))
    (fun _ _ => inr "{}")
    (fun _ _ => None) (fun _ _ => None) (fun _ _ => 0%nat) (fun _ _ => None)
    (fun t => t).

(** A page of four identifiers: the detail fetch of the second fails,
    the store fails for the fourth once its file is open, the third is
    filtered out. *)
Definition failingEnv : Env (platform := examplePlatform) :=
  mkEnv (platform := examplePlatform) ["("]
    (fun _ _ _ =>
       inr (Page.mk [address1; address2; address3; address4]
              (PageInfo.mk true (Some "c1"))))
    (fun _ a => if String.eqb a address2 then inl "API error (500): boom" else inr "{}")
    (fun _ _ => None)
    (fun _ path =>
       if String.eqb path (flat_filePathOf (String.concat "/") "./data" address4)
       then Some "ENOSPC: no space left on device"
       else None)
    (fun _ _ => 1%nat)
    (fun _ _ => None)
    (fun t => t).

(** ** The retry loops of the two clients *)

(** What a run of [inspectContract] or [fetchAccounts] does that is seen
    from outside: the requests it sends, by attempt number, and the
    pauses it takes between them. *)
Inductive RetryEvent : Type :=
| Requested (attempt : Z)
| Slept (delay : Z).

Section RetryLoop.

Variable Failure Response : Type.
(** The answer to the request of each attempt: what the [try] block
    catches, or the response. *)
Variable request : Z -> Failure + Response.
(** [this.handleError(error, ..., attempt)]. *)
Variable handleError : Failure -> Z -> Handled.
(** [this.config.maxRetries]. *)
Variable maxRetries : Z.

(** The loop [for (let attempt = 1; attempt <= maxRetries + 1; attempt++)]
    that both clients run; [remaining] is the number of values [attempt]
    still takes up to the bound.  It returns the response, or what the
    final [throw lastError] throws: the message of the last handled
    error, or [null] when the body never ran. *)
Fixpoint attempts_loop (remaining : nat) (attempt : Z) (lastError : option string)
  : (option string + Response) * list RetryEvent :=
  match remaining with
  | O => (inl lastError, [])
  | S remaining' =>
      match request attempt with
      | inr response => (inr response, [Requested attempt])
      | inl error =>
          let handled := handleError error attempt in
          let lastError := Some (Handled.error handled) in
          if (attempt =? maxRetries + 1) || negb (Handled.shouldRetry handled)
          then (inl lastError, [Requested attempt])
          else
            let '(result, events) :=
              attempts_loop remaining' (attempt + 1) lastError in
            (result, Requested attempt :: Slept (Handled.delay handled) :: events)
      end
  end.

Definition with_retries : (option string + Response) * list RetryEvent :=
  attempts_loop (Z.to_nat (maxRetries + 1)) 1 None.

End RetryLoop.

(** [RestClient.inspectContract]. *)
Definition RestClient_inspectContract {Data : Type} (config : IndexerConfig)
    (request : Z -> RestClient.Thrown + Data) (rawAddress : string)
  : (option string + Data) * list RetryEvent :=
  with_retries RestClient.Thrown Data request
    (fun error attempt => RestClient.handleError config error rawAddress attempt)
    (IndexerConfig.maxRetries config).

(** [GraphQLClient.fetchAccounts]. *)
Definition GraphQLClient_fetchAccounts (config : IndexerConfig)
    (request : Z -> GraphQLClient.Thrown + Page.t)
  : (option string + Page.t) * list RetryEvent :=
  with_retries GraphQLClient.Thrown Page.t request
    (GraphQLClient.handleError config)
    (IndexerConfig.maxRetries config).

(** The attempt numbers of the requests of a run, and its pauses. *)
Fixpoint requests_of (events : list RetryEvent) : list Z :=
  match events with
  | [] => []
  | Requested attempt :: rest => attempt :: requests_of rest
  | Slept _ :: rest => requests_of rest
  end.

Fixpoint sleeps_of (events : list RetryEvent) : list Z :=
  match events with
  | [] => []
  | Requested _ :: rest => sleeps_of rest
  | Slept delay :: rest => delay :: sleeps_of rest
  end.

(** The attempts [first], [first + 1], ... ([count] of them). *)
Definition attempts_from (first : Z) (count : nat) : list Z :=
  map (fun i => first + Z.of_nat i) (seq 0 count).

Section RetryOutcome.

Variable Failure Response : Type.
Variable request : Z -> Failure + Response.
Variable handleError : Failure -> Z -> Handled.
Variable maxRetries : Z.

(** The attempt is answered by a failure that [handleError] wants
    retried, and it is not the last attempt allowed. *)
Definition retried_at (attempt : Z) : Prop :=
  attempt <> maxRetries + 1
  /\ exists error,
       request attempt = inl error
       /\ Handled.shouldRetry (handleError error attempt) = true.

(** What the loop ends with when the request of [attempt] is its last. *)
Definition outcome_at (attempt : Z) : option string + Response :=
  match request attempt with
  | inr response => inr response
  | inl error => inl (Some (Handled.error (handleError error attempt)))
  end.

(** The pause [handleError] asks for after the failure of [attempt]. *)
Definition pause_after (attempt : Z) : Z :=
  match request attempt with
  | inr _ => 0
  | inl error => Handled.delay (handleError error attempt)
  end.

End RetryOutcome.

(** Requests to run the loops on: the first answered by an error with
    the given status, the following ones by a payload. *)
Definition busy_then_ok (status : Z) (attempt : Z) : RestClient.Thrown + string :=
  if attempt =? 1
  then inl (RestClient.AxiosError (Some (RestClient.mkResponse status None ∅)) true
              "Request failed")
  else inr "{}".

(** A detail endpoint that answers every request with 404. *)
Definition always_404 (attempt : Z) : RestClient.Thrown + string :=
  inl (RestClient.AxiosError (Some (RestClient.mkResponse 404 None ∅)) true
         "Request failed with status code 404").

(** ** Configuration loading (src/config) *)

(** [process.env]. *)
Abbreviation ProcessEnv := (gmap string string).

(** [process.env[name] || fallback]. *)
Definition env_or (env : ProcessEnv) (name fallback : string) : string :=
  default fallback (or_str (env !! name) (Some fallback)).

(** Comparisons of a number that may be [NaN] ([None]) with a constant:
    every comparison with [NaN] is false. *)
Definition js_le (x : option Z) (y : Z) : bool :=
  match x with Some v => v <=? y | None => false end.
Definition js_lt (x : option Z) (y : Z) : bool :=
  match x with Some v => v <? y | None => false end.
Definition js_gt (x : option Z) (y : Z) : bool :=
  match x with Some v => y <? v | None => false end.

(** The object [configuration] that [loadConfig] builds: an
    [IndexerConfig] whose numbers come out of [parseInt] and may be
    [NaN]. *)
Module Configuration.
Record t : Type := mk {
  tonApiKey : string;
  graphqlUrl : string;
  restUrl : string;
  cursorFilePath : string;
  dataDirectory : string;
  maxConcurrentRequests : option Z;
  requestDelayMs : option Z;
  accountsPerPage : option Z;
  maxRetries : option Z;
  retryDelayMs : option Z;
  logLevel : string;
  logPretty : bool;
}.

(** The configuration as the services use it, when all its numbers are
    numbers. *)
Definition toIndexerConfig (c : t) : option IndexerConfig :=
  match maxConcurrentRequests c, requestDelayMs c, accountsPerPage c,
        maxRetries c, retryDelayMs c with
  | Some concurrent, Some requestDelay, Some perPage, Some retries, Some retryDelay =>
      Some (IndexerConfig.mk (tonApiKey c) (graphqlUrl c) (restUrl c)
              (cursorFilePath c) (dataDirectory c) concurrent requestDelay perPage
              retries retryDelay (logLevel c) (logPretty c))
  | _, _, _, _, _ => None
  end.
End Configuration.
Abbreviation Configuration := Configuration.t.

Definition requiredEnvVars : list string := ["TONAPI_KEY"].

Definition loadConfig (env : ProcessEnv) : string + Configuration :=
  match find (fun envVar => negb (truthy_str (env !! envVar))) requiredEnvVars with
  | Some envVar =>
      inl ("Required environment variable " ++ envVar ++ " is not set")
  | None =>
      let configuration :=
        Configuration.mk
          (default "" (env !! "TONAPI_KEY"))
          (env_or env "TONAPI_GRAPHQL_URL" "https://tonapi.io/v2/graphql")
          (env_or env "TONAPI_REST_URL" "https://tonapi.io/v2")
          (env_or env "CURSOR_FILE_PATH" "./cursor.txt")
          (env_or env "DATA_DIRECTORY" "./data")
          (parseInt10 (env_or env "MAX_CONCURRENT_REQUESTS" "4"))
          (parseInt10 (env_or env "REQUEST_DELAY_MS" "100"))
          (parseInt10 (env_or env "ACCOUNTS_PER_PAGE" "100"))
          (parseInt10 (env_or env "MAX_RETRIES" "3"))
          (parseInt10 (env_or env "RETRY_DELAY_MS" "1000"))
          (env_or env "LOG_LEVEL" "info")
          (bool_decide (env !! "LOG_PRETTY" = Some "true")) in
      if js_le (Configuration.maxConcurrentRequests configuration) 0
         || js_gt (Configuration.maxConcurrentRequests configuration) 10
      then inl "MAX_CONCURRENT_REQUESTS must be between 1 and 10"
      else if js_le (Configuration.accountsPerPage configuration) 0
              || js_gt (Configuration.accountsPerPage configuration) 1000
      then inl "ACCOUNTS_PER_PAGE must be between 1 and 1000"
      else if js_lt (Configuration.maxRetries configuration) 0
              || js_gt (Configuration.maxRetries configuration) 10
      then inl "MAX_RETRIES must be between 0 and 10"
      else inr configuration
  end.

(** An environment with the key and three settings. *)
Definition exampleProcessEnv : ProcessEnv :=
  {[ "TONAPI_KEY" := "key"; "MAX_CONCURRENT_REQUESTS" := "2";
     "ACCOUNTS_PER_PAGE" := " 250 accounts"; "LOG_PRETTY" := "true" ]}.

(** A number that is [NaN] or lies between two bounds. *)
Definition nan_or_between (x : option Z) (low high : Z) : Prop :=
  match x with
  | Some v => low <= v <= high
  | None => True
  end.

(** ** addressFilter: the statistics *)

(** [resetStats]. *)
Definition resetStats : M FilterState unit :=
  modify (fun st => FilterState.mk 0 0 0 ∅ (FilterState.warnings st)).

(** The sum of the counters of [stats.skipReasons]. *)
Definition skipReasons_sum (reasons : gmap string Z) : Z :=
  map_fold (fun _ count acc => count + acc) 0 reasons.

(** The state of a filter after [shouldProcessAddress] has been called
    on each of [addresses] in turn. *)
Definition classify_all (RegExp : Type) (RegExp_new : string -> string + RegExp)
    (RegExp_test : RegExp -> string -> bool) (patterns addresses : list string)
    (st : FilterState) : FilterState :=
  fold_left
    (fun st rawAddress =>
       (shouldProcessAddress RegExp RegExp_new RegExp_test patterns rawAddress st).2)
    addresses st.

(** The reasons the built-in rules give. *)
Definition builtin_reasons : list string :=
  ["masterchain_system"; "zero_heavy"; "too_short"].

(** What one call does to the statistics. *)
Definition counts_one_more (st st' : FilterState) : Prop :=
  FilterState.total st' = FilterState.total st + 1
  /\ FilterState.processed st' + FilterState.skipped st'
     = FilterState.processed st + FilterState.skipped st + 1
  /\ skipReasons_sum (FilterState.skipReasons st') - FilterState.skipped st'
     = skipReasons_sum (FilterState.skipReasons st) - FilterState.skipped st.


(** The statistics of a filter add up, after [calls] calls. *)
Definition stats_add_up (calls : nat) (st : FilterState) : Prop :=
  FilterState.total st = Z.of_nat calls
  /\ FilterState.processed st + FilterState.skipped st = FilterState.total st
  /\ skipReasons_sum (FilterState.skipReasons st) = FilterState.skipped st.

(** ** addressFilter: the configured patterns *)

(** [s.split(sep)] for a separator of one character. *)
Fixpoint js_split (sep : ascii) (s : string) : list string :=
  match s with
  | EmptyString => [EmptyString]
  | String c s' =>
      if Ascii.eqb c sep then EmptyString :: js_split sep s'
      else match js_split sep s' with
           | part :: parts => String c part :: parts
           | [] => [String c EmptyString]
           end
  end.

(** [createDefaultAddressFilterConfig().customSkipPatterns]. *)
Definition createDefaultAddressFilterConfig (env : ProcessEnv) : list string :=
  if truthy_str (env !! "CUSTOM_SKIP_PATTERNS")
  then map js_trim (js_split "," (default "" (env !! "CUSTOM_SKIP_PATTERNS")))
  else [].

(** The characters of a file name that stays in its directory:
    letters, digits, the underscore and the dot. *)
Definition is_file_name_char (c : ascii) : bool :=
  is_alnum c || Ascii.eqb c "_" || Ascii.eqb c ".".

(** ** directoryStructure: the distribution of the files *)

(** What [fs.readdir(dir, { withFileTypes: true })] finds under a
    directory: regular files, directories with what [readdir] gives for
    them in turn (its entries, or the error it throws), and entries of
    another kind (links, sockets). *)
#[local] Set Warnings "-register-all".
Inductive DirEntry : Type :=
| FileEntry (name : string)
| DirectoryEntry (name : string) (content : string + list DirEntry)
| OtherEntry (name : string).

(** Induction over an entry and the entries below it. *)
Section EntryInduction.

Variable P : DirEntry -> Prop.
Hypothesis P_file : forall name, P (FileEntry name).
Hypothesis P_other : forall name, P (OtherEntry name).
Hypothesis P_unreadable : forall name error, P (DirectoryEntry name (inl error)).
Hypothesis P_directory :
  forall name entries, Forall P entries -> P (DirectoryEntry name (inr entries)).

Fixpoint DirEntry_tree_ind (entry : DirEntry) : P entry :=
  match entry with
  | FileEntry name => P_file name
  | OtherEntry name => P_other name
  | DirectoryEntry name (inl error) => P_unreadable name error
  | DirectoryEntry name (inr entries) =>
      P_directory name entries
        ((fix all (l : list DirEntry) : Forall P l :=
            match l with
            | [] => @List.Forall_nil DirEntry P
            | e :: l' =>
                @List.Forall_cons DirEntry P e l' (DirEntry_tree_ind e) (all l')
            end) entries)
  end.

End EntryInduction.

Module DirectoryStats.
Record t : Type := mk {
  totalDirectories : nat;
  totalFiles : nat;
  averageFilesPerDirectory : Q;
  maxFilesInDirectory : nat;
  minFilesInDirectory : option nat;            (* [None] is [Infinity] *)
  directoryDistribution : gmap string nat;
}.
End DirectoryStats.
Abbreviation DirectoryStats := DirectoryStats.t.

(** [entry.isFile() && entry.name.endsWith('.json')]. *)
Definition is_json_file (entry : DirEntry) : bool :=
  match entry with
  | FileEntry name => ends_with ".json" name
  | _ => false
  end.

(** The [.json] files directly in a listing: [files.length]. *)
Definition json_here (entries : list DirEntry) : nat :=
  length (List.filter is_json_file entries).

(** The body of [if (files.length > 0)] in [countFilesRecursively]. *)
Definition record_directory (currentPath : string) (files : nat)
    (stats : DirectoryStats) : DirectoryStats :=
  let dirKey := if truthy_str (Some currentPath) then currentPath else "root" in
  DirectoryStats.mk
    (S (DirectoryStats.totalDirectories stats))
    (DirectoryStats.totalFiles stats + files)
    (DirectoryStats.averageFilesPerDirectory stats)
    (if (DirectoryStats.maxFilesInDirectory stats <? files)%nat then files
     else DirectoryStats.maxFilesInDirectory stats)
    (match DirectoryStats.minFilesInDirectory stats with
     | Some least => if (files <? least)%nat then Some files else Some least
     | None => Some files
     end)
    (<[dirKey := files]> (DirectoryStats.directoryDistribution stats)).

(** The first half of [countFilesRecursively]: the files of the
    directory itself. *)
Definition count_here (entries : list DirEntry) (currentPath : string)
  : M DirectoryStats unit :=
  if (0 <? json_here entries)%nat
  then modify (record_directory currentPath (json_here entries))
  else ret tt.

Section ForEach.

Variable body : DirEntry -> M DirectoryStats unit.

(** A [for ... of] loop with an awaited body: the first exception ends
    it. *)
Fixpoint for_each (entries : list DirEntry) : M DirectoryStats unit :=
  match entries with
  | [] => ret tt
  | entry :: rest => do body entry then for_each rest
  end.

End ForEach.

(** The body of [for (const directory of directories)] for one entry of
    the listing of [currentPath]: nothing for an entry that is not a
    directory, and for a directory the recursive call of
    [countFilesRecursively], which reads the directory, counts its
    files and goes through its own directories. *)
Fixpoint visit (currentPath : string) (entry : DirEntry) : M DirectoryStats unit :=
  match entry with
  | DirectoryEntry name content =>
      let subCurrentPath :=
        if truthy_str (Some currentPath) then currentPath ++ "/" ++ name else name in
      match content with
      | inl error => throw error
      | inr entries =>
          do count_here entries subCurrentPath then
          for_each (visit subCurrentPath) entries
      end
  | _ => ret tt
  end.

(** [countFilesRecursively(dirPath, currentPath, stats)], given what
    [readdir] gives for [dirPath]. *)
Definition countFilesRecursively (content : string + list DirEntry)
    (currentPath : string) : M DirectoryStats unit :=
  match content with
  | inl error => throw error
  | inr entries =>
      do count_here entries currentPath then
      for_each (visit currentPath) entries
  end.

(** [analyzeDirectoryDistribution(baseDir)], given what [readdir] gives
    for [baseDir]. *)
Definition analyzeDirectoryDistribution (root : string + list DirEntry)
  : DirectoryStats :=
  let stats := DirectoryStats.mk 0 0 0 0 None ∅ in
  match countFilesRecursively root "" stats with
  | (inr _, stats) =>
      DirectoryStats.mk
        (DirectoryStats.totalDirectories stats)
        (DirectoryStats.totalFiles stats)
        (if (0 <? DirectoryStats.totalDirectories stats)%nat
         then inject_Z (Z.of_nat (DirectoryStats.totalFiles stats))
              / inject_Z (Z.of_nat (DirectoryStats.totalDirectories stats))
         else 0%Q)
        (DirectoryStats.maxFilesInDirectory stats)
        (match DirectoryStats.minFilesInDirectory stats with
         | None => Some 0%nat
         | Some least => Some least
         end)
        (DirectoryStats.directoryDistribution stats)
  | (inl _, stats) =>
      DirectoryStats.mk
        (DirectoryStats.totalDirectories stats)
        (DirectoryStats.totalFiles stats)
        (DirectoryStats.averageFilesPerDirectory stats)
        (DirectoryStats.maxFilesInDirectory stats)
        (Some 0%nat)
        (DirectoryStats.directoryDistribution stats)
  end.

(** The [.json] files below an entry, counted directly. *)
Fixpoint json_below (entry : DirEntry) : nat :=
  match entry with
  | DirectoryEntry _ (inr entries) =>
      json_here entries + sum_list_with json_below entries
  | _ => 0
  end.

(** The [.json] files of a tree. *)
Definition json_files (entries : list DirEntry) : nat :=
  json_here entries + sum_list_with json_below entries.

(** The directories below an entry that hold a [.json] file directly. *)
Fixpoint populated_below (entry : DirEntry) : nat :=
  match entry with
  | DirectoryEntry _ (inr entries) =>
      (if (0 <? json_here entries)%nat then 1 else 0)
      + sum_list_with populated_below entries
  | _ => 0
  end.

Definition populated_directories (entries : list DirEntry) : nat :=
  (if (0 <? json_here entries)%nat then 1 else 0)
  + sum_list_with populated_below entries.

(** [readdir] succeeds on the entry, if it is a directory, and on every
    directory below it. *)
Fixpoint readable_entry (entry : DirEntry) : bool :=
  match entry with
  | DirectoryEntry _ (inl _) => false
  | DirectoryEntry _ (inr entries) => forallb readable_entry entries
  | _ => true
  end.

Definition readable (entries : list DirEntry) : bool :=
  forallb readable_entry entries.

(** The extremes of the statistics under construction are in line with
    its totals: nothing recorded yet, or a least and a greatest number
    of files per directory with the total between them. *)
Definition spread_ok (stats : DirectoryStats) : Prop :=
  match DirectoryStats.minFilesInDirectory stats with
  | None =>
      DirectoryStats.totalDirectories stats = 0%nat
      /\ DirectoryStats.totalFiles stats = 0%nat
      /\ DirectoryStats.maxFilesInDirectory stats = 0%nat
  | Some least =>
      (1 <= DirectoryStats.totalDirectories stats)%nat
      /\ (1 <= least <= DirectoryStats.maxFilesInDirectory stats)%nat
      /\ (least * DirectoryStats.totalDirectories stats
          <= DirectoryStats.totalFiles stats
          <= DirectoryStats.maxFilesInDirectory stats
             * DirectoryStats.totalDirectories stats)%nat
  end.

(** What a traversal that returns has done to the statistics: it has
    added [files] files in [directories] directories, left the average
    alone and kept the extremes in line. *)
Definition counted_more (files directories : nat) (stats stats' : DirectoryStats)
  : Prop :=
  DirectoryStats.totalFiles stats' = (DirectoryStats.totalFiles stats + files)%nat
  /\ DirectoryStats.totalDirectories stats'
     = (DirectoryStats.totalDirectories stats + directories)%nat
  /\ DirectoryStats.averageFilesPerDirectory stats'
     = DirectoryStats.averageFilesPerDirectory stats
  /\ (spread_ok stats -> spread_ok stats').

(** A small tree: two files at the top, a shard with one file, an
    empty shard, and a shard that cannot be read. *)
Definition exampleTree : list DirEntry :=
  [ FileEntry "inspect_a.json"; FileEntry "inspect_b.json"; FileEntry "notes.txt";
    DirectoryEntry "d4" (inr [DirectoryEntry "1d" (inr [FileEntry "inspect_c.json"])]);
    DirectoryEntry "00" (inr []) ].

Definition brokenTree : list DirEntry :=
  (exampleTree ++ [DirectoryEntry "ff" (inl "EACCES: permission denied, scandir")])%list.

(** [determineOptimalDirectoryLevels] of fileUtils, given whether the
    data directory exists and what [readdir] gives for it.  None of the
    calls in its [try] block throws, so its [catch] is not modelled. *)
Definition determineOptimalDirectoryLevels (dataDirectoryExists : bool)
    (root : string + list DirEntry) (estimatedTotalFiles : option Z) : option Z :=
  let counted :=
    if dataDirectoryExists then
      let stats := analyzeDirectoryDistribution root in
      if (DirectoryStats.totalFiles stats =? 0)%nat then 100000
      else Z.of_nat (DirectoryStats.totalFiles stats)
    else 100000 in
  let fileCount :=
    match estimatedTotalFiles with
    | Some estimate => if estimate =? 0 then counted else estimate
    | None => counted
    end in
  calculateOptimalDirectoryLevels fileCount.

(** ** The stages of a task *)

Section TaskStages.

Context {platform : Platform.t}.
Variable config : IndexerConfig.

Notation "'let!' x ':=' p 'in' k" := (prog_bind p (fun x => k))
  (at level 10, x name, p at level 100, k at level 200, only parsing).

(** The [catch] block of [processAccount]. *)
Definition catchBlock (rawAddress : string) (errorMessage : string)
  : Prog ProcessingResult :=
  Done (ProcessingResult.mk rawAddress false (Some errorMessage) None None).

(** The results [processAccount] returns from its [try] block. *)
Definition filteredResult (rawAddress : string) (filterResult : FilterResult)
  : ProcessingResult :=
  ProcessingResult.mk rawAddress true
    (Some ("Filtered: " ++ default "undefined" (FilterResult.skipReason filterResult)))
    (Some true) None.

Definition existingResult (rawAddress : string) : ProcessingResult :=
  ProcessingResult.mk rawAddress true None (Some true) None.

Definition savedResult (rawAddress filePath : string) : ProcessingResult :=
  ProcessingResult.mk rawAddress true None None (Some filePath).

(** [processAccount] from [await contractFileExists(...)] on: where a
    task is suspended once the filter has let its address through. *)
Definition afterFilter (rawAddress : string) : Prog ProcessingResult :=
  prog_try
    (let! fileExists :=
       call (ContractFileExists (IndexerConfig.dataDirectory config) rawAddress) in
     if (fileExists : bool) then
       Done (ProcessingResult.mk rawAddress true None (Some true) None)
     else
       let! contractData := call (InspectContract rawAddress) in
       let! filePath :=
         call (SaveContractData (IndexerConfig.dataDirectory config) rawAddress
                 contractData) in
       Done (ProcessingResult.mk rawAddress true None None (Some filePath)))
    (catchBlock rawAddress).

(** From [await this.restClient.inspectContract(rawAddress)] on. *)
Definition afterCheck (rawAddress : string) : Prog ProcessingResult :=
  prog_try
    (let! contractData := call (InspectContract rawAddress) in
     let! filePath :=
       call (SaveContractData (IndexerConfig.dataDirectory config) rawAddress
               contractData) in
     Done (ProcessingResult.mk rawAddress true None None (Some filePath)))
    (catchBlock rawAddress).

(** From [await saveContractData(...)] on. *)
Definition afterInspect (rawAddress : string) (contractData : Data)
  : Prog ProcessingResult :=
  prog_try
    (let! filePath :=
       call (SaveContractData (IndexerConfig.dataDirectory config) rawAddress
               contractData) in
     Done (ProcessingResult.mk rawAddress true None None (Some filePath)))
    (catchBlock rawAddress).

End TaskStages.

(** A world in which the snapshot of [address1] is stored. *)
Definition storedWorld : World :=
  World.mk
    (FS.mk {[ flat_filePathOf (String.concat "/") "./data" address1 := "{}" ]}
       {[ "./data" ]})
    FilterState.initial 0 [].

(** ** Outcomes of an iteration and of a complete run *)

(** The entry of [summary.errors] a result gives rise to: a failed
    result with a message that is not empty. *)
Definition listed_error (result : ProcessingResult) : option (string * string) :=
  if ProcessingResult.success result then None
  else match ProcessingResult.error result with
       | Some message =>
           if String.eqb message "" then None
           else Some (ProcessingResult.address result, message)
       | None => None
       end.

(** The bucket of the summary a result is counted in. *)
Definition is_skipped (result : ProcessingResult) : bool :=
  ProcessingResult.success result && truthy_bool (ProcessingResult.skipped result).
Definition is_successful (result : ProcessingResult) : bool :=
  ProcessingResult.success result
  && negb (truthy_bool (ProcessingResult.skipped result)).
Definition is_failed (result : ProcessingResult) : bool :=
  negb (ProcessingResult.success result).

(** The ways [runIteration] can throw. *)
Definition iteration_error {platform : Platform.t} (env : Env) (message : string)
  : Prop :=
  (exists reason, message = "Failed to create data directory: " ++ reason)
  \/ (exists reason, message = "Failed to read cursor file: " ++ reason)
  \/ (exists t first after, fetchAccounts env t first after = inl message)
  \/ (exists reason, message = "Failed to save cursor: " ++ reason).

(** The totals of a complete run add up. *)
Definition totals_add_up {platform : Platform.t} (totals : Totals) : Prop :=
  totalProcessed totals
  = (totalSuccessful totals + totalFailed totals + totalSkipped totals)%nat.

(** The cursor file holds no cursor: there is nothing at its path, or a
    file with nothing but white space. *)
Definition no_cursor (path : string) (fs : FS.t) : Prop :=
  FS.pathExists fs path = false
  \/ exists content, FS.files fs !! path = Some content /\ js_trim content = "".

(** A source with a single page of one identifier and no end cursor. *)
Definition singlePageEnv : Env (platform := examplePlatform) :=
  mkEnv (platform := examplePlatform) []
    (fun _ _ _ => inr (Page.mk [address1] (PageInfo.mk false None)))
    (fun _ _ => inr "{}")
    (fun _ _ => None) (fun _ _ => None) (fun _ _ => 0%nat) (fun _ _ => None)
    (fun t => t).

(** A source that answers with an empty page that claims a next page. *)
Definition emptyPageEnv : Env (platform := examplePlatform) :=
  mkEnv (platform := examplePlatform) []
    (fun _ _ _ => inr (Page.mk [] (PageInfo.mk true (Some "c9"))))
    (fun _ _ => inr "{}")
    (fun _ _ => None) (fun _ _ => None) (fun _ _ => 0%nat) (fun _ _ => None)
    (fun t => t).

(** A source that is down. *)
Definition downEnv : Env (platform := examplePlatform) :=
  mkEnv (platform := examplePlatform) []
    (fun _ _ _ => inl "GraphQL request failed: fetch failed")
    (fun _ _ => inr "{}")
    (fun _ _ => None) (fun _ _ => None) (fun _ _ => 0%nat) (fun _ _ => None)
    (fun t => t).

(** ** The run modes of the entry point (src/index.ts) *)

(** What a run mode logs and does between the iterations. *)
Inductive ModeEvent : Type :=
| IterationAnnounced (iterationNumber : nat) (remainingTime : option Z)
    (* 'Starting iteration #n'; the time left, in timed mode *)
| IterationCompleted (iterationNumber : nat) (result : IterationResult)
    (* 'Iteration #n completed successfully' *)
| IterationFailed (iterationNumber : nat) (message : string)
    (* 'Iteration #n failed' *)
| Paused (ms : option Z)                      (* [await sleep(ms)] *)
| OutOfTime                                   (* 'Less than 30 seconds remaining' *)
| EndOfData.                                  (* 'Reached end of all accounts' *)

(** The world of the indexer and the log of the mode. *)
Module ModeState.
Record t : Type := mk {
  world : World;
  log : list ModeEvent;
}.
End ModeState.
Abbreviation ModeState := ModeState.t.

Definition throwF {S A : Type} (e : string) : MF S A := fun s => (Thrown e, s).

(** The time values of a [Date]: at most 8.64e15 ms on either side of
    the epoch, and not NaN. *)
Definition is_time_value (t : option Z) : bool :=
  match t with
  | Some t => Z.abs t <=? 8640000000000000
  | None => false
  end.

Section RunModes.

Context {platform : Platform.t}.
Variable env : Env.
Variable config : IndexerConfig.
(** [process.env], for the delays. *)
Variable processEnv : ProcessEnv.
(** [Date.now()] and [shouldStop()] (the flag the signal handlers set),
    as the mode finds them at each of its interactions with the
    outside. *)
Variable now : nat -> Z.
Variable shouldStop : nat -> bool.

Definition mode_tick (s : ModeState) : ModeState :=
  ModeState.mk
    (World.mk (World.fs (ModeState.world s)) (World.filter (ModeState.world s))
       (S (World.clock (ModeState.world s))) (World.events (ModeState.world s)))
    (ModeState.log s).

(** [Date.now()], where its value decides what the mode does.  The
    readings that only go to the log, and cannot throw, are left out. *)
Definition dateNow : MF ModeState Z :=
  fun s => (Returned (now (World.clock (ModeState.world s))), mode_tick s).

Definition callShouldStop : MF ModeState bool :=
  fun s => (Returned (shouldStop (World.clock (ModeState.world s))), mode_tick s).

Definition note (e : ModeEvent) : MF ModeState unit :=
  fun s => (Returned tt, ModeState.mk (ModeState.world s) (ModeState.log s ++ [e])%list).

(** [await sleep(ms)]. *)
Definition sleep (ms : option Z) : MF ModeState unit :=
  fun s =>
    (Returned tt,
     ModeState.mk (ModeState.world (mode_tick s)) (ModeState.log s ++ [Paused ms])%list).

(** [await indexer.runIteration()] inside the [try] block of a mode:
    the result, or the message of what the [catch] block catches. *)
Definition attemptIteration : MF ModeState (string + IterationResult) :=
  fun s =>
    match runIteration env config (ModeState.world s) with
    | (Returned result, w') => (Returned (inr result), ModeState.mk w' (ModeState.log s))
    | (Thrown e, w') => (Returned (inl e), ModeState.mk w' (ModeState.log s))
    | (Unfinished, w') => (Unfinished, ModeState.mk w' (ModeState.log s))
    end.

(** *** runInfiniteMode *)

(** The [while (!shouldStop())] loop, one round per unit of fuel. *)
Fixpoint runInfiniteMode_loop (fuel iterationCount : nat) : MF ModeState unit :=
  match fuel with
  | O => fun s => (Unfinished, s)
  | S fuel' =>
      let+ stop := callShouldStop in
      if (stop : bool) then retF tt
      else
        let iterationCount := S iterationCount in
        let+ _ := note (IterationAnnounced iterationCount None) in
        let+ outcome := attemptIteration in
        match outcome with
        | inr result =>
            let+ _ := note (IterationCompleted iterationCount result) in
            let+ _ :=
              if negb (IterationResult.hasNextPage result) then
                let+ _ := note EndOfData in
                let waitTime :=
                  parseInt10 (env_or processEnv "END_OF_DATA_WAIT_MS" "60000") in
                sleep waitTime
              else
                let iterationDelay :=
                  parseInt10 (env_or processEnv "ITERATION_DELAY_MS" "5000") in
                if js_gt iterationDelay 0 then sleep iterationDelay else retF tt in
            runInfiniteMode_loop fuel' iterationCount
        | inl errorMessage =>
            let+ _ := note (IterationFailed iterationCount errorMessage) in
            let errorRetryDelay :=
              parseInt10 (env_or processEnv "ERROR_RETRY_DELAY_MS" "30000") in
            let+ _ := sleep errorRetryDelay in
            runInfiniteMode_loop fuel' iterationCount
        end
  end.

Definition runInfiniteMode (fuel : nat) : MF ModeState unit :=
  runInfiniteMode_loop fuel 0.

(** *** runTimedMode *)

(** The [while (!shouldStop() && Date.now() < endTime)] loop. *)
Fixpoint runTimedMode_loop (fuel iterationCount : nat) (endTime : Z)
  : MF ModeState unit :=
  match fuel with
  | O => fun s => (Unfinished, s)
  | S fuel' =>
      let+ stop := callShouldStop in
      if (stop : bool) then retF tt
      else
        let+ time := dateNow in
        if negb (time <? endTime) then retF tt
        else
          let iterationCount := S iterationCount in
          let+ time := dateNow in
          let remainingTime := Z.max 0 (endTime - time) in
          let+ _ := note (IterationAnnounced iterationCount (Some remainingTime)) in
          if remainingTime <? 30000 then
            let+ _ := note OutOfTime in
            retF tt
          else
            let+ outcome := attemptIteration in
            match outcome with
            | inr result =>
                let+ _ := note (IterationCompleted iterationCount result) in
                if negb (IterationResult.hasNextPage result) then
                  let+ _ := note EndOfData in
                  retF tt
                else
                  let iterationDelay :=
                    parseInt10 (env_or processEnv "ITERATION_DELAY_MS" "2000") in
                  let+ _ :=
                    if js_gt iterationDelay 0 then
                      let+ time := dateNow in
                      if time + default 0 iterationDelay <? endTime
                      then sleep iterationDelay
                      else retF tt
                    else retF tt in
                  runTimedMode_loop fuel' iterationCount endTime
            | inl errorMessage =>
                let+ _ := note (IterationFailed iterationCount errorMessage) in
                let+ time := dateNow in
                let errorRetryDelay :=
                  Z.min 10000 (Z.max 0 (endTime - time - 5000)) in
                let+ _ :=
                  if 0 <? errorRetryDelay then sleep (Some errorRetryDelay)
                  else retF tt in
                runTimedMode_loop fuel' iterationCount endTime
            end
  end.

(** [minutes] is what [parseInt] made of the command line, NaN
    included.  The first log line of the mode prints
    [new Date(endTime).toISOString()], which throws a [RangeError] when
    [endTime] is not a time value: when it is NaN, or more than
    8.64e15 ms away from the epoch.  The line stands before the loop
    and outside every [try]. *)
Definition runTimedMode (fuel : nat) (minutes : option Z) : MF ModeState unit :=
  let+ startTime := dateNow in
  let endTime := (fun minutes => startTime + minutes * 60 * 1000) <$> minutes in
  match endTime with
  | Some endTime =>
      if is_time_value (Some endTime) then runTimedMode_loop fuel 0 endTime
      else throwF "Invalid time value"
  | None => throwF "Invalid time value"
  end.

End RunModes.

(** The log of a timed run is in order: an iteration is completed or
    fails only after it was announced with at least 30 seconds left,
    and a completed iteration that reported no next page is followed by
    the end of the run and nothing else. *)
Fixpoint timed_log_ok (log : list ModeEvent) : Prop :=
  match log with
  | [] => True
  | IterationAnnounced n remaining :: rest =>
      match rest with
      | [] => True
      | [OutOfTime] => exists left, remaining = Some left /\ left < 30000
      | IterationCompleted n' result :: rest' =>
          n' = n
          /\ (exists left, remaining = Some left /\ 30000 <= left)
          /\ (if IterationResult.hasNextPage result then timed_log_ok rest'
              else rest' = [EndOfData])
      | IterationFailed n' _ :: rest' =>
          n' = n
          /\ (exists left, remaining = Some left /\ 30000 <= left)
          /\ timed_log_ok rest'
      | _ => False
      end
  | Paused _ :: rest => timed_log_ok rest
  | _ => False
  end.

(** The log of an infinite run is in order: an announced iteration is
    completed or fails; after a failure the mode pauses for
    [ERROR_RETRY_DELAY_MS] (30000 by default); after a completed
    iteration that reported no next page it notes the end of the data
    and pauses for [END_OF_DATA_WAIT_MS] (60000 by default); after any
    other completed iteration it pauses for [ITERATION_DELAY_MS] (5000
    by default) if that is more than 0; then the next iteration is
    announced. *)
Fixpoint infinite_log_ok (processEnv : ProcessEnv) (log : list ModeEvent) : Prop :=
  match log with
  | [] => True
  | IterationAnnounced n None :: rest =>
      match rest with
      | [] => True
      | IterationFailed n' _ :: Paused ms :: rest' =>
          n' = n
          /\ ms = parseInt10 (env_or processEnv "ERROR_RETRY_DELAY_MS" "30000")
          /\ infinite_log_ok processEnv rest'
      | IterationCompleted n' result :: rest' =>
          n' = n
          /\ match IterationResult.hasNextPage result, rest' with
             | false, EndOfData :: Paused ms :: rest'' =>
                 ms = parseInt10 (env_or processEnv "END_OF_DATA_WAIT_MS" "60000")
                 /\ infinite_log_ok processEnv rest''
             | false, _ => False
             | true, Paused ms :: rest'' =>
                 ms = parseInt10 (env_or processEnv "ITERATION_DELAY_MS" "5000")
                 /\ js_gt ms 0 = true
                 /\ infinite_log_ok processEnv rest''
             | true, _ =>
                 js_gt (parseInt10 (env_or processEnv "ITERATION_DELAY_MS" "5000")) 0
                 = false
                 /\ infinite_log_ok processEnv rest'
             end
      | _ => False
      end
  | _ => False
  end.

(** ** Node's library functions behind the shard path

    [getDirectoryPath] calls two functions of Node: the MD5 digest of
    [crypto] and [path.join].  The theorems take both as parameters;
    the definitions below are what they compute on a POSIX system, to
    run the shard path on. *)

Module MD5.

(** Words of 32 bits. *)
Definition word (x : Z) : Z := x mod 2 ^ 32.

Definition rotate_left (x c : Z) : Z :=
  Z.lor (word (Z.shiftl x c)) (Z.shiftr x (32 - c)).

Definition complement (x : Z) : Z := Z.lxor x (2 ^ 32 - 1).

(** The shift of each of the 64 steps. *)
Definition shifts : list Z :=
  [7; 12; 17; 22; 7; 12; 17; 22; 7; 12; 17; 22; 7; 12; 17; 22;
   5; 9; 14; 20; 5; 9; 14; 20; 5; 9; 14; 20; 5; 9; 14; 20;
   4; 11; 16; 23; 4; 11; 16; 23; 4; 11; 16; 23; 4; 11; 16; 23;
   6; 10; 15; 21; 6; 10; 15; 21; 6; 10; 15; 21; 6; 10; 15; 21].

(** The constant of each step: the integer part of [2^32 * |sin (i + 1)|]. *)
Definition sines : list Z :=
  [3614090360; 3905402710; 606105819; 3250441966; 4118548399; 1200080426;
   2821735955; 4249261313; 1770035416; 2336552879; 4294925233; 2304563134;
   1804603682; 4254626195; 2792965006; 1236535329; 4129170786; 3225465664;
   643717713; 3921069994; 3593408605; 38016083; 3634488961; 3889429448;
   568446438; 3275163606; 4107603335; 1163531501; 2850285829; 4243563512;
   1735328473; 2368359562; 4294588738; 2272392833; 1839030562; 4259657740;
   2763975236; 1272893353; 4139469664; 3200236656; 681279174; 3936430074;
   3572445317; 76029189; 3654602809; 3873151461; 530742520; 3299628645;
   4096336452; 1126891415; 2878612391; 4237533241; 1700485571; 2399980690;
   4293915773; 2240044497; 1873313359; 4264355552; 2734768916; 1309151649;
   4149444226; 3174756917; 718787259; 3951481745].

(** The four chaining words. *)
Record State : Type := mkState { a : Z; b : Z; c : Z; d : Z }.

Definition initial : State := mkState 1732584193 4023233417 2562383102 271733878.

(** Step [i] of the compression of one block of sixteen words. *)
Definition step (block : list Z) (st : State) (i : nat) : State :=
  let '(f, g) :=
    if (i <? 16)%nat then
      (Z.lor (Z.land (b st) (c st)) (Z.land (complement (b st)) (d st)), i)
    else if (i <? 32)%nat then
      (Z.lor (Z.land (d st) (b st)) (Z.land (complement (d st)) (c st)),
       ((5 * i + 1) mod 16)%nat)
    else if (i <? 48)%nat then
      (Z.lxor (b st) (Z.lxor (c st) (d st)), ((3 * i + 5) mod 16)%nat)
    else
      (Z.lxor (c st) (Z.lor (b st) (complement (d st))), ((7 * i) mod 16)%nat) in
  let sum := word (f + a st + nth i sines 0 + nth g block 0) in
  mkState (d st) (word (b st + rotate_left sum (nth i shifts 0))) (b st) (c st).

Definition compress (st : State) (block : list Z) : State :=
  let st' := fold_left (step block) (seq 0 64) st in
  mkState (word (a st + a st')) (word (b st + b st'))
    (word (c st + c st')) (word (d st + d st')).

(** The bytes of a word, the least significant first. *)
Definition word_bytes (x : Z) : list Z :=
  [x mod 256; (x / 256) mod 256; (x / 65536) mod 256; (x / 16777216) mod 256].

Fixpoint words_of_bytes (count : nat) (bytes : list Z) : list Z :=
  match count, bytes with
  | S count', b0 :: b1 :: b2 :: b3 :: rest =>
      (b0 + 256 * b1 + 65536 * b2 + 16777216 * b3) :: words_of_bytes count' rest
  | _, _ => []
  end.

(** The message, a one bit, zeros up to 56 modulo 64 bytes, and the
    length of the message in bits on 8 bytes. *)
Definition padded (message : list Z) : list Z :=
  let len := length message in
  let zeros := ((119 - len mod 64) mod 64)%nat in
  let bits := Z.of_nat len * 8 in
  (message ++ [128] ++ repeat 0 zeros
     ++ word_bytes (word bits) ++ word_bytes (word (bits / 2 ^ 32)))%list.

Fixpoint blocks (count : nat) (words : list Z) : list (list Z) :=
  match count with
  | O => []
  | S count' => take 16 words :: blocks count' (drop 16 words)
  end.

Definition digest (message : list Z) : list Z :=
  let bytes := padded message in
  let words := words_of_bytes (length bytes / 4) bytes in
  let st := fold_left compress (blocks (length words / 16) words) initial in
  (word_bytes (a st) ++ word_bytes (b st) ++ word_bytes (c st) ++ word_bytes (d st))%list.

Definition hex_digits : list ascii :=
  ["0"; "1"; "2"; "3"; "4"; "5"; "6"; "7"; "8"; "9"; "a"; "b"; "c"; "d"; "e"; "f"]%char.

Definition hex_digit (n : Z) : ascii := nth (Z.to_nat (n mod 16)) hex_digits "0"%char.

Fixpoint hex (bytes : list Z) : string :=
  match bytes with
  | [] => EmptyString
  | byte :: rest => String (hex_digit (byte / 16)) (String (hex_digit byte) (hex rest))
  end.

End MD5.

(** [crypto.createHash('md5').update(input).digest('hex')]; the input is
    hashed as its UTF-8 bytes, which are the characters of the string
    here. *)
Definition md5_hex (input : string) : string :=
  MD5.hex (MD5.digest (map (fun ch => Z.of_N (N_of_ascii ch))
                         (String.list_ascii_of_string input))).

(** [path.join] of POSIX: the arguments that are not empty are joined
    with [/], and the result is normalized: empty and [.] segments
    go, a [..] takes the segment before it with it. *)
Definition normalize_segment (isAbsolute : bool) (kept : list string)
    (segment : string) : list string :=
  if String.eqb segment "" || String.eqb segment "." then kept
  else if String.eqb segment ".." then
    match kept with
    | previous :: before =>
        if String.eqb previous ".." then segment :: kept else before
    | [] => if isAbsolute then [] else [segment]
    end
  else segment :: kept.

Definition posix_normalize (path : string) : string :=
  if String.eqb path "" then "."
  else
    let isAbsolute := String.prefix "/" path in
    let trailingSeparator :=
      match String.get (String.length path - 1) path with
      | Some ch => Ascii.eqb ch "/"
      | None => false
      end in
    let kept := fold_left (normalize_segment isAbsolute) (js_split "/" path) [] in
    let normalized := String.concat "/" (rev kept) in
    if String.eqb normalized "" then
      if isAbsolute then "/" else if trailingSeparator then "./" else "."
    else
      (if isAbsolute then "/" else "") ++ normalized
        ++ (if trailingSeparator then "/" else "").

Definition posix_join (paths : list string) : string :=
  match List.filter (fun part => negb (String.eqb part "")) paths with
  | [] => "."
  | parts => posix_normalize (String.concat "/" parts)
  end.
(** * Properties *)

Section CompileBatchSummary.

Lemma summary_step_total s r :
  BatchSummary.total (summary_step s r) = BatchSummary.total s.
Proof.
  destruct s as [t su f sk er]; unfold summary_step; simpl.
  destruct (ProcessingResult.success r); [destruct (truthy_bool _); reflexivity|].
  destruct (ProcessingResult.error r) as [e|]; [|reflexivity].
  destruct (negb _); reflexivity.
Qed.

Lemma summary_step_counted s r : counted (summary_step s r) = S (counted s).
Proof.
  destruct s as [t su f sk er]; unfold summary_step, counted; simpl.
  destruct (ProcessingResult.success r); [destruct (truthy_bool _); simpl; lia|].
  destruct (ProcessingResult.error r) as [e|]; [|simpl; lia].
  destruct (negb _); simpl; lia.
Qed.

Lemma summary_step_errors s r e :
  In e (BatchSummary.errors (summary_step s r)) ->
  In e (BatchSummary.errors s)
  \/ (ProcessingResult.success r = false
      /\ ProcessingResult.address r = e.1
      /\ ProcessingResult.error r = Some e.2).
Proof.
  destruct s as [t su f sk er]; unfold summary_step; simpl.
  destruct (ProcessingResult.success r) eqn:Hs.
  - destruct (truthy_bool _); simpl; auto.
  - destruct (ProcessingResult.error r) as [m|] eqn:He; simpl; auto.
    destruct (negb (String.eqb m "")); simpl; auto.
    rewrite in_app_iff; simpl. intros [H|[H|[]]]; auto.
    subst e; simpl; auto.
Qed.

Lemma fold_summary_invariant results :
  forall s,
    let s' := fold_left summary_step results s in
    BatchSummary.total s' = BatchSummary.total s
    /\ counted s' = (counted s + length results)%nat
    /\ (forall e, In e (BatchSummary.errors s') ->
          In e (BatchSummary.errors s) \/ error_from results e).
Proof.
  induction results as [|r rs IH]; intros s; simpl.
  - repeat split; auto; lia.
  - destruct (IH (summary_step s r)) as (Ht & Hc & He).
    rewrite Ht, Hc, summary_step_total, summary_step_counted.
    repeat split; [lia|].
    intros e Hin. destruct (He e Hin) as [H|(r' & Hr' & H)].
    + destruct (summary_step_errors _ _ _ H) as [H'|H']; auto.
      right. exists r. split; [left; reflexivity|exact H'].
    + right. exists r'. split; [right; exact Hr'|exact H].
Qed.

End CompileBatchSummary.

(** C10. For every list of processing results the summary built by
    [compileBatchSummary] has [total] equal to the length of the list,
    its three counters add up to [total] (every result lands in exactly
    one bucket), and every entry of [errors] is the address and error
    message of a result whose [success] is [false]. *)
Theorem compileBatchSummary_partition (results : list ProcessingResult) :
  let s := compileBatchSummary results in
  BatchSummary.total s = length results
  /\ (BatchSummary.successful s + BatchSummary.failed s + BatchSummary.skipped s)%nat
     = BatchSummary.total s
  /\ (forall e, In e (BatchSummary.errors s) -> error_from results e).
Proof.
  unfold compileBatchSummary.
  destruct (fold_summary_invariant results
              (BatchSummary.mk (length results) 0 0 0 [])) as (Ht & Hc & He).
  simpl in *. repeat split.
  - exact Ht.
  - rewrite Ht. exact Hc.
  - intros e Hin. destruct (He e Hin) as [[]|H]. exact H.
Qed.

Section OptimalDepth.

Lemma Qgtb_div_inject (n T M : Z) :
  0 < T ->
  Qgtb (inject_Z n / inject_Z T) (inject_Z M) = (M * T <? n).
Proof.
  intros HT. unfold Qgtb.
  destruct (Z.ltb_spec (M * T) n) as [Hlt|Hge].
  - apply negb_true_iff. apply not_true_iff_false.
    rewrite Qle_bool_iff. intros Hle.
    destruct T as [|p|p]; try lia.
    unfold Qle, Qdiv, Qmult, Qinv, inject_Z in Hle; simpl in Hle. lia.
  - apply negb_false_iff. rewrite Qle_bool_iff.
    destruct T as [|p|p]; try lia.
    unfold Qle, Qdiv, Qmult, Qinv, inject_Z; simpl. lia.
Qed.

Lemma foldersPerLevel_pow_pos (d : Z) : 0 <= d -> 0 < foldersPerLevel ^ d.
Proof. intros Hd. apply Z.pow_pos_nonneg; [reflexivity|exact Hd]. Qed.

Lemma levels_loop_step (fuel : nat) (n r : Z) :
  0 <= r ->
  levels_loop (S fuel) n r (foldersPerLevel ^ r) =
    if (1000 * foldersPerLevel ^ r <? n) && (r <? 6)
    then levels_loop fuel n (r + 1) (foldersPerLevel ^ (r + 1))
    else Some r.
Proof.
  intros Hr. simpl.
  rewrite Qgtb_div_inject by (apply foldersPerLevel_pow_pos; exact Hr).
  reflexivity.
Qed.

(** The loop never runs out of fuel, and the code computes the smallest
    depth in [2,6] whose bound holds with a fan-out of [65536] per
    level. *)
Lemma calculateOptimalDirectoryLevels_total (n : Z) :
  calculateOptimalDirectoryLevels n = Some (depth_by_fan_out 65536 n).
Proof.
  unfold calculateOptimalDirectoryLevels, depth_by_fan_out,
    DIRECTORY_CONSTANTS.MIN_DIRECTORY_LEVELS,
    DIRECTORY_CONSTANTS.MAX_DIRECTORY_LEVELS.
  change foldersPerLevel with 65536 at 1.
  assert (E : forall d, foldersPerLevel ^ d = 65536 ^ d) by reflexivity.
  rewrite <- (E 2).
  rewrite levels_loop_step by lia. cbn [find].
  rewrite (E 2).
  destruct (Z.ltb_spec (1000 * 65536 ^ 2) n) as [H2|H2];
    destruct (Z.leb_spec n (1000 * 65536 ^ 2)) as [L2|L2]; try lia;
    [|reflexivity].
  change (2 + 1) with 3. cbn [andb Z.ltb Z.compare Pos.compare Pos.compare_cont].
  simpl (2 <? 6). cbn [andb].
  rewrite levels_loop_step by lia. rewrite (E 3).
  destruct (Z.ltb_spec (1000 * 65536 ^ 3) n) as [H3|H3];
    destruct (Z.leb_spec n (1000 * 65536 ^ 3)) as [L3|L3]; try lia;
    [|reflexivity].
  change (3 + 1) with 4. simpl (3 <? 6). cbn [andb].
  rewrite levels_loop_step by lia. rewrite (E 4).
  destruct (Z.ltb_spec (1000 * 65536 ^ 4) n) as [H4|H4];
    destruct (Z.leb_spec n (1000 * 65536 ^ 4)) as [L4|L4]; try lia;
    [|reflexivity].
  change (4 + 1) with 5. simpl (4 <? 6). cbn [andb].
  rewrite levels_loop_step by lia. rewrite (E 5).
  destruct (Z.ltb_spec (1000 * 65536 ^ 5) n) as [H5|H5];
    destruct (Z.leb_spec n (1000 * 65536 ^ 5)) as [L5|L5]; try lia;
    [|reflexivity].
  change (5 + 1) with 6. simpl (5 <? 6). cbn [andb].
  rewrite levels_loop_step by lia. rewrite (E 6).
  simpl (6 <? 6). rewrite andb_false_r.
  destruct (Z.leb_spec n (1000 * 65536 ^ 6)); reflexivity.
Qed.

(** The depth the specification describes, with the division cleared. *)
Lemma optimalDepth_spec_fan_out (n : Z) :
  optimalDepth_spec n = depth_by_fan_out 256 n.
Proof.
  unfold optimalDepth_spec, depth_by_fan_out. cbn [find].
  assert (E : forall d, 0 < 256 ^ d ->
            Qle_bool (inject_Z n / inject_Z (256 ^ d)) (inject_Z 1000)
            = (n <=? 1000 * 256 ^ d)).
  { intros d Hd. pose proof (Qgtb_div_inject n (256 ^ d) 1000 Hd) as H.
    unfold Qgtb in H. rewrite Z.leb_antisym, <- H, negb_involutive.
    reflexivity. }
  rewrite !E by reflexivity. reflexivity.
Qed.

End OptimalDepth.

(** C2. The code does not compute the depth the specification states.
    [foldersPerLevel] is [Math.pow(256, HASH_LENGTH) = 65536] although a
    level has 256 directories, so the loop tests [n / 65536^d <= 1000].
    For one hundred million files it answers depth 2, where
    [n / 256^2 > 1000] and the smallest admissible depth is 3. *)
Theorem calculateOptimalDirectoryLevels_fan_out_slip :
  calculateOptimalDirectoryLevels 100000000 = Some 2
  /\ optimalDepth_spec 100000000 = 3
  /\ Qle_bool (inject_Z 100000000 / inject_Z (256 ^ 2)) (inject_Z 1000) = false
  /\ (forall n, calculateOptimalDirectoryLevels n = Some (depth_by_fan_out 65536 n))
  /\ (forall n, optimalDepth_spec n = depth_by_fan_out 256 n).
Proof.
  split; [vm_compute; reflexivity|].
  split; [vm_compute; reflexivity|].
  split; [vm_compute; reflexivity|].
  split; [exact calculateOptimalDirectoryLevels_total|exact optimalDepth_spec_fan_out].
Qed.

Section RetryDecision.

Variable config : IndexerConfig.

(** Every response with a status other than 429 is retried after
    [retryDelayMs * attempt]. *)
Lemma rest_status_delay (r : RestClient.Response) (q : bool) (m a : string)
    (attempt : Z) :
  RestClient.status r <> 429 ->
  Handled.delay (RestClient.handleError config (RestClient.AxiosError (Some r) q m) a attempt)
    = IndexerConfig.retryDelayMs config * attempt.
Proof.
  intros H. simpl. destruct (Z.eqb_spec (RestClient.status r) 429); [contradiction|].
  reflexivity.
Qed.

Lemma rest_network_delay (m a : string) (attempt : Z) :
  Handled.delay (RestClient.handleError config (RestClient.AxiosError None true m) a attempt)
    = IndexerConfig.retryDelayMs config * attempt.
Proof. reflexivity. Qed.

Lemma graphql_status_delay (s : option Z) (h : option HeadersObject) (m : string)
    (attempt : Z) :
  s <> Some 429 ->
  Handled.delay (GraphQLClient.handleError config (GraphQLClient.ClientError s h m) attempt)
    = IndexerConfig.retryDelayMs config * attempt.
Proof.
  intros H. simpl. rewrite bool_decide_eq_false_2 by exact H. reflexivity.
Qed.

(** A 429 without a retry-after header gets the capped exponential
    delay, in both clients. *)
Lemma rate_limit_without_header (d : option RestClient.ApiError) (q : bool)
    (m a : string) (attempt : Z) :
  Handled.delay (RestClient.handleError config
                   (RestClient.AxiosError (Some (RestClient.mkResponse 429 d ∅)) q m)
                   a attempt)
    = backoff_spec (IndexerConfig.retryDelayMs config) attempt
  /\ Handled.delay (GraphQLClient.handleError config
                      (GraphQLClient.ClientError (Some 429) None m) attempt)
     = backoff_spec (IndexerConfig.retryDelayMs config) attempt.
Proof. split; reflexivity. Qed.

(** A 429 with a numeric retry-after header waits that many seconds,
    whatever their number: in the REST client, and in the GraphQL client
    when the headers are a plain record. *)
Lemma rate_limit_numeric_header (d : option RestClient.ApiError) (q : bool)
    (m a v : string) (seconds attempt : Z) :
  v <> "" -> parseInt10 v = Some seconds ->
  Handled.delay (RestClient.handleError config
                   (RestClient.AxiosError
                      (Some (RestClient.mkResponse 429 d {["retry-after" := v]})) q m)
                   a attempt)
    = seconds * 1000
  /\ Handled.delay (GraphQLClient.handleError config
                      (GraphQLClient.ClientError (Some 429)
                         (Some (PlainRecord {["retry-after" := v]})) m) attempt)
     = seconds * 1000.
Proof.
  intros Hv Hs.
  assert (Hh : retryAfterHeader {["retry-after" := v]} = Some v).
  { unfold retryAfterHeader, or_str. rewrite lookup_singleton_eq. simpl.
    destruct (String.eqb_spec v ""); [contradiction|]. reflexivity. }
  assert (Ht : truthy_str (Some v) = true).
  { simpl. destruct (String.eqb_spec v ""); [contradiction|]. reflexivity. }
  split; cbn -[retryAfterHeader truthy_str parseInt10]; rewrite Hh, Ht; simpl;
    rewrite Hs; reflexivity.
Qed.

(** The fields of a [Headers] object are not among its properties: the
    GraphQL client finds no retry-after value in it. *)
Lemma graphql_fetch_headers_delay (fields : Headers) (m : string) (attempt : Z) :
  GraphQLClient.handleError config
    (GraphQLClient.ClientError (Some 429) (Some (FetchHeaders fields)) m) attempt
  = Handled.mk ("GraphQL rate limit exceeded (429): " ++ m) true
      (backoff_spec (IndexerConfig.retryDelayMs config) attempt).
Proof. reflexivity. Qed.

End RetryDecision.

(** C4. With a base delay of 1000 ms, a response with status 500 (or a
    request without response) on the third attempt is retried after
    [1000 * 3 = 3000] ms, where [baseDelayMs * 2^attempt] is 8000 ms: the
    delay of a transient failure is linear in the attempt number.  It is
    not capped either: with a base of 10000 ms the delay at attempt 7 is
    70000 ms.  A failure of the GraphQL transport that is not a
    [ClientError] is not retried at all.  Only a 429 without a usable
    retry-after value gets the capped exponential delay. *)
Theorem handleError_transient_delay_linear :
  let http500 := RestClient.AxiosError (Some (RestClient.mkResponse 500 None ∅)) true
                   "Request failed with status code 500" in
  Handled.delay (RestClient.handleError exampleConfig http500 "0:ab" 3) = 3000
  /\ Handled.shouldRetry (RestClient.handleError exampleConfig http500 "0:ab" 3) = true
  /\ Handled.delay (RestClient.handleError exampleConfig
                      (RestClient.AxiosError None true "ECONNRESET") "0:ab" 3) = 3000
  /\ Handled.delay (GraphQLClient.handleError exampleConfig
                      (GraphQLClient.ClientError (Some 500) None "boom") 3) = 3000
  /\ backoff_spec (IndexerConfig.retryDelayMs exampleConfig) 3 = 8000
  /\ Handled.delay (RestClient.handleError slowConfig http500 "0:ab" 7) = 70000
  /\ GraphQLClient.handleError exampleConfig (GraphQLClient.OtherThrown "fetch failed") 3
     = Handled.mk "GraphQL request failed: fetch failed" false 0
  /\ Handled.delay (RestClient.handleError exampleConfig
       (RestClient.AxiosError (Some (RestClient.mkResponse 429 None ∅)) true "") "0:ab" 3)
     = 8000
  /\ Handled.delay (GraphQLClient.handleError exampleConfig
       (GraphQLClient.ClientError (Some 429) None "") 3) = 8000.
Proof. vm_compute. repeat split; reflexivity. Qed.

(** C5. A 429 response whose Retry-After header reads 120 makes the
    REST client wait [120 * 1000 = 120000] ms: the value is converted to
    milliseconds and retried, but the maximum of 60000 ms that the
    exponential branches apply is not applied to it.  The GraphQL client
    does not get to the value at all: graphql-request hands over the
    [Headers] object of the response, whose fields are no properties of
    it, so that [headers['retry-after']] is undefined and every 429 is
    retried after the exponential delay, 2000 ms at the first attempt
    where the header asks for 5 seconds. *)
Theorem handleError_retry_after_uncapped :
  let rest429 := RestClient.AxiosError
                   (Some (RestClient.mkResponse 429 None {["retry-after" := "120"]}))
                   true "Request failed with status code 429" in
  let gql429 := GraphQLClient.ClientError (Some 429)
                  (Some (FetchHeaders {["retry-after" := "5"]})) "Too Many Requests" in
  Handled.delay (RestClient.handleError exampleConfig rest429 "0:ab" 1) = 120000
  /\ Handled.shouldRetry (RestClient.handleError exampleConfig rest429 "0:ab" 1) = true
  /\ Z.min (120 * 1000) 60000 = 60000
  /\ Handled.delay (GraphQLClient.handleError exampleConfig gql429 1) = 2000
  /\ Handled.shouldRetry (GraphQLClient.handleError exampleConfig gql429 1) = true
  /\ Z.min (5 * 1000) 60000 = 5000
  /\ (forall config fields message attempt,
        Handled.delay
          (GraphQLClient.handleError config
             (GraphQLClient.ClientError (Some 429) (Some (FetchHeaders fields)) message)
             attempt)
        = backoff_spec (IndexerConfig.retryDelayMs config) attempt).
Proof.
  cbv zeta.
  split; [vm_compute; reflexivity|]. split; [vm_compute; reflexivity|].
  split; [reflexivity|]. split; [vm_compute; reflexivity|].
  split; [vm_compute; reflexivity|]. split; [reflexivity|].
  intros config fields message attempt.
  rewrite graphql_fetch_headers_delay. reflexivity.
Qed.

Section ShardPath.

Lemma substring_length (s : string) :
  forall n m, (n + m <= String.length s)%nat ->
              String.length (String.substring n m s) = m.
Proof.
  induction s as [|c s IH]; intros n m H; simpl in H.
  - assert (n = 0%nat) by lia. assert (m = 0%nat) by lia. subst. reflexivity.
  - destruct n as [|n]; destruct m as [|m]; simpl; try reflexivity.
    + f_equal. apply IH. simpl. lia.
    + apply IH. lia.
    + apply IH. lia.
Qed.

Lemma substring_forallb (p : ascii -> bool) (s : string) :
  string_forallb p s = true ->
  forall n m, string_forallb p (String.substring n m s) = true.
Proof.
  induction s as [|c s IH]; intros H n m; simpl in *.
  - destruct n, m; reflexivity.
  - apply andb_true_iff in H as [Hc Hs].
    destruct n as [|n]; destruct m as [|m]; simpl; auto.
    rewrite Hc. simpl. apply IH. exact Hs.
Qed.

Lemma directories_loop_spec (hash : string) :
  forall n i acc,
    directories_loop n i hash acc
    = (acc ++ map (fun j => String.substring (2 * j) 2 hash) (seq i n))%list.
Proof.
  induction n as [|n IH]; intros i acc; simpl.
  - rewrite app_nil_r. reflexivity.
  - rewrite IH. rewrite <- app_assoc. simpl. f_equal. f_equal.
    unfold js_substring. change (Z.to_nat DIRECTORY_CONSTANTS.HASH_LENGTH) with 2%nat.
    replace (i * 2 + 2 - i * 2)%nat with 2%nat by lia.
    replace (i * 2)%nat with (i + (i + 0))%nat by lia. reflexivity.
Qed.

Lemma effectiveLevels_configured (depth : Z) :
  depth <> 0 -> effectiveLevels (Some depth) = depth.
Proof.
  intros H. unfold effectiveLevels. destruct (Z.eqb_spec depth 0); [contradiction|].
  reflexivity.
Qed.

Lemma stripAddressPrefix_plain (address : string) :
  (forall p, In p cosmetic_prefixes -> String.prefix p address = false) ->
  stripAddressPrefix address = address.
Proof.
  intros H.
  pose proof (H "EQ" ltac:(cbn; tauto)) as HE.
  pose proof (H "UQ" ltac:(cbn; tauto)) as HU.
  pose proof (H "kQ" ltac:(cbn; tauto)) as Hk.
  clear H.
  destruct address as [|[[] [] [] [] [] [] [] []] rest]; try reflexivity;
    destruct rest as [|[[] [] [] [] [] [] [] []] rest]; try reflexivity;
    destruct rest; vm_compute in HE, HU, Hk; discriminate.
Qed.

(** The code strips what the specification calls the cosmetic prefix. *)
Lemma stripAddressPrefix_spec (address remainder : string) :
  prefix_stripped address remainder -> stripAddressPrefix address = remainder.
Proof.
  intros [(p & Hp & ->)|[-> H]].
  - cbn in Hp. destruct Hp as [<-|[<-|[<-|[]]]]; reflexivity.
  - apply stripAddressPrefix_plain. exact H.
Qed.

Lemma prefix_stripped_total (address : string) :
  prefix_stripped address (stripAddressPrefix address).
Proof.
  destruct (String.prefix "EQ" address) eqn:HE;
    [|destruct (String.prefix "UQ" address) eqn:HU;
      [|destruct (String.prefix "kQ" address) eqn:Hk]].
  - left. exists "EQ". split; [cbn; tauto|].
    destruct address as [|[[] [] [] [] [] [] [] []] rest];
      try (vm_compute in HE; discriminate HE);
      destruct rest as [|[[] [] [] [] [] [] [] []] rest];
      try (vm_compute in HE; discriminate HE).
    reflexivity.
  - left. exists "UQ". split; [cbn; tauto|].
    destruct address as [|[[] [] [] [] [] [] [] []] rest];
      try (vm_compute in HU; discriminate HU);
      destruct rest as [|[[] [] [] [] [] [] [] []] rest];
      try (vm_compute in HU; discriminate HU).
    reflexivity.
  - left. exists "kQ". split; [cbn; tauto|].
    destruct address as [|[[] [] [] [] [] [] [] []] rest];
      try (vm_compute in Hk; discriminate Hk);
      destruct rest as [|[[] [] [] [] [] [] [] []] rest];
      try (vm_compute in Hk; discriminate Hk).
    reflexivity.
  - right. rewrite stripAddressPrefix_plain.
    + split; [reflexivity|]. intros p Hp. cbn in Hp.
      destruct Hp as [<-|[<-|[<-|[]]]]; assumption.
    + intros p Hp. cbn in Hp. destruct Hp as [<-|[<-|[<-|[]]]]; assumption.
Qed.

Lemma shardSegments_successive (generateHash : string -> string)
    (address remainder : string) (depth : Z) :
  depth <> 0 ->
  prefix_stripped address remainder ->
  shardSegments generateHash address (Some depth)
  = successive_segments (generateHash remainder) (Z.to_nat depth).
Proof.
  intros Hdepth Hstrip. unfold shardSegments, successive_segments.
  rewrite effectiveLevels_configured by exact Hdepth.
  rewrite directories_loop_spec, (stripAddressPrefix_spec _ _ Hstrip). reflexivity.
Qed.

Lemma substring_split (s : string) :
  forall n m, String.substring 0 (n + m) s
              = String.substring 0 n s ++ String.substring n m s.
Proof.
  induction s as [|ch s IH]; intros n m.
  - destruct n, m; reflexivity.
  - destruct n as [|n].
    + reflexivity.
    + cbn [Nat.add String.substring].
      change (String ch (String.substring 0 n s) ++ String.substring n m s)
        with (String ch (String.substring 0 n s ++ String.substring n m s)).
      rewrite IH. reflexivity.
Qed.

Lemma append_associative (s t u : string) : (s ++ t) ++ u = s ++ (t ++ u).
Proof.
  induction s as [|ch s IH]; [reflexivity|].
  change (String ch ((s ++ t) ++ u) = String ch (s ++ (t ++ u))).
  rewrite IH. reflexivity.
Qed.

Lemma concat_empty_snoc (parts : list string) (part : string) :
  String.concat "" (parts ++ [part]) = String.concat "" parts ++ part.
Proof.
  induction parts as [|x [|y parts] IH].
  - reflexivity.
  - cbn [app String.concat]. reflexivity.
  - change ((x :: y :: parts) ++ [part])%list with (x :: (y :: parts ++ [part]))%list.
    change (String.concat "" (x :: y :: parts ++ [part]))
      with (x ++ "" ++ String.concat "" ((y :: parts) ++ [part])).
    change (String.concat "" (x :: y :: parts))
      with (x ++ "" ++ String.concat "" (y :: parts)).
    rewrite IH.
    change ("" ++ (String.concat "" (y :: parts) ++ part))
      with (String.concat "" (y :: parts) ++ part).
    change ("" ++ String.concat "" (y :: parts))
      with (String.concat "" (y :: parts)).
    rewrite append_associative. reflexivity.
Qed.

(** Laid end to end, the segments are the beginning of the digest. *)
Lemma successive_segments_concat (digest : string) (depth : nat) :
  String.concat "" (successive_segments digest depth)
  = String.substring 0 (2 * depth) digest.
Proof.
  unfold successive_segments. induction depth as [|depth IH].
  - destruct digest; reflexivity.
  - rewrite seq_S, map_app. cbn [map Nat.add].
    rewrite concat_empty_snoc, IH. replace (2 * S depth)%nat with (2 * depth + 2)%nat by lia.
    rewrite substring_split. reflexivity.
Qed.

Lemma hex_digit_is_hex (n : Z) : is_hex_digit (MD5.hex_digit n) = true.
Proof.
  unfold MD5.hex_digit.
  generalize (Z.to_nat (n mod 16)). intros k.
  do 16 (destruct k as [|k]; [reflexivity|]). destruct k; reflexivity.
Qed.

Lemma hex_length (bytes : list Z) :
  String.length (MD5.hex bytes) = (2 * length bytes)%nat.
Proof.
  induction bytes as [|byte bytes IH]; [reflexivity|].
  cbn [MD5.hex String.length length]. rewrite IH. lia.
Qed.

Lemma hex_is_hex (bytes : list Z) :
  string_forallb is_hex_digit (MD5.hex bytes) = true.
Proof.
  induction bytes as [|byte bytes IH]; [reflexivity|].
  cbn [MD5.hex string_forallb]. rewrite !hex_digit_is_hex, IH. reflexivity.
Qed.

(** The digest is printed as 32 lower-case hexadecimal characters. *)
Lemma md5_hex_length (input : string) : String.length (md5_hex input) = 32%nat.
Proof. unfold md5_hex. rewrite hex_length. reflexivity. Qed.

Lemma md5_hex_is_hex (input : string) :
  string_forallb is_hex_digit (md5_hex input) = true.
Proof. apply hex_is_hex. Qed.

End ShardPath.

(** C9. For a configured depth [d], what [getDirectoryPath] hands to
    [path.join] is the base directory followed by exactly [d] segments:
    the characters 0-1, 2-3, ... of the digest of the identifier
    without its cosmetic prefix [EQ], [UQ] or [kQ], each segment two
    hexadecimal characters, and together the first [2 * d] characters
    of the digest; [getFilePath] adds the file name of the identifier.
    The path is a function of the base directory, the depth and the
    prefix-stripped identifier alone: every identifier with the same
    remainder, the identifier itself among them, gets the same
    directory.  The digest is the hexadecimal MD5 digest, 32 characters
    long, which bounds the depth to 16 (the configured range is
    [2,6]). *)
Theorem shardPath_deterministic_segments
    (generateHash : string -> string) (path_join : list string -> string)
    (Hlen : forall s, String.length (generateHash s) = 32%nat)
    (Hhex : forall s, string_forallb is_hex_digit (generateHash s) = true)
    (address baseDir : string) (depth : Z) (Hdepth : 1 <= depth <= 16) :
  exists remainder,
    prefix_stripped address remainder
    /\ (forall other, prefix_stripped address other -> other = remainder)
    /\ let digest := generateHash remainder in
       let segments := successive_segments digest (Z.to_nat depth) in
       getDirectoryPath generateHash path_join address baseDir (Some depth)
       = path_join (baseDir :: segments)
       /\ getFilePath generateHash path_join address baseDir (Some depth)
          = path_join [path_join (baseDir :: segments);
                       "inspect_" ++ sanitizeAddress address ++ ".json"]
       /\ length segments = Z.to_nat depth
       /\ Forall (fun segment =>
                    String.length segment = 2%nat
                    /\ string_forallb is_hex_digit segment = true) segments
       /\ String.concat "" segments
          = String.substring 0 (2 * Z.to_nat depth) digest
       /\ forall address',
            prefix_stripped address' remainder ->
            getDirectoryPath generateHash path_join address' baseDir (Some depth)
            = getDirectoryPath generateHash path_join address baseDir (Some depth).
Proof.
  exists (stripAddressPrefix address).
  pose proof (prefix_stripped_total address) as Hstrip.
  split; [exact Hstrip|]. split.
  { intros other Hother. symmetry. apply stripAddressPrefix_spec. exact Hother. }
  intros digest segments.
  assert (Hseg : forall a, prefix_stripped a (stripAddressPrefix address) ->
                   shardSegments generateHash a (Some depth) = segments).
  { intros a Ha. apply shardSegments_successive; [lia|exact Ha]. }
  split; [unfold getDirectoryPath; rewrite (Hseg address Hstrip); reflexivity|].
  split.
  { unfold getFilePath, getDirectoryPath. rewrite (Hseg address Hstrip). reflexivity. }
  split; [unfold segments, successive_segments; rewrite length_map, length_seq;
          reflexivity|].
  split.
  { unfold segments, successive_segments. apply List.Forall_forall.
    intros segment Hin. apply in_map_iff in Hin as (i & <- & Hi).
    apply in_seq in Hi. split.
    - apply substring_length. unfold digest. rewrite Hlen. lia.
    - apply substring_forallb. apply Hhex. }
  split; [apply successive_segments_concat|].
  intros address' Hother. unfold getDirectoryPath.
  rewrite (Hseg address' Hother), (Hseg address Hstrip). reflexivity.
Qed.

(** The shard path of an identifier with Node's MD5 digest and
    [path.join]: the digest of [CvxJy4...DOGS] starts with [9b3b97], and
    the identifier with the prefix [UQ] shares the directory. *)
Lemma shardPath_deterministic_segments_witness :
  (1 <= 3 <= 16)
  /\ getDirectoryPath md5_hex posix_join
       "EQCvxJy4eG8hyHBFsZ7eePxrRsUQSFE_jpptRAYBmcG_DOGS" "./data" (Some 3)
     = "data/9b/3b/97"
  /\ getDirectoryPath md5_hex posix_join
       "UQCvxJy4eG8hyHBFsZ7eePxrRsUQSFE_jpptRAYBmcG_DOGS" "./data" (Some 3)
     = "data/9b/3b/97".
Proof.
  destruct (shardPath_deterministic_segments md5_hex posix_join
              md5_hex_length md5_hex_is_hex
              "EQCvxJy4eG8hyHBFsZ7eePxrRsUQSFE_jpptRAYBmcG_DOGS" "./data" 3
              ltac:(lia))
    as (remainder & _ & Hunique & Hdir & _ & _ & _ & _ & Hshared).
  assert (Hremainder : "CvxJy4eG8hyHBFsZ7eePxrRsUQSFE_jpptRAYBmcG_DOGS" = remainder).
  { apply Hunique. left. exists "EQ". split; [cbn; tauto|reflexivity]. }
  subst remainder.
  split; [lia|]. split.
  - rewrite Hdir. vm_compute. reflexivity.
  - rewrite (Hshared "UQCvxJy4eG8hyHBFsZ7eePxrRsUQSFE_jpptRAYBmcG_DOGS"),  Hdir.
    + vm_compute. reflexivity.
    + left. exists "UQ". split; [cbn; tauto|reflexivity].
Defined.

Section AddressFilterProperties.

Variable RegExp : Type.
Variable RegExp_new : string -> string + RegExp.
Variable RegExp_test : RegExp -> string -> bool.

Let matches := matchesPattern RegExp RegExp_new RegExp_test.
Let loop := customPatternsLoop RegExp RegExp_new RegExp_test.
Let classify := shouldProcessAddress RegExp RegExp_new RegExp_test.

Lemma same_stats_refl st : same_stats st st.
Proof. repeat split. Qed.

Lemma same_stats_trans s1 s2 s3 :
  same_stats s1 s2 -> same_stats s2 s3 -> same_stats s1 s3.
Proof.
  intros (A & B & C & D) (A' & B' & C' & D').
  repeat split; congruence.
Qed.

Lemma matchesPattern_run (a p : string) (st : FilterState) :
  matches a p st =
    match RegExp_new p with
    | inr regex => (inr (RegExp_test regex a), st)
    | inl _ =>
        (inr false,
         FilterState.mk (FilterState.total st) (FilterState.processed st)
           (FilterState.skipped st) (FilterState.skipReasons st)
           (FilterState.warnings st
              ++ [("Invalid regex pattern in address filter: " ++ p)%string])%list)
    end.
Proof.
  unfold matches, matchesPattern, try_catch, bind, ret, logWarning, modify.
  destruct (RegExp_new p); reflexivity.
Qed.

Lemma matchesPattern_same_stats (a p : string) (st1 st2 : FilterState) :
  same_stats st1 st2 ->
  (matches a p st1).1 = (matches a p st2).1
  /\ same_stats (matches a p st1).2 (matches a p st2).2.
Proof.
  intros H. rewrite !matchesPattern_run.
  destruct (RegExp_new p); simpl; (split; [reflexivity|]); [|exact H].
  destruct H as (A & B & C & D). repeat split; assumption.
Qed.

Lemma skipAddress_same_stats (reason : string) (st1 st2 : FilterState) :
  same_stats st1 st2 ->
  (skipAddress reason st1).1 = (skipAddress reason st2).1
  /\ same_stats (skipAddress reason st1).2 (skipAddress reason st2).2.
Proof.
  intros (A & B & C & D). unfold skipAddress, bind, modify, ret; simpl.
  split; [reflexivity|]. repeat split; simpl; congruence.
Qed.

Lemma warned_same_stats p st : same_stats (warned p st) st.
Proof. repeat split. Qed.

Lemma loop_cons (a p : string) (ps : list string) (st : FilterState) :
  loop a (p :: ps) st =
    match RegExp_new p with
    | inl _ => loop a ps (warned p st)
    | inr regex =>
        if RegExp_test regex a then skipAddress ("custom_pattern:" ++ p) st
        else loop a ps st
    end.
Proof.
  unfold loop. cbn [customPatternsLoop]. unfold bind at 1.
  fold (matches a p st). rewrite matchesPattern_run.
  destruct (RegExp_new p) as [e|regex]; [reflexivity|].
  destruct (RegExp_test regex a); reflexivity.
Qed.

Lemma loop_nil (a : string) (st : FilterState) :
  loop a [] st =
    (inr (FilterResult.mk true None),
     FilterState.mk (FilterState.total st) (FilterState.processed st + 1)
       (FilterState.skipped st) (FilterState.skipReasons st)
       (FilterState.warnings st)).
Proof. reflexivity. Qed.

Lemma loop_same_stats (a : string) (patterns : list string) :
  forall st1 st2,
    same_stats st1 st2 ->
    (loop a patterns st1).1 = (loop a patterns st2).1
    /\ same_stats (loop a patterns st1).2 (loop a patterns st2).2.
Proof.
  induction patterns as [|p ps IH]; intros st1 st2 H.
  - rewrite !loop_nil. destruct H as (A & B & C & D).
    split; [reflexivity|]. repeat split; simpl; congruence.
  - rewrite !loop_cons.
    destruct (RegExp_new p) as [e|regex].
    + apply IH. destruct H as (A & B & C & D). repeat split; assumption.
    + destruct (RegExp_test regex a).
      * apply skipAddress_same_stats, H.
      * apply IH, H.
Qed.

Lemma loop_drops_invalid (a p e : string) (post : list string) :
  RegExp_new p = inl e ->
  forall pre st,
    (loop a (pre ++ p :: post) st).1 = (loop a (pre ++ post) st).1
    /\ same_stats (loop a (pre ++ p :: post) st).2 (loop a (pre ++ post) st).2.
Proof.
  intros Hp. induction pre as [|q pre IH]; intros st.
  - change (([] ++ p :: post)%list) with (p :: post).
    change (([] ++ post)%list) with post.
    rewrite loop_cons, Hp. apply loop_same_stats, warned_same_stats.
  - change (((q :: pre) ++ p :: post)%list) with (q :: (pre ++ p :: post))%list.
    change (((q :: pre) ++ post)%list) with (q :: (pre ++ post))%list.
    rewrite !loop_cons.
    destruct (RegExp_new q) as [e'|regex].
    + apply IH.
    + destruct (RegExp_test regex a).
      * split; [reflexivity|apply same_stats_refl].
      * apply IH.
Qed.

Lemma loop_returns (a : string) (patterns : list string) :
  forall st, exists r st', loop a patterns st = (inr r, st').
Proof.
  induction patterns as [|p ps IH]; intros st.
  - rewrite loop_nil. eauto.
  - rewrite loop_cons.
    destruct (RegExp_new p) as [e|regex]; [apply IH|].
    destruct (RegExp_test regex a); [|apply IH].
    unfold skipAddress, bind, modify, ret; simpl. eauto.
Qed.

(** A skip for a custom pattern is always backed by an expression that
    compiled and matched. *)
Lemma loop_custom_reason (a : string) (patterns : list string) :
  forall st r st',
    loop a patterns st = (inr r, st') ->
    r = FilterResult.mk true None
    \/ exists q regex, In q patterns
         /\ FilterResult.skipReason r = Some ("custom_pattern:" ++ q)
         /\ RegExp_new q = inr regex /\ RegExp_test regex a = true.
Proof.
  induction patterns as [|p ps IH]; intros st r st'.
  - rewrite loop_nil. intros [= <- _]. left. reflexivity.
  - rewrite loop_cons.
    destruct (RegExp_new p) as [e|regex] eqn:Hp.
    + intros H. destruct (IH _ _ _ H) as [Hk|(q & rx & Hin & Hr)]; [left; exact Hk|].
      right. exists q, rx. split; [right; exact Hin|exact Hr].
    + destruct (RegExp_test regex a) eqn:Ht.
      * unfold skipAddress, bind, modify, ret; simpl. intros [= <- _].
        right. exists p, regex.
        split; [left; reflexivity|]. split; [reflexivity|]. split; [exact Hp|exact Ht].
      * intros H. destruct (IH _ _ _ H) as [Hk|(q & rx & Hin & Hr)]; [left; exact Hk|].
        right. exists q, rx. split; [right; exact Hin|exact Hr].
Qed.

Lemma classify_unfold (patterns : list string) (a : string) (st : FilterState) :
  classify patterns a st =
    let st1 := FilterState.mk (FilterState.total st + 1) (FilterState.processed st)
                 (FilterState.skipped st) (FilterState.skipReasons st)
                 (FilterState.warnings st) in
    if isMasterchainSystemAddress a
    then skipAddress "masterchain_system" st1
    else if isZeroHeavyAddress a then skipAddress "zero_heavy" st1
    else if isShortAddress a then skipAddress "too_short" st1
    else loop a patterns st1.
Proof.
  unfold classify, shouldProcessAddress, bind at 1, modify; simpl.
  destruct (isMasterchainSystemAddress a); [reflexivity|].
  destruct (isZeroHeavyAddress a); [reflexivity|].
  destruct (isShortAddress a); reflexivity.
Qed.

End AddressFilterProperties.

(** C8. When [new RegExp(pattern)] throws, [matchesPattern] returns
    [false]; [shouldProcessAddress] returns a decision for every
    identifier, list of custom patterns and filter state (it never
    throws); the invalid pattern has no influence on the decision or on
    the statistics, wherever it stands in the list; and no identifier is
    ever skipped with that pattern as the reason. *)
Theorem invalid_pattern_fails_open
    (RegExp : Type) (RegExp_new : string -> string + RegExp)
    (RegExp_test : RegExp -> string -> bool)
    (rawAddress pattern message : string)
    (Hinvalid : RegExp_new pattern = inl message) :
  (forall st, exists st',
      matchesPattern RegExp RegExp_new RegExp_test rawAddress pattern st
      = (inr false, st'))
  /\ (forall patterns st, exists r st',
        shouldProcessAddress RegExp RegExp_new RegExp_test patterns rawAddress st
        = (inr r, st'))
  /\ (forall pre post st,
        let with_it := shouldProcessAddress RegExp RegExp_new RegExp_test
                         (pre ++ pattern :: post) rawAddress st in
        let without := shouldProcessAddress RegExp RegExp_new RegExp_test
                         (pre ++ post) rawAddress st in
        with_it.1 = without.1 /\ same_stats with_it.2 without.2)
  /\ (forall patterns st r st',
        shouldProcessAddress RegExp RegExp_new RegExp_test patterns rawAddress st
        = (inr r, st') ->
        FilterResult.skipReason r <> Some ("custom_pattern:" ++ pattern)).
Proof.
  split; [|split; [|split]].
  - intros st. rewrite matchesPattern_run, Hinvalid. eauto.
  - intros patterns st. rewrite classify_unfold. cbv zeta.
    destruct (isMasterchainSystemAddress rawAddress);
      [unfold skipAddress, bind, modify, ret; simpl; eauto|].
    destruct (isZeroHeavyAddress rawAddress);
      [unfold skipAddress, bind, modify, ret; simpl; eauto|].
    destruct (isShortAddress rawAddress);
      [unfold skipAddress, bind, modify, ret; simpl; eauto|].
    apply loop_returns.
  - intros pre post st. cbv zeta. rewrite !classify_unfold. cbv zeta.
    destruct (isMasterchainSystemAddress rawAddress);
      [split; [reflexivity|apply same_stats_refl]|].
    destruct (isZeroHeavyAddress rawAddress);
      [split; [reflexivity|apply same_stats_refl]|].
    destruct (isShortAddress rawAddress);
      [split; [reflexivity|apply same_stats_refl]|].
    eapply loop_drops_invalid; exact Hinvalid.
  - intros patterns st r st'. rewrite classify_unfold. cbv zeta.
    destruct (isMasterchainSystemAddress rawAddress);
      [unfold skipAddress, bind, modify, ret; simpl; intros [= <- _]; discriminate|].
    destruct (isZeroHeavyAddress rawAddress);
      [unfold skipAddress, bind, modify, ret; simpl; intros [= <- _]; discriminate|].
    destruct (isShortAddress rawAddress);
      [unfold skipAddress, bind, modify, ret; simpl; intros [= <- _]; discriminate|].
    intros H.
    destruct (loop_custom_reason _ _ _ _ _ _ _ _ H) as [->|(q & rx & _ & Hr & Hq & _)].
    + discriminate.
    + rewrite Hr. intros E. apply (f_equal (fun o => string_drop 15 (default "" o))) in E.
      change (q = pattern) in E. subst q. congruence.
Qed.

Section CrashStates.

Local Arguments String.append !_ _ / : simpl nomatch.

Lemma string_app_nil_r (s : string) : (s ++ "")%string = s.
Proof. induction s as [|c s IH]; simpl; [reflexivity|rewrite IH; reflexivity]. Qed.

Lemma string_app_snoc (s t : string) (c : ascii) :
  ((s ++ String c "") ++ t)%string = (s ++ String c t)%string.
Proof. induction s as [|d s IH]; simpl; [reflexivity|rewrite IH; reflexivity]. Qed.

Lemma substring_0_nil (k : nat) : String.substring 0 k "" = "".
Proof. destruct k; reflexivity. Qed.

(** [k] one-character appends to a file that holds [acc] leave it with
    [acc] followed by the first [k] characters of the content. *)
Lemma appends_crash (path : string) (dirs : gset string) :
  forall (content acc : string) (files : gmap string string) (k : nat),
    files !! path = Some acc ->
    run_steps
      (take k (map (fun c => Append path (String c EmptyString))
                   (String.list_ascii_of_string content)))
      (FS.mk files dirs)
    = FS.mk (<[path := (acc ++ String.substring 0 k content)%string]> files) dirs.
Proof.
  induction content as [|c s IH]; intros acc files k Hacc.
  - rewrite substring_0_nil, string_app_nil_r. simpl. rewrite take_nil. simpl.
    rewrite insert_id by exact Hacc. reflexivity.
  - destruct k as [|k].
    + simpl. rewrite string_app_nil_r, insert_id by exact Hacc. reflexivity.
    + simpl. unfold run_steps in *. simpl. rewrite Hacc.
      rewrite (IH (acc ++ String c "")%string) by apply lookup_insert_eq.
      rewrite insert_insert_eq, string_app_snoc. reflexivity.
Qed.

Lemma writeFile_crash (path content : string) (fs : FS.t) (k : nat) :
  crash_after (S k) (writeFile_steps path content) fs
  = FS.mk (<[path := String.substring 0 k content]> (FS.files fs)) (FS.dirs fs).
Proof.
  unfold crash_after, writeFile_steps. simpl. unfold run_steps. simpl.
  fold (run_steps
          (take k (map (fun c => Append path (String c EmptyString))
                       (String.list_ascii_of_string content)))
          (FS.mk (<[path := ""]> (FS.files fs)) (FS.dirs fs))).
  rewrite (appends_crash path (FS.dirs fs) content "") by apply lookup_insert_eq.
  rewrite insert_insert_eq. reflexivity.
Qed.

Lemma substring_0_all (s : string) (k : nat) :
  (String.length s <= k)%nat -> String.substring 0 k s = s.
Proof.
  revert k. induction s as [|c s IH]; intros k H.
  - apply substring_0_nil.
  - destruct k as [|k]; simpl in *; [lia|]. rewrite IH by lia. reflexivity.
Qed.

(** A write path made of one [mkdir -p] followed by a [writeFile]:
    what a crash leaves behind. *)
Lemma mkdir_writeFile_crash (dir path content : string) (fs : FS.t) (k : nat) :
  crash_after (S (S k)) (MkdirP dir :: writeFile_steps path content) fs
  = FS.mk (<[path := String.substring 0 k content]> (FS.files fs))
          ({[dir]} ∪ FS.dirs fs).
Proof.
  change (crash_after (S (S k)) (MkdirP dir :: writeFile_steps path content) fs)
    with (crash_after (S k) (writeFile_steps path content)
            (FS.mk (FS.files fs) ({[dir]} ∪ FS.dirs fs))).
  apply writeFile_crash.
Qed.

End CrashStates.

Section DirectWrite.

Lemma length_list_ascii_of_string (s : string) :
  length (String.list_ascii_of_string s) = String.length s.
Proof. induction s as [|c s IH]; simpl; [reflexivity|rewrite IH; reflexivity]. Qed.

Lemma mkdir_writeFile_direct (dir final content : string) (fs : FS.t) :
  direct_write_behaviour (MkdirP dir :: writeFile_steps final content)
    dir final content fs.
Proof.
  unfold direct_write_behaviour.
  split; [right; left; reflexivity|].
  split.
  { intros step source target [<-|[<-|Hin]]; try discriminate.
    apply in_map_iff in Hin as (c & <- & _). discriminate. }
  split; [reflexivity|]. split; [reflexivity|].
  split; [intros k; apply mkdir_writeFile_crash|].
  split.
  { intros k. change (2 + k)%nat with (S (S k)). rewrite mkdir_writeFile_crash.
    unfold FS.pathExists; simpl. rewrite lookup_insert_eq.
    rewrite bool_decide_eq_true_2 by eauto. reflexivity. }
  pose proof (mkdir_writeFile_crash dir final content fs (String.length content)) as H.
  unfold crash_after in H. rewrite take_ge in H.
  - rewrite H, substring_0_all by lia. reflexivity.
  - simpl. rewrite length_map, length_list_ascii_of_string. lia.
Qed.

End DirectWrite.

(** C3, as the code has it.  Both revisions of [saveContractData] create
    the directory and then write the serialized snapshot straight to the
    final path with one [writeFile]: there is no temporary file and no
    rename, every crash after the file has been opened leaves a prefix of
    the serialization at the final path, where [pathExists] reports it,
    and only the completed write leaves the whole serialization. *)
Theorem saveContractData_writes_in_place
    (generateHash : string -> string) (path_join : list string -> string)
    (Data : Type) (JSON_stringify : Data -> string)
    (dataDirectory rawAddress : string) (data : Data)
    (directoryLevels : option Z) (fs : FS.t) :
  direct_write_behaviour
    (flat_saveContractData_steps path_join Data JSON_stringify dataDirectory
       rawAddress data)
    dataDirectory
    (flat_filePathOf path_join dataDirectory rawAddress)
    (JSON_stringify data) fs
  /\ direct_write_behaviour
       (hier_saveContractData_steps generateHash path_join Data JSON_stringify
          dataDirectory rawAddress data directoryLevels)
       (getDirectoryPath generateHash path_join rawAddress dataDirectory directoryLevels)
       (hier_filePathOf generateHash path_join dataDirectory rawAddress directoryLevels)
       (JSON_stringify data) fs.
Proof. split; apply mkdir_writeFile_direct. Qed.

(** C3 as stated fails: writing the two-character snapshot [{}] for the
    identifier [0:ab], both revisions open the final path itself, and a
    crash after three steps leaves the one-character file [{] there,
    which [pathExists] reports as present. *)
Lemma saveContractData_not_atomic :
  let generateHash := fun _ : string => "d41d8cd98f00b204e9800998ecf8427e" in
  let path_join := String.concat "/" in
  let flat := flat_saveContractData_steps path_join string id "./data" "0:ab" "{}" in
  let hier := hier_saveContractData_steps generateHash path_join string id
                "./data" "0:ab" "{}" None in
  (writes_directly flat "./data/inspect_0_ab.json"
   /\ FS.pathExists (crash_after 3 flat FS.empty) "./data/inspect_0_ab.json" = true
   /\ FS.files (crash_after 3 flat FS.empty) !! "./data/inspect_0_ab.json" = Some "{"
   /\ ~ atomic_write flat FS.empty "./data/inspect_0_ab.json" "{}")
  /\ (writes_directly hier "./data/d4/1d/inspect_0_ab.json"
      /\ FS.pathExists (crash_after 3 hier FS.empty) "./data/d4/1d/inspect_0_ab.json" = true
      /\ FS.files (crash_after 3 hier FS.empty) !! "./data/d4/1d/inspect_0_ab.json"
         = Some "{"
      /\ ~ atomic_write hier FS.empty "./data/d4/1d/inspect_0_ab.json" "{}").
Proof.
  intros generateHash path_join flat hier.
  assert (Hflat : direct_write_behaviour flat "./data" "./data/inspect_0_ab.json" "{}" FS.empty)
    by apply mkdir_writeFile_direct.
  assert (Hhier : direct_write_behaviour hier "./data/d4/1d"
                    "./data/d4/1d/inspect_0_ab.json" "{}" FS.empty)
    by apply mkdir_writeFile_direct.
  destruct Hflat as (Hd1 & _ & _ & _ & Hc1 & He1 & _).
  destruct Hhier as (Hd2 & _ & _ & _ & Hc2 & He2 & _).
  split.
  - split; [exact Hd1|]. split; [exact (He1 1%nat)|].
    assert (Hfile : FS.files (crash_after 3 flat FS.empty) !! "./data/inspect_0_ab.json"
                    = Some "{").
    { rewrite (Hc1 1%nat : crash_after 3 flat FS.empty = _). simpl. apply lookup_insert_eq. }
    split; [exact Hfile|].
    intros Hatomic. specialize (Hatomic 3%nat (He1 1%nat)).
    rewrite Hfile in Hatomic. discriminate.
  - split; [exact Hd2|]. split; [exact (He2 1%nat)|].
    assert (Hfile : FS.files (crash_after 3 hier FS.empty)
                      !! "./data/d4/1d/inspect_0_ab.json" = Some "{").
    { rewrite (Hc2 1%nat : crash_after 3 hier FS.empty = _). simpl. apply lookup_insert_eq. }
    split; [exact Hfile|].
    intros Hatomic. specialize (Hatomic 3%nat (He2 1%nat)).
    rewrite Hfile in Hatomic. discriminate.
Qed.

(** C8 on the literal expression engine, whose pattern [(] does not
    compile. *)
Lemma invalid_pattern_fails_open_witness :
  literal_RegExp_new "(" = inl "Invalid regular expression: /(/: Unterminated group"
  /\ exists st',
       matchesPattern string literal_RegExp_new literal_RegExp_test address1 "("
         FilterState.initial
       = (inr false, st').
Proof.
  split; [reflexivity|].
  apply (invalid_pattern_fails_open string literal_RegExp_new literal_RegExp_test
           address1 "(" "Invalid regular expression: /(/: Unterminated group" eq_refl).
Defined.

Section BatchProperties.

Context {platform : Platform.t}.
Variable env : Env.
Variable config : IndexerConfig.

(** *** The trace only grows, and a call adds at most its exception *)

Lemma keeps_ret {A : Type} (a : A) : keeps_events (ret a).
Proof. intros w. reflexivity. Qed.

Lemma keeps_throw {A : Type} (e : string) : keeps_events (@throw World A e).
Proof. intros w. reflexivity. Qed.

Lemma keeps_bind {A B : Type} (m : M World A) (f : A -> M World B) :
  keeps_events m -> (forall a, keeps_events (f a)) -> keeps_events (bind m f).
Proof.
  intros Hm Hf w. unfold bind. specialize (Hm w).
  destruct (m w) as [[e|a] w']; simpl in *; [exact Hm|].
  rewrite Hf. exact Hm.
Qed.

Lemma keeps_try {A : Type} (m : M World A) (h : string -> M World A) :
  keeps_events m -> (forall e, keeps_events (h e)) -> keeps_events (try_catch m h).
Proof.
  intros Hm Hh w. unfold try_catch. specialize (Hm w).
  destruct (m w) as [[e|a] w']; simpl in *; [|exact Hm].
  rewrite Hh. exact Hm.
Qed.

Lemma keeps_tick : keeps_events tick.
Proof. intros w. reflexivity. Qed.

Lemma keeps_get_fs : keeps_events get_fs.
Proof. intros w. reflexivity. Qed.

Lemma keeps_set_fs (f : FS.t -> FS.t) : keeps_events (set_fs f).
Proof. intros w. reflexivity. Qed.

Lemma keeps_ensureDir (dir : string) : keeps_events (ensureDir env dir).
Proof.
  apply keeps_bind; [apply keeps_tick|]. intros t.
  destruct (ensureDir_error env t dir); [apply keeps_throw|apply keeps_set_fs].
Qed.

Lemma keeps_writeFile (path content : string) :
  keeps_events (writeFile env path content).
Proof.
  apply keeps_bind; [apply keeps_tick|]. intros t.
  destruct (writeFile_error env t path); [|apply keeps_set_fs].
  apply keeps_bind; [apply keeps_set_fs|]. intros _. apply keeps_throw.
Qed.

Lemma keeps_pathExists (path : string) : keeps_events (pathExists path).
Proof.
  apply keeps_bind; [apply keeps_tick|]. intros _.
  apply keeps_bind; [apply keeps_get_fs|]. intros fs. apply keeps_ret.
Qed.

Lemma keeps_saveContractData (d a : string) (data : Data) :
  keeps_events (saveContractData env d a data).
Proof.
  apply keeps_try; [|intros e; apply keeps_throw].
  apply keeps_bind; [apply keeps_ensureDir|]. intros _.
  apply keeps_bind; [apply keeps_writeFile|]. intros _. apply keeps_ret.
Qed.

Lemma perform_events {X : Type} (op : Op X) : keeps_events (perform env op).
Proof.
  destruct op as [a|d a|a|d a data]; unfold perform.
  - intros w. unfold runFilter.
    destruct (shouldProcessAddress _ _ _ _ _ _) as [r st]. reflexivity.
  - apply keeps_pathExists.
  - apply keeps_bind; [apply keeps_tick|]. intros t.
    destruct (inspectContract env t a); [apply keeps_throw|apply keeps_ret].
  - apply keeps_saveContractData.
Qed.

Lemma exec_op_spec {X : Type} (index : nat) (op : Op X) (w : World) :
  (exists x, (exec_op env index op w).1 = inr x
             /\ World.events (exec_op env index op w).2 = World.events w)
  \/ (exists e, (exec_op env index op w).1 = inl e
                /\ World.events (exec_op env index op w).2
                   = (World.events w ++ [OperationThrew index (op_address op) e])%list).
Proof.
  unfold exec_op. pose proof (perform_events op w) as Hev.
  destruct (perform env op w) as [[e|x] w']; simpl in *.
  - right. exists e. rewrite Hev. split; reflexivity.
  - left. exists x. split; [reflexivity|exact Hev].
Qed.

(** *** Exceptions thrown to a task *)

Lemma thrown_by_app (i : nat) (l1 l2 : list Event) :
  thrown_by i (l1 ++ l2) = (thrown_by i l1 ++ thrown_by i l2)%list.
Proof.
  induction l1 as [|e l1 IH]; [reflexivity|].
  destruct e; simpl; try exact IH.
  destruct (index =? i)%nat; simpl; [f_equal|]; exact IH.
Qed.

Lemma thrown_by_other (i j : nat) (a : string) (l : list Event) :
  Forall (event_of j a) l -> j <> i -> thrown_by i l = [].
Proof.
  intros Hl Hne. induction Hl as [|e l He _ IH]; [reflexivity|].
  destruct e; simpl in *; try exact IH.
  destruct He as [-> _]. destruct (Nat.eqb_spec j i); [contradiction|exact IH].
Qed.

Lemma event_of_batch_event (accounts : list string) (i : nat) (a : string)
    (l : list Event) :
  accounts !! i = Some a ->
  Forall (event_of i a) l -> Forall (batch_event accounts) l.
Proof.
  intros Ha H. eapply Forall_impl; [exact H|]. intros e. destruct e; simpl; try tauto.
  - intros [-> ->]. exact Ha.
  - intros ->. eapply lookup_lt_Some. exact Ha.
Qed.

(** A slot is not affected by the events of another task. *)
Lemma slot_ok_other (new l : list Event) (i j : nat) (a a' : string) (b : nat)
    (s : Slot) :
  Forall (event_of j a') l -> j <> i ->
  slot_ok new i a b s -> slot_ok (new ++ l) i a b s.
Proof.
  intros Hl Hne. unfold slot_ok.
  rewrite thrown_by_app, (thrown_by_other i j a' l Hl Hne), app_nil_r.
  destruct s; try tauto.
  intros [Hin H]. split; [apply in_or_app; left; exact Hin|exact H].
Qed.

(** *** A task run up to its next await *)

Lemma run_to_await_ok (index : nat) (a : string) (base : list Event) :
  forall (p : Prog ProcessingResult) (thrown : option string) (n : nat)
         (w : World) (new : list Event),
    task_ok a thrown n p ->
    World.events w = (base ++ new)%list ->
    thrown_by index new = option_list thrown ->
    exists l b,
      World.events (run_to_await env index p w).2 = (base ++ new ++ l)%list
      /\ Forall (event_of index a) l
      /\ (b <= n)%nat
      /\ slot_ok (new ++ l) index a b (run_to_await env index p w).1.
Proof.
  induction p as [r|e|X op k IH]; intros thrown n w new Hok Hev Hth.
  - exists [TaskSettled index r], 0%nat. simpl.
    split; [rewrite Hev, <- app_assoc; reflexivity|].
    split; [repeat constructor|]. split; [lia|].
    split; [apply in_or_app; right; left; reflexivity|].
    rewrite thrown_by_app, Hth; simpl. rewrite app_nil_r.
    destruct thrown; exact Hok.
  - destruct Hok.
  - simpl in Hok. destruct Hok as (-> & Ha & Hk). simpl in Hth.
    simpl. destruct (is_sync op) eqn:Hsync.
    + destruct Hk as [Hval Hexn].
      destruct (exec_op_spec index op w) as [(x & Hans & Hevs)|(e & Hans & Hevs)];
        destruct (exec_op env index op w) as [answer w']; simpl in Hans, Hevs; subst answer.
      * destruct (IH (inr x) None n w' new (Hval x)) as (l & b & H1 & H2 & H3 & H4);
          [rewrite Hevs; exact Hev|exact Hth|].
        exists l, b. auto.
      * destruct (IH (inl e) (Some e) n w' (new ++ [OperationThrew index a e])%list
                    (Hexn e)) as (l & b & H1 & H2 & H3 & H4).
        { rewrite Hevs, Hev, Ha, <- app_assoc. reflexivity. }
        { rewrite thrown_by_app, Hth; simpl. rewrite Nat.eqb_refl. reflexivity. }
        exists (OperationThrew index a e :: l), b.
        split; [rewrite H1, <- !app_assoc; reflexivity|].
        split; [constructor; [split; reflexivity|exact H2]|].
        split; [exact H3|].
        replace (new ++ OperationThrew index a e :: l)%list
          with ((new ++ [OperationThrew index a e]) ++ l)%list
          by (rewrite <- app_assoc; reflexivity).
        exact H4.
    + exists [], n. rewrite !app_nil_r. simpl.
      split; [exact Hev|]. split; [constructor|]. split; [lia|].
      split; [exact Hsync|]. split; [|exact Hth].
      simpl. rewrite Hsync. auto.
Qed.

(** *** The awaited call of a suspended task completes *)

Lemma resume_ok (index : nat) (a : string) (base new : list Event)
    (p : Prog ProcessingResult) (b : nat) (w : World) :
  slot_ok new index a b (Running p) ->
  World.events w = (base ++ new)%list ->
  exists l b',
    World.events (resume env index p w).2 = (base ++ new ++ l)%list
    /\ Forall (event_of index a) l
    /\ (b' < b)%nat
    /\ slot_ok (new ++ l) index a b' (resume env index p w).1.
Proof.
  intros (Hasync & Hok & Hth) Hev.
  destruct p as [r|e|X op k]; [destruct Hasync|destruct Hasync|].
  simpl in Hasync, Hok. rewrite Hasync in Hok.
  destruct Hok as (_ & Ha & Hk). destruct b as [|n]; [destruct Hk|].
  destruct Hk as [Hval Hexn]. unfold resume.
  destruct (exec_op_spec index op w) as [(x & Hans & Hevs)|(e & Hans & Hevs)];
    destruct (exec_op env index op w) as [answer w']; simpl in Hans, Hevs; subst answer.
  - destruct (run_to_await_ok index a base (k (inr x)) None n w' new (Hval x))
      as (l & b' & H1 & H2 & H3 & H4); [rewrite Hevs; exact Hev|exact Hth|].
    exists l, b'. repeat split; auto. lia.
  - destruct (run_to_await_ok index a base (k (inl e)) (Some e) n w'
                (new ++ [OperationThrew index a e])%list (Hexn e))
      as (l & b' & H1 & H2 & H3 & H4).
    { rewrite Hevs, Hev, Ha, <- app_assoc. reflexivity. }
    { rewrite thrown_by_app, Hth; simpl. rewrite Nat.eqb_refl. reflexivity. }
    exists (OperationThrew index a e :: l), b'.
    split; [rewrite H1, <- !app_assoc; reflexivity|].
    split; [constructor; [split; reflexivity|exact H2]|].
    split; [lia|].
    replace (new ++ OperationThrew index a e :: l)%list
      with ((new ++ [OperationThrew index a e]) ++ l)%list
      by (rewrite <- app_assoc; reflexivity).
    exact H4.
Qed.

(** *** processAccount is such a task *)

Lemma processAccount_ok (a : string) : task_ok a None 3 (processAccount config a).
Proof.
  unfold processAccount. simpl.
  split; [reflexivity|]. split; [reflexivity|]. split.
  - intros filterResult.
    destruct (FilterResult.shouldProcess filterResult); simpl.
    + split; [reflexivity|]. split; [reflexivity|]. split.
      * intros [|]; simpl; [split; reflexivity|].
        split; [reflexivity|]. split; [reflexivity|]. split.
        -- intros data. simpl. split; [reflexivity|]. split; [reflexivity|].
           split; [intros path; split; reflexivity|intros e; reflexivity].
        -- intros e. reflexivity.
      * intros e. reflexivity.
    + split; reflexivity.
  - intros e. reflexivity.
Qed.

Lemma run_to_await_not_queued (index : nat) :
  forall (p : Prog ProcessingResult) (w : World) (a : string),
    (run_to_await env index p w).1 <> Queued a.
Proof.
  induction p as [r|e|X op k IH]; intros w a; simpl; try discriminate.
  destruct (is_sync op); [|discriminate].
  destruct (exec_op env index op w) as [answer w']. apply IH.
Qed.

(** *** Queues and suspended tasks *)

Lemma first_queued_from_Some (slots : list Slot) :
  forall k i a,
    first_queued_from k slots = Some (i, a) ->
    (k <= i)%nat /\ slots !! (i - k)%nat = Some (Queued a).
Proof.
  induction slots as [|s slots IH]; intros k i a H; simpl in H; [discriminate|].
  destruct s as [a'|p|r|e];
    try (apply IH in H as [Hle Hl]; split; [lia|];
         replace (i - k)%nat with (S (i - S k)) by lia; exact Hl).
  injection H as <- <-. split; [lia|]. rewrite Nat.sub_diag. reflexivity.
Qed.

Lemma first_queued_from_None (slots : list Slot) :
  forall k, queued_count slots = 0%nat -> first_queued_from k slots = None.
Proof.
  induction slots as [|s slots IH]; intros k H; [reflexivity|].
  destruct s; simpl in *; try (apply IH; exact H). discriminate.
Qed.

Lemma queued_count_start (slots : list Slot) :
  forall i a s,
    slots !! i = Some (Queued a) ->
    (forall a', s <> Queued a') ->
    S (queued_count (<[i := s]> slots)) = queued_count slots.
Proof.
  induction slots as [|s0 slots IH]; intros i a s Hi Hs; [discriminate|].
  destruct i as [|i]; simpl in *.
  - injection Hi as ->. destruct s; simpl; try reflexivity.
    exfalso. eapply Hs. reflexivity.
  - destruct s0; simpl; try (apply (IH i a s Hi Hs)).
    f_equal. apply (IH i a s Hi Hs).
Qed.

Lemma queued_count_le_length (slots : list Slot) :
  (queued_count slots <= length slots)%nat.
Proof. induction slots as [|s slots IH]; simpl; [lia|]. destruct s; simpl; lia. Qed.

Lemma running_from_In (slots : list Slot) :
  forall k i,
    In i (running_from k slots) <->
    (k <= i)%nat /\ exists p, slots !! (i - k)%nat = Some (Running p).
Proof.
  induction slots as [|s slots IH]; intros k i; simpl.
  - split; [intros []|intros (_ & p & H); discriminate].
  - assert (Hrest : In i (running_from (S k) slots) <->
                    (k < i)%nat /\ exists p, (s :: slots) !! (i - k)%nat = Some (Running p)).
    { rewrite IH. split.
      - intros (Hle & p & Hp). split; [lia|]. exists p.
        replace (i - k)%nat with (S (i - S k)) by lia. exact Hp.
      - intros (Hlt & p & Hp). split; [lia|]. exists p.
        replace (i - k)%nat with (S (i - S k)) in Hp by lia. exact Hp. }
    destruct s as [a|p0|r|e]; simpl; rewrite ?Hrest.
    + split; [intros (Hlt & H); split; [lia|exact H]|].
      intros (Hle & p & Hp). split; [|eauto].
      destruct (decide (i = k)) as [->|]; [|lia].
      rewrite Nat.sub_diag in Hp. discriminate.
    + split.
      * intros [<-|(Hlt & H)]; [|split; [lia|exact H]].
        split; [lia|]. rewrite Nat.sub_diag. eauto.
      * intros (Hle & p & Hp). destruct (decide (k = i)) as [->|]; [left; reflexivity|].
        right. split; [lia|eauto].
    + split; [intros (Hlt & H); split; [lia|exact H]|].
      intros (Hle & p & Hp). split; [|eauto].
      destruct (decide (i = k)) as [->|]; [|lia].
      rewrite Nat.sub_diag in Hp. discriminate.
    + split; [intros (Hlt & H); split; [lia|exact H]|].
      intros (Hle & p & Hp). split; [|eauto].
      destruct (decide (i = k)) as [->|]; [|lia].
      rewrite Nat.sub_diag in Hp. discriminate.
Qed.

Lemma sum_list_insert (bs : list nat) :
  forall i b b',
    bs !! i = Some b ->
    (sum_list (<[i := b']> bs) + b = sum_list bs + b')%nat.
Proof.
  induction bs as [|b0 bs IH]; intros i b b' Hi; [discriminate|].
  destruct i as [|i]; simpl in *.
  - injection Hi as ->. lia.
  - specialize (IH i b b' Hi). lia.
Qed.

(** *** One task changes, the others stay in order *)

Lemma slots_ok_update (new l : list Event) (accounts : list string)
    (bs : list nat) (slots : list Slot) (i : nat) (a : string) (b' : nat)
    (s' : Slot) :
  slots_ok new accounts bs slots ->
  accounts !! i = Some a ->
  Forall (event_of i a) l ->
  slot_ok (new ++ l) i a b' s' ->
  slots_ok (new ++ l) accounts (<[i := b']> bs) (<[i := s']> slots).
Proof.
  intros (Hls & Hlb & Hall) Hi Hl Hs'.
  split; [rewrite length_insert; exact Hls|].
  split; [rewrite length_insert; exact Hlb|].
  intros j a' Hj. destruct (decide (i = j)) as [<-|Hne].
  - assert (a' = a) by congruence. subst a'.
    apply lookup_lt_Some in Hi.
    exists s', b'.
    rewrite !list_lookup_insert_eq by lia. auto.
  - destruct (Hall j a' Hj) as (s & b & Hs & Hb & Hok).
    exists s, b. rewrite !list_lookup_insert_ne by exact Hne.
    split; [exact Hs|]. split; [exact Hb|].
    eapply slot_ok_other; eauto.
Qed.

(** *** The limiter *)

Lemma fill_S (fuel limit : nat) (slots : list Slot) (w : World) :
  fill env config (S fuel) limit slots w =
    if (activeCount slots <? limit)%nat then
      match first_queued_from 0 slots with
      | Some (index, rawAddress) =>
          fill env config fuel limit
            (<[index := (run_to_await env index (processAccount config rawAddress) w).1]>
               slots)
            (run_to_await env index (processAccount config rawAddress) w).2
      | None => (slots, w)
      end
    else (slots, w).
Proof.
  cbn [fill]. destruct (activeCount slots <? limit)%nat; [|reflexivity].
  destruct (first_queued_from 0 slots) as [[i a]|]; [|reflexivity].
  destruct (run_to_await env i (processAccount config a) w). reflexivity.
Qed.

Lemma fill_ok (base : list Event) (accounts : list string) (limit : nat) :
  forall (fuel : nat) (slots : list Slot) (w : World) (new : list Event)
         (bs : list nat),
    batch_inv base new accounts bs slots w ->
    exists new' bs',
      batch_inv base new' accounts bs'
        (fill env config fuel limit slots w).1 (fill env config fuel limit slots w).2
      /\ (sum_list bs' <= sum_list bs)%nat
      /\ ((queued_count slots <= fuel)%nat ->
          limiter_done limit (fill env config fuel limit slots w).1).
Proof.
  induction fuel as [|fuel IH]; intros slots w new bs Hinv.
  - exists new, bs. split; [exact Hinv|]. split; [lia|].
    intros Hq. left. apply first_queued_from_None. simpl. lia.
  - rewrite fill_S. destruct (activeCount slots <? limit)%nat eqn:Hroom.
    + destruct (first_queued_from 0 slots) as [[i a]|] eqn:Hq.
      * apply first_queued_from_Some in Hq as [_ Hi]. rewrite Nat.sub_0_r in Hi.
        destruct Hinv as (Hev & Hbatch & Hslots).
        pose proof Hslots as (Hls & Hlb & Hall).
        assert (Hlt : (i < length accounts)%nat)
          by (rewrite <- Hls; eapply lookup_lt_Some; exact Hi).
        destruct (lookup_lt_is_Some_2 accounts i Hlt) as [a0 Ha0].
        destruct (Hall i a0 Ha0) as (s & b & Hs & Hb & Hok).
        rewrite Hi in Hs. injection Hs as <-.
        destruct Hok as (<- & -> & Hth).
        destruct (run_to_await_ok i a base (processAccount config a) None 3 w new
                    (processAccount_ok a) Hev Hth) as (l & b' & H1 & H2 & H3 & H4).
        pose proof (run_to_await_not_queued i (processAccount config a) w) as Hnq.
        destruct (run_to_await env i (processAccount config a) w) as [slot w'].
        simpl in H1, H4, Hnq.
        assert (Hinv' : batch_inv base (new ++ l) accounts (<[i := b']> bs)
                          (<[i := slot]> slots) w').
        { split; [exact H1|]. split.
          - apply Forall_app. split; [exact Hbatch|].
            eapply event_of_batch_event; [|exact H2]; eassumption.
          - eapply slots_ok_update; eauto. }
        destruct (IH _ _ _ _ Hinv') as (new' & bs' & Hinv'' & Hsum & Hdone).
        exists new', bs'. split; [exact Hinv''|].
        pose proof (sum_list_insert bs i 3 b' Hb) as Hins.
        split; [lia|].
        intros Hcount. apply Hdone.
        pose proof (queued_count_start slots i a slot Hi Hnq). lia.
      * exists new, bs. split; [exact Hinv|]. split; [lia|]. intros _. left. exact Hq.
    + exists new, bs. split; [exact Hinv|]. split; [lia|]. intros _. right.
      apply Nat.ltb_ge. exact Hroom.
Qed.

(** *** Promise.all *)

Lemma first_rejection_Some (slots : list Slot) (e : string) :
  first_rejection slots = Some e -> exists i, slots !! i = Some (Rejected e).
Proof.
  induction slots as [|s slots IH]; intros H; simpl in H; [discriminate|].
  destruct s; try (destruct (IH H) as [i Hi]; exists (S i); exact Hi).
  injection H as ->. exists 0%nat. reflexivity.
Qed.

Lemma all_fulfilled_Some (slots : list Slot) :
  forall results, all_fulfilled slots = Some results -> slots = map Fulfilled results.
Proof.
  induction slots as [|s slots IH]; intros results H; simpl in H.
  - injection H as <-. reflexivity.
  - destruct s; try discriminate.
    destruct (all_fulfilled slots) as [rs|]; [|discriminate].
    injection H as <-. simpl. f_equal. apply IH. reflexivity.
Qed.

Lemma all_fulfilled_None (slots : list Slot) :
  all_fulfilled slots = None ->
  exists i s, slots !! i = Some s /\ forall r, s <> Fulfilled r.
Proof.
  induction slots as [|s slots IH]; intros H; simpl in H; [discriminate|].
  destruct s as [a|p|r|e];
    try (exists 0%nat; eexists; split; [reflexivity|discriminate]).
  destruct (all_fulfilled slots); [discriminate|].
  destruct (IH eq_refl) as (i & s & Hi & Hs). exists (S i), s. auto.
Qed.

Lemma queued_count_pos (slots : list Slot) (i : nat) (a : string) :
  slots !! i = Some (Queued a) -> forall k, first_queued_from k slots <> None.
Proof.
  revert i. induction slots as [|s slots IH]; intros i Hi k; [discriminate|].
  destruct i as [|i]; simpl in *.
  - injection Hi as ->. discriminate.
  - destruct s; try (apply (IH i Hi)). discriminate.
Qed.

Lemma slots_ok_lookup (new : list Event) (accounts : list string)
    (bs : list nat) (slots : list Slot) (i : nat) (s : Slot) :
  slots_ok new accounts bs slots ->
  slots !! i = Some s ->
  exists a b, accounts !! i = Some a /\ bs !! i = Some b /\ slot_ok new i a b s.
Proof.
  intros (Hls & Hlb & Hall) Hi.
  assert (Hlt : (i < length accounts)%nat)
    by (rewrite <- Hls; eapply lookup_lt_Some; exact Hi).
  destruct (lookup_lt_is_Some_2 accounts i Hlt) as [a Ha].
  destruct (Hall i a Ha) as (s' & b & Hs' & Hb & Hok).
  exists a, b. rewrite Hi in Hs'. injection Hs' as <-. auto.
Qed.

(** While a task is not settled, some task is suspended on a call. *)
Lemma exists_running (new : list Event) (accounts : list string) (bs : list nat)
    (slots : list Slot) (limit : nat) :
  (1 <= limit)%nat ->
  slots_ok new accounts bs slots ->
  limiter_done limit slots ->
  all_fulfilled slots = None ->
  running_from 0 slots <> [].
Proof.
  intros Hlimit Hslots Hdone Hnone Hempty.
  destruct (all_fulfilled_None slots Hnone) as (i & s & Hi & Hs).
  destruct (slots_ok_lookup _ _ _ _ _ _ Hslots Hi) as (a & b & Ha & Hb & Hok).
  destruct s as [a'|p|r|e].
  - destruct Hdone as [Hq|Hact].
    + eapply queued_count_pos; eauto.
    + unfold activeCount in Hact. rewrite Hempty in Hact. simpl in Hact. lia.
  - assert (Hin : In i (running_from 0 slots)).
    { apply running_from_In. split; [lia|]. exists p. rewrite Nat.sub_0_r. exact Hi. }
    rewrite Hempty in Hin. destruct Hin.
  - eapply Hs. reflexivity.
  - destruct Hok.
Qed.

Lemma turn_ok (base : list Event) (accounts : list string) (limit : nat)
    (slots : list Slot) (w : World) (new : list Event) (bs : list nat) :
  (1 <= limit)%nat ->
  batch_inv base new accounts bs slots w ->
  limiter_done limit slots ->
  all_fulfilled slots = None ->
  exists new' bs',
    batch_inv base new' accounts bs'
      (turn env config limit slots w).1 (turn env config limit slots w).2
    /\ (sum_list bs' < sum_list bs)%nat
    /\ limiter_done limit (turn env config limit slots w).1.
Proof.
  intros Hlimit (Hev & Hbatch & Hslots) Hdone Hnone.
  pose proof (exists_running _ _ _ _ _ Hlimit Hslots Hdone Hnone) as Hrun.
  unfold turn.
  set (running := running_from 0 slots) in *.
  assert (Hlen : (0 < length running)%nat)
    by (destruct running; [contradiction|simpl; lia]).
  destruct (lookup_lt_is_Some_2 running
              (pick env (World.clock w) `mod` length running)%nat) as [i Hi].
  { apply Nat.mod_upper_bound. lia. }
  rewrite Hi.
  assert (Hin : In i running) by (apply list_elem_of_In, list_elem_of_lookup; eauto).
  apply running_from_In in Hin as (_ & p & Hp). rewrite Nat.sub_0_r in Hp.
  rewrite Hp.
  destruct (slots_ok_lookup _ _ _ _ _ _ Hslots Hp) as (a & b & Ha & Hb & Hok).
  destruct (resume_ok i a base new p b w Hok Hev) as (l & b' & H1 & H2 & H3 & H4).
  destruct (resume env i p w) as [slot w']. simpl in H1, H4.
  assert (Hinv' : batch_inv base (new ++ l) accounts (<[i := b']> bs)
                    (<[i := slot]> slots) w').
  { split; [exact H1|]. split.
    - apply Forall_app. split; [exact Hbatch|].
      eapply event_of_batch_event; [|exact H2]; eassumption.
    - eapply slots_ok_update; eauto. }
  destruct (fill_ok base accounts limit (length slots) _ _ _ _ Hinv')
    as (new' & bs' & Hinv'' & Hsum & Hfill).
  exists new', bs'. split; [exact Hinv''|].
  pose proof (sum_list_insert bs i b b' Hb) as Hins.
  split; [lia|].
  apply Hfill.
  pose proof (queued_count_le_length (<[i := slot]> slots)) as Hq.
  rewrite length_insert in Hq. exact Hq.
Qed.

Lemma await_all_unfold (fuel limit : nat) (slots : list Slot) (w : World) :
  await_all env config fuel limit slots w =
    match first_rejection slots with
    | Some e => (Thrown e, w)
    | None =>
        match all_fulfilled slots with
        | Some results => (Returned results, w)
        | None =>
            match fuel with
            | O => (Unfinished, w)
            | S fuel' =>
                await_all env config fuel' limit (turn env config limit slots w).1
                  (turn env config limit slots w).2
            end
        end
    end.
Proof.
  destruct fuel; simpl; [reflexivity|].
  destruct (first_rejection slots); [reflexivity|].
  destruct (all_fulfilled slots); [reflexivity|].
  destruct (turn env config limit slots w). reflexivity.
Qed.

Lemma await_all_ok (base : list Event) (accounts : list string) (limit : nat) :
  (1 <= limit)%nat ->
  forall (fuel : nat) (slots : list Slot) (w : World) (new : list Event)
         (bs : list nat),
    batch_inv base new accounts bs slots w ->
    limiter_done limit slots ->
    (sum_list bs <= fuel)%nat ->
    exists results w' new' bs',
      await_all env config fuel limit slots w = (Returned results, w')
      /\ batch_inv base new' accounts bs' (map Fulfilled results) w'.
Proof.
  intros Hlimit. induction fuel as [|fuel IH]; intros slots w new bs Hinv Hdone Hsum;
    rewrite await_all_unfold.
  - destruct (first_rejection slots) as [e|] eqn:Hrej.
    { destruct (first_rejection_Some _ _ Hrej) as [i Hi].
      destruct Hinv as (_ & _ & Hslots).
      destruct (slots_ok_lookup _ _ _ _ _ _ Hslots Hi) as (a & b & _ & _ & []). }
    destruct (all_fulfilled slots) as [results|] eqn:Hall.
    { apply all_fulfilled_Some in Hall. subst slots. eauto 6. }
    exfalso. destruct Hinv as (_ & _ & Hslots).
    pose proof (exists_running _ _ _ _ _ Hlimit Hslots Hdone Hall) as Hrun.
    destruct (running_from 0 slots) as [|i rest] eqn:Hr; [contradiction|].
    assert (Hin : In i (running_from 0 slots)) by (rewrite Hr; left; reflexivity).
    apply running_from_In in Hin as (_ & p & Hp). rewrite Nat.sub_0_r in Hp.
    destruct (slots_ok_lookup _ _ _ _ _ _ Hslots Hp) as (a & b & _ & Hb & Hok).
    destruct Hok as (Hasync & Htask & _).
    destruct p as [r|e|X op k]; [destruct Hasync|destruct Hasync|].
    simpl in Hasync, Htask. rewrite Hasync in Htask.
    destruct Htask as (_ & _ & Hk). destruct b as [|n]; [destruct Hk|].
    assert (S n <= sum_list bs)%nat.
    { apply (sum_list_with_in (S n) id bs). apply list_elem_of_lookup. eauto. }
    lia.
  - destruct (first_rejection slots) as [e|] eqn:Hrej.
    { destruct (first_rejection_Some _ _ Hrej) as [i Hi].
      destruct Hinv as (_ & _ & Hslots).
      destruct (slots_ok_lookup _ _ _ _ _ _ Hslots Hi) as (a & b & _ & _ & []). }
    destruct (all_fulfilled slots) as [results|] eqn:Hall.
    { apply all_fulfilled_Some in Hall. subst slots. eauto 6. }
    destruct (turn_ok base accounts limit slots w new bs Hlimit Hinv Hdone Hall)
      as (new' & bs' & Hinv' & Hlt & Hdone').
    apply (IH _ _ new' bs' Hinv' Hdone'). lia.
Qed.

(** *** IndexerService.processAccountsBatch *)

Lemma slots_ok_initial (accounts : list string) :
  slots_ok [] accounts (replicate (length accounts) 3%nat) (map Queued accounts).
Proof.
  split; [apply length_map|]. split; [apply length_replicate|].
  intros i a Ha. exists (Queued a), 3%nat.
  split; [rewrite list_lookup_fmap, Ha; reflexivity|].
  split; [apply lookup_replicate_2; eapply lookup_lt_Some; exact Ha|].
  repeat split.
Qed.

Lemma thrown_by_In (i : nat) (a m : string) (new : list Event) :
  In (OperationThrew i a m) new -> In m (thrown_by i new).
Proof.
  induction new as [|e new IH]; [intros []|]. intros [Heq|Hin]; simpl.
  - subst e. simpl. rewrite Nat.eqb_refl. left. reflexivity.
  - destruct e; auto. destruct (index =? i)%nat; [right|]; auto.
Qed.

Lemma In_thrown_by (i : nat) (m : string) (new : list Event) :
  In m (thrown_by i new) -> exists a, In (OperationThrew i a m) new.
Proof.
  induction new as [|e new IH]; simpl; [intros []|].
  destruct e; try (intros H; destruct (IH H) as [a Ha]; exists a; right; exact Ha).
  destruct (Nat.eqb_spec index i) as [->|Hne].
  - intros [<-|H]; [eexists; left; reflexivity|].
    destruct (IH H) as [a Ha]; exists a; right; exact Ha.
  - intros H; destruct (IH H) as [a Ha]; exists a; right; exact Ha.
Qed.

Lemma processAccountsBatch_ok (accounts : list string) (w : World) :
  1 <= IndexerConfig.maxConcurrentRequests config ->
  exists results w' new bs,
    processAccountsBatch env config accounts w = (Returned results, w')
    /\ batch_inv (World.events w) new accounts bs (map Fulfilled results) w'.
Proof.
  intros Hlimit. unfold processAccountsBatch.
  set (limit := Z.to_nat (IndexerConfig.maxConcurrentRequests config)).
  assert (Hinv : batch_inv (World.events w) [] accounts
                   (replicate (length accounts) 3%nat) (map Queued accounts) w).
  { split; [rewrite app_nil_r; reflexivity|]. split; [constructor|].
    apply slots_ok_initial. }
  destruct (fill_ok (World.events w) accounts limit (length accounts) _ _ _ _ Hinv)
    as (new & bs & Hinv' & Hsum & Hdone).
  destruct (fill env config (length accounts) limit (map Queued accounts) w)
    as [slots w1]. simpl in Hinv', Hdone.
  rewrite sum_list_replicate in Hsum.
  apply (await_all_ok (World.events w) accounts limit ltac:(lia)
           (3 * length accounts) slots w1 new bs Hinv').
  - apply Hdone. pose proof (queued_count_le_length (map Queued accounts)) as H.
    rewrite length_map in H. exact H.
  - lia.
Qed.

(** *** Whatever the limit: the invariant holds as far as the batch gets *)

Lemma turn_preserves (base : list Event) (accounts : list string) (limit : nat)
    (slots : list Slot) (w : World) (new : list Event) (bs : list nat) :
  batch_inv base new accounts bs slots w ->
  exists new' bs',
    batch_inv base new' accounts bs'
      (turn env config limit slots w).1 (turn env config limit slots w).2.
Proof.
  intros Hinv. unfold turn.
  destruct (running_from 0 slots !! _) as [i|]; [|eauto].
  destruct (slots !! i) as [[a'|p|r|e]|] eqn:Hp; eauto.
  destruct Hinv as (Hev & Hbatch & Hslots).
  destruct (slots_ok_lookup _ _ _ _ _ _ Hslots Hp) as (a & b & Ha & Hb & Hok).
  destruct (resume_ok i a base new p b w Hok Hev) as (l & b' & H1 & H2 & H3 & H4).
  destruct (resume env i p w) as [slot w']. simpl in H1, H4.
  assert (Hinv' : batch_inv base (new ++ l) accounts (<[i := b']> bs)
                    (<[i := slot]> slots) w').
  { split; [exact H1|]. split.
    - apply Forall_app. split; [exact Hbatch|].
      eapply event_of_batch_event; [|exact H2]; eassumption.
    - eapply slots_ok_update; eauto. }
  destruct (fill_ok base accounts limit (length slots) _ _ _ _ Hinv')
    as (new' & bs' & Hinv'' & _ & _).
  eauto.
Qed.

(** [Promise.all] never rejects; whenever it resolves, every task is
    fulfilled and in order. *)
Lemma await_all_partial (base : list Event) (accounts : list string) (limit : nat) :
  forall (fuel : nat) (slots : list Slot) (w : World) (new : list Event)
         (bs : list nat),
    batch_inv base new accounts bs slots w ->
    exists new' bs' slots',
      batch_inv base new' accounts bs' slots' (await_all env config fuel limit slots w).2
      /\ ((await_all env config fuel limit slots w).1 = Unfinished
          \/ exists results,
               (await_all env config fuel limit slots w).1 = Returned results
               /\ slots' = map Fulfilled results).
Proof.
  induction fuel as [|fuel IH]; intros slots w new bs Hinv; rewrite await_all_unfold.
  - destruct (first_rejection slots) as [e|] eqn:Hrej.
    { destruct (first_rejection_Some _ _ Hrej) as [i Hi].
      destruct Hinv as (_ & _ & Hslots).
      destruct (slots_ok_lookup _ _ _ _ _ _ Hslots Hi) as (a & b & _ & _ & []). }
    destruct (all_fulfilled slots) as [results|] eqn:Hall.
    { apply all_fulfilled_Some in Hall. subst slots.
      exists new, bs, (map Fulfilled results). split; [exact Hinv|]. right. eauto. }
    exists new, bs, slots. split; [exact Hinv|]. left. reflexivity.
  - destruct (first_rejection slots) as [e|] eqn:Hrej.
    { destruct (first_rejection_Some _ _ Hrej) as [i Hi].
      destruct Hinv as (_ & _ & Hslots).
      destruct (slots_ok_lookup _ _ _ _ _ _ Hslots Hi) as (a & b & _ & _ & []). }
    destruct (all_fulfilled slots) as [results|] eqn:Hall.
    { apply all_fulfilled_Some in Hall. subst slots.
      exists new, bs, (map Fulfilled results). split; [exact Hinv|]. right. eauto. }
    destruct (turn_preserves base accounts limit slots w new bs Hinv)
      as (new' & bs' & Hinv').
    apply (IH _ _ new' bs' Hinv').
Qed.

Lemma processAccountsBatch_partial (accounts : list string) (w : World) :
  exists new bs slots',
    batch_inv (World.events w) new accounts bs slots'
      (processAccountsBatch env config accounts w).2
    /\ ((processAccountsBatch env config accounts w).1 = Unfinished
        \/ exists results,
             (processAccountsBatch env config accounts w).1 = Returned results
             /\ slots' = map Fulfilled results).
Proof.
  unfold processAccountsBatch.
  set (limit := Z.to_nat (IndexerConfig.maxConcurrentRequests config)).
  assert (Hinv : batch_inv (World.events w) [] accounts
                   (replicate (length accounts) 3%nat) (map Queued accounts) w).
  { split; [rewrite app_nil_r; reflexivity|]. split; [constructor|].
    apply slots_ok_initial. }
  destruct (fill_ok (World.events w) accounts limit (length accounts) _ _ _ _ Hinv)
    as (new & bs & Hinv' & _ & _).
  destruct (fill env config (length accounts) limit (map Queued accounts) w)
    as [slots w1]. simpl in Hinv'.
  apply (await_all_partial (World.events w) accounts limit
           (3 * length accounts) slots w1 new bs Hinv').
Qed.

End BatchProperties.

(** C7. With the concurrency limit that [loadConfig] accepts (at least
    one), [processAccountsBatch] returns for every page, every
    environment and every scheduling: it never throws and never hangs.
    It returns one result per identifier, in the order of the page, each
    for its own identifier and each settled in the trace.  A task to
    which a call (the detail fetch or the store) threw message [m] ends
    with the failed result carrying [m], and a failed result only comes
    from such an exception. *)
Theorem batch_survives_task_failures
    {platform : Platform.t} (env : Env) (config : IndexerConfig)
    (accounts : list string) (w : World)
    (Hlimit : 1 <= IndexerConfig.maxConcurrentRequests config) :
  exists results w' new,
    processAccountsBatch env config accounts w = (Returned results, w')
    /\ World.events w' = (World.events w ++ new)%list
    /\ length results = length accounts
    /\ forall i a, accounts !! i = Some a ->
         exists r,
           results !! i = Some r
           /\ In (TaskSettled i r) new
           /\ ProcessingResult.address r = a
           /\ (forall m, In (OperationThrew i a m) new -> r = failedResult a m)
           /\ (ProcessingResult.success r = false ->
               exists m, r = failedResult a m /\ In (OperationThrew i a m) new).
Proof.
  destruct (processAccountsBatch_ok env config accounts w Hlimit)
    as (results & w' & new & bs & Hrun & Hev & Hbatch & Hls & Hlb & Hall).
  exists results, w', new. split; [exact Hrun|]. split; [exact Hev|].
  split; [rewrite length_map in Hls; exact Hls|].
  intros i a Ha. destruct (Hall i a Ha) as (s & b & Hs & _ & Hok).
  rewrite list_lookup_fmap in Hs.
  destruct (results !! i) as [r|] eqn:Hr; [|discriminate].
  injection Hs as <-. exists r. split; [reflexivity|].
  destruct Hok as [Hsettled Hth]. split; [exact Hsettled|].
  destruct (thrown_by i new) as [|m [|m' rest]] eqn:Hthrown; [| |destruct Hth].
  - destruct Hth as [Hadr Hsucc]. split; [exact Hadr|]. split.
    + intros m Hin. apply thrown_by_In in Hin. rewrite Hthrown in Hin. destruct Hin.
    + rewrite Hsucc. discriminate.
  - subst r. split; [reflexivity|]. split.
    + intros m0 Hin. apply thrown_by_In in Hin. rewrite Hthrown in Hin.
      destruct Hin as [<-|[]]. reflexivity.
    + intros _. exists m. split; [reflexivity|].
      destruct (In_thrown_by i m new) as [a' Ha'];
        [rewrite Hthrown; left; reflexivity|].
      assert (Hev' : batch_event accounts (OperationThrew i a' m))
        by (eapply (proj1 (Forall_forall _ _)) in Hbatch;
            [exact Hbatch|apply list_elem_of_In; exact Ha']).
      simpl in Hev'. assert (a' = a) by congruence. subst a'. exact Ha'.
Qed.

Section IterationProperties.

Context {platform : Platform.t}.
Variable env : Env.
Variable config : IndexerConfig.

Lemma adds_keeps (P : Event -> Prop) {A : Type} (m : M World A) :
  keeps_events m -> adds P m.
Proof. intros H w. exists []. rewrite app_nil_r. split; [apply H|constructor]. Qed.

Lemma adds_emit (P : Event -> Prop) (e : Event) : P e -> adds P (emit e).
Proof. intros H w. exists [e]. split; [reflexivity|repeat constructor; exact H]. Qed.

Lemma adds_bind (P : Event -> Prop) {A B : Type} (m : M World A) (f : A -> M World B) :
  adds P m -> (forall a, adds P (f a)) -> adds P (bind m f).
Proof.
  intros Hm Hf w. unfold bind. destruct (Hm w) as (l & Hl & HP).
  destruct (m w) as [[e|a] w']; simpl in *; [exists l; auto|].
  destruct (Hf a w') as (l' & Hl' & HP'). exists (l ++ l')%list.
  rewrite Hl', Hl, app_assoc. split; [reflexivity|apply Forall_app; auto].
Qed.

Lemma adds_try (P : Event -> Prop) {A : Type} (m : M World A) (h : string -> M World A) :
  adds P m -> (forall e, adds P (h e)) -> adds P (try_catch m h).
Proof.
  intros Hm Hh w. unfold try_catch. destruct (Hm w) as (l & Hl & HP).
  destruct (m w) as [[e|a] w']; simpl in *; [|exists l; auto].
  destruct (Hh e w') as (l' & Hl' & HP'). exists (l ++ l')%list.
  rewrite Hl', Hl, app_assoc. split; [reflexivity|apply Forall_app; auto].
Qed.

Lemma keeps_readFile (path : string) : keeps_events (readFile env path).
Proof.
  apply keeps_bind; [apply keeps_tick|]. intros t.
  apply keeps_bind; [apply keeps_get_fs|]. intros fs.
  destruct (readFile_error env t path); [apply keeps_throw|].
  destruct (FS.files fs !! path); [apply keeps_ret|apply keeps_throw].
Qed.

Lemma readCursor_adds (filePath : string) :
  adds (fun e => ~ cursor_event e) (readCursor env filePath).
Proof.
  apply adds_try; [|intros e; apply adds_keeps, keeps_throw].
  apply adds_bind; [apply adds_keeps, keeps_pathExists|]. intros [|].
  - apply adds_bind; [apply adds_keeps, keeps_readFile|]. intros cursor.
    apply adds_bind; [apply adds_emit; simpl; tauto|]. intros _.
    apply adds_keeps, keeps_ret.
  - apply adds_bind; [apply adds_emit; simpl; tauto|]. intros _.
    apply adds_keeps, keeps_ret.
Qed.

Lemma saveCursor_adds (filePath cursor : string) :
  adds (fun _ => True) (saveCursor env filePath cursor).
Proof.
  apply adds_bind; [apply adds_emit; exact I|]. intros _.
  apply adds_try; [|intros e; apply adds_keeps, keeps_throw].
  apply adds_bind; [apply adds_keeps, keeps_ensureDir|]. intros _.
  apply adds_bind; [apply adds_keeps, keeps_writeFile|]. intros _.
  apply adds_emit. exact I.
Qed.

Lemma callFetchAccounts_spec (first : Z) (after : option string) (w : World) :
  (exists response,
      (callFetchAccounts env first after w).1 = inr response
      /\ World.events (callFetchAccounts env first after w).2
         = (World.events w ++ [PageFetched (Page.nodes response)])%list)
  \/ ((exists e, (callFetchAccounts env first after w).1 = inl e)
      /\ World.events (callFetchAccounts env first after w).2 = World.events w).
Proof.
  unfold callFetchAccounts, bind, tick; simpl.
  destruct (fetchAccounts env _ _ _) as [e|response]; simpl.
  - right. split; [eauto|reflexivity].
  - left. exists response. split; reflexivity.
Qed.

Lemma bindF_liftF {A B : Type} (m : M World A) (k : A -> MF World B) (w : World) :
  bindF (liftF m) k w =
    match m w with
    | (inr a, w') => k a w'
    | (inl e, w') => (Thrown e, w')
    end.
Proof. unfold bindF, liftF. destruct (m w) as [[e|a] w']; reflexivity. Qed.

(** *** Where an event of [saveCursor] can stand in a trace *)

Lemma split_after_clean_prefix (clean rest before after : list Event) (e : Event) :
  Forall (fun x => ~ cursor_event x) clean ->
  cursor_event e ->
  (clean ++ rest)%list = (before ++ e :: after)%list ->
  exists middle, before = (clean ++ middle)%list.
Proof.
  intros Hclean He. revert before.
  induction Hclean as [|x clean Hx _ IH]; intros before Heq.
  - exists before. reflexivity.
  - destruct before as [|y before]; simpl in Heq.
    + injection Heq as -> _. contradiction.
    + injection Heq as <- Heq. destruct (IH before Heq) as [middle ->].
      exists middle. reflexivity.
Qed.

Lemma batch_event_not_cursor_event (accounts : list string) (l : list Event) :
  Forall (batch_event accounts) l -> Forall (fun e => ~ cursor_event e) l.
Proof.
  intros H. eapply Forall_impl; [exact H|]. intros e. destruct e; simpl; tauto.
Qed.

Lemma csap_none (tr : list Event) :
  Forall (fun e => ~ cursor_event e) tr -> cursor_saved_after_page tr.
Proof.
  intros H before e after He ->. exfalso.
  apply Forall_app in H as [_ H]. apply Forall_cons in H as [H _]. contradiction.
Qed.

(** Once the page is fetched and its tasks have settled without any
    event of [saveCursor], whatever follows is in order. *)
Lemma csap_after_batch (head new rest : list Event) (accounts : list string) :
  Forall (fun e => ~ cursor_event e) head ->
  Forall (fun e => ~ cursor_event e) new ->
  all_settled accounts new ->
  cursor_saved_after_page (head ++ PageFetched accounts :: new ++ rest)%list.
Proof.
  intros Hh Hn Hs before e after He Heq.
  destruct (split_after_clean_prefix (head ++ PageFetched accounts :: new)%list rest
              before after e) as [middle ->].
  - apply Forall_app. split; [exact Hh|]. constructor; [simpl; tauto|exact Hn].
  - exact He.
  - rewrite <- Heq, <- app_assoc. reflexivity.
  - exists head, accounts, (new ++ middle)%list.
    split; [rewrite <- app_assoc; reflexivity|].
    intros i a Ha. destruct (Hs i a Ha) as (r & Hin & Hr).
    exists r. split; [apply in_or_app; left; exact Hin|exact Hr].
Qed.

Lemma emit_run (e : Event) (w : World) :
  (emit e w).1 = inr tt /\ World.events (emit e w).2 = (World.events w ++ [e])%list.
Proof. split; reflexivity. Qed.

Lemma keeps_ensureDataDirectory (d : string) : keeps_events (ensureDataDirectory env d).
Proof. apply keeps_try; [apply keeps_ensureDir|intros e; apply keeps_throw]. Qed.

Lemma batch_inv_all_settled (base new : list Event) (accounts : list string)
    (bs : list nat) (results : list ProcessingResult) (w : World) :
  batch_inv base new accounts bs (map Fulfilled results) w ->
  all_settled accounts new.
Proof.
  intros (_ & _ & _ & _ & Hall) i a Ha.
  destruct (Hall i a Ha) as (s & b & Hs & _ & Hok).
  rewrite list_lookup_fmap in Hs.
  destruct (results !! i) as [r|]; [|discriminate]. injection Hs as <-.
  destruct Hok as [Hin Hth]. exists r. split; [exact Hin|].
  destruct (thrown_by i new) as [|m [|]]; [tauto| |destruct Hth].
  subst r. reflexivity.
Qed.

(** What follows the batch in [runIteration] only adds to the trace. *)
Lemma after_batch_adds (pageInfo : PageInfo) (results : list ProcessingResult)
    (w : World) :
  exists rest,
    World.events
      ((let+ _ :=
          liftF (if truthy_str (PageInfo.endCursor pageInfo)
                 then saveCursor env (IndexerConfig.cursorFilePath config)
                        (default "" (PageInfo.endCursor pageInfo))
                 else ret tt) in
        let summary := compileBatchSummary results in
        let result := IterationResult.mk summary (PageInfo.hasNextPage pageInfo)
                        (PageInfo.endCursor pageInfo) in
        let+ _ := liftF (emit (IterationFinished result)) in
        retF result) w).2
    = (World.events w ++ rest)%list.
Proof.
  rewrite bindF_liftF.
  assert (Hsave : adds (fun _ => True)
                    (if truthy_str (PageInfo.endCursor pageInfo)
                     then saveCursor env (IndexerConfig.cursorFilePath config)
                            (default "" (PageInfo.endCursor pageInfo))
                     else ret tt)).
  { destruct (truthy_str _); [apply saveCursor_adds|apply adds_keeps, keeps_ret]. }
  destruct (Hsave w) as (l & El & _).
  destruct ((if truthy_str (PageInfo.endCursor pageInfo)
             then saveCursor env (IndexerConfig.cursorFilePath config)
                    (default "" (PageInfo.endCursor pageInfo))
             else ret tt) w) as [[e|[]] w1]; simpl in El.
  - exists l. exact El.
  - cbv zeta. rewrite bindF_liftF.
    match goal with
    | |- context [emit ?ev w1] =>
        destruct (emit_run ev w1) as [R E];
        destruct (emit ev w1) as [[e|[]] w2]; simpl in R, E; [discriminate|];
        exists (l ++ [ev])%list
    end.
    unfold retF. simpl. rewrite E, El, <- app_assoc. reflexivity.
Qed.

(** The trace of one iteration. *)
Lemma runIteration_trace (w : World) :
  exists tr,
    World.events (runIteration env config w).2 = (World.events w ++ tr)%list
    /\ cursor_saved_after_page tr.
Proof.
  unfold runIteration.
  (* 'Starting indexer iteration' *)
  rewrite bindF_liftF.
  destruct (emit_run IterationStarted w) as [R0 E0].
  destruct (emit IterationStarted w) as [[e|[]] w0]; simpl in R0, E0; [discriminate|].
  (* ensureDataDirectory *)
  rewrite bindF_liftF.
  pose proof (keeps_ensureDataDirectory (IndexerConfig.dataDirectory config) w0) as E1.
  destruct (ensureDataDirectory env (IndexerConfig.dataDirectory config) w0)
    as [[e|[]] w1]; simpl in E1.
  { exists [IterationStarted]. simpl. split; [congruence|].
    apply csap_none. repeat constructor. simpl. tauto. }
  (* readCursor *)
  rewrite bindF_liftF.
  destruct (readCursor_adds (IndexerConfig.cursorFilePath config) w1)
    as (l2 & E2 & H2).
  assert (Hhead : Forall (fun e => ~ cursor_event e) (IterationStarted :: l2))
    by (constructor; [simpl; tauto|exact H2]).
  destruct (readCursor env (IndexerConfig.cursorFilePath config) w1)
    as [[e|cursor] w2]; simpl in E2.
  { exists (IterationStarted :: l2). simpl.
    split; [rewrite E2, E1, E0, <- app_assoc; reflexivity|].
    apply csap_none. exact Hhead. }
  (* fetchAccounts *)
  rewrite bindF_liftF.
  destruct (callFetchAccounts_spec (IndexerConfig.accountsPerPage config) cursor w2)
    as [(response & R3 & E3)|((e & R3) & E3)];
    destruct (callFetchAccounts env (IndexerConfig.accountsPerPage config) cursor w2)
      as [answer w3]; simpl in R3, E3; subst answer.
  2:{ exists (IterationStarted :: l2). simpl.
      split; [rewrite E3, E2, E1, E0, <- app_assoc; reflexivity|].
      apply csap_none. exact Hhead. }
  set (accounts := Page.nodes response) in *.
  assert (E3' : World.events w3
                = (World.events w ++ (IterationStarted :: l2)
                     ++ [PageFetched accounts])%list).
  { rewrite E3, E2, E1, E0. repeat rewrite <- app_assoc. reflexivity. }
  destruct (length accounts =? 0)%nat.
  { exists ((IterationStarted :: l2) ++ [PageFetched accounts])%list.
    split; [exact E3'|]. apply csap_none. apply Forall_app. split; [exact Hhead|].
    repeat constructor. simpl. tauto. }
  (* processAccountsBatch *)
  unfold bindF at 1.
  destruct (processAccountsBatch_partial env config accounts w3)
    as (new & bs & slots' & Hinv & Hout).
  destruct (processAccountsBatch env config accounts w3) as [outcome w4].
  simpl in Hinv, Hout.
  destruct Hout as [->|(results & -> & ->)].
  { destruct Hinv as (E4 & Hbatch & _).
    apply batch_event_not_cursor_event in Hbatch.
    exists ((IterationStarted :: l2) ++ PageFetched accounts :: new)%list.
    split.
    - simpl. rewrite E4, E3'.
      repeat rewrite <- app_assoc. simpl. repeat rewrite <- app_assoc. reflexivity.
    - apply csap_none. apply Forall_app. split; [exact Hhead|].
      constructor; [simpl; tauto|exact Hbatch]. }
  pose proof (batch_inv_all_settled _ _ _ _ _ _ Hinv) as Hsettled.
  destruct Hinv as (E4 & Hbatch & _).
  apply batch_event_not_cursor_event in Hbatch.
  (* saveCursor and the summary *)
  destruct (after_batch_adds (Page.pageInfo response) results w4) as (rest & E5).
  exists ((IterationStarted :: l2) ++ PageFetched accounts :: new ++ rest)%list.
  split.
  - cbv zeta in E5. rewrite E5, E4, E3'.
    repeat rewrite <- app_assoc. simpl. repeat rewrite <- app_assoc. reflexivity.
  - apply csap_after_batch; assumption.
Qed.

End IterationProperties.

(** C1. In every execution of [runIteration] (every environment, every
    scheduling of the tasks, every initial state, every configuration),
    [saveCursor] is entered, and the cursor saved, only after the page
    has been fetched and every identifier of that page has settled: in
    the trace the iteration adds, each [SaveCursorCalled] and each
    [CursorSaved] comes after the [PageFetched] of the page and after a
    [TaskSettled] for each of its identifiers. *)
Theorem cursor_saved_after_all_settled
    {platform : Platform.t} (env : Env) (config : IndexerConfig) (w : World) :
  exists added,
    World.events (runIteration env config w).2 = (World.events w ++ added)%list
    /\ forall before e after,
         cursor_event e ->
         added = (before ++ e :: after)%list ->
         exists head accounts settled,
           before = (head ++ PageFetched accounts :: settled)%list
           /\ forall i a, accounts !! i = Some a ->
                exists r, In (TaskSettled i r) settled
                          /\ ProcessingResult.address r = a.
Proof. exact (runIteration_trace env config w). Qed.

Section CompleteRun.

Context {platform : Platform.t}.
Variable env : Env.
Variable config : IndexerConfig.

Lemma writeFile_steps_complete (path content : string) (fs : FS.t) :
  run_steps (writeFile_steps path content) fs
  = FS.mk (<[path := content]> (FS.files fs)) (FS.dirs fs).
Proof.
  pose proof (writeFile_crash path content fs (String.length content)) as H.
  unfold crash_after in H. rewrite take_ge in H.
  - rewrite H, substring_0_all by lia. reflexivity.
  - unfold writeFile_steps. simpl.
    rewrite length_map, length_list_ascii_of_string. lia.
Qed.

Lemma emit_fs (e : Event) (w : World) :
  exists w', emit e w = (inr tt, w') /\ World.fs w' = World.fs w.
Proof. eexists. split; reflexivity. Qed.

Lemma ensureDataDirectory_success (d : string) (w : World) :
  (forall t dir, ensureDir_error env t dir = None) ->
  exists w',
    ensureDataDirectory env d w = (inr tt, w')
    /\ World.fs w' = apply_step (World.fs w) (MkdirP d).
Proof.
  intros Hdir.
  cbv [ensureDataDirectory try_catch bind modify ensureDir tick set_fs ret throw].
  cbn [fst snd World.clock World.fs World.events World.filter].
  rewrite Hdir. eexists. split; reflexivity.
Qed.

(** On a healthy disk [saveCursor] returns and leaves the cursor in its
    file. *)
Lemma saveCursor_success (filePath cursor : string) (w : World) :
  (forall t dir, ensureDir_error env t dir = None) ->
  (forall t path, writeFile_error env t path = None) ->
  exists w',
    saveCursor env filePath cursor w = (inr tt, w')
    /\ FS.files (World.fs w') !! filePath = Some cursor.
Proof.
  intros Hdir Hwrite.
  cbv [saveCursor try_catch bind emit modify ensureDir writeFile tick set_fs ret throw].
  cbn [fst snd World.clock World.fs World.events World.filter].
  rewrite Hdir. cbn [fst snd World.clock World.fs World.events World.filter].
  rewrite Hwrite. cbn [fst snd World.clock World.fs World.events World.filter].
  eexists. split; [reflexivity|].
  cbn [World.fs]. rewrite writeFile_steps_complete. apply lookup_insert_eq.
Qed.

(** [readCursor] returns the trimmed content of a cursor file that is
    there and readable, and leaves the file system as it is. *)
Lemma readCursor_present (filePath content : string) (w : World) :
  (forall t path, readFile_error env t path = None) ->
  FS.files (World.fs w) !! filePath = Some content ->
  exists w',
    readCursor env filePath w
    = (inr (if String.eqb (js_trim content) "" then None else Some (js_trim content)),
       w')
    /\ World.fs w' = World.fs w.
Proof.
  intros Hread Hfile.
  cbv [readCursor try_catch bind pathExists readFile tick get_fs ret emit modify throw
         FS.pathExists].
  cbn [fst snd World.clock World.fs World.events World.filter].
  rewrite Hfile. rewrite bool_decide_eq_true_2 by eauto.
  cbn [orb fst snd World.clock World.fs World.events World.filter].
  rewrite Hread, Hfile. eexists. split; reflexivity.
Qed.

(** With no cursor file it returns null. *)
Lemma readCursor_absent (filePath : string) (w : World) :
  FS.files (World.fs w) !! filePath = None ->
  filePath ∉ FS.dirs (World.fs w) ->
  exists w', readCursor env filePath w = (inr None, w') /\ World.fs w' = World.fs w.
Proof.
  intros Hfile Hdir.
  cbv [readCursor try_catch bind pathExists readFile tick get_fs ret emit modify throw
         FS.pathExists].
  cbn [fst snd World.clock World.fs World.events World.filter].
  rewrite Hfile. rewrite bool_decide_eq_false_2 by (intros [x Hx]; discriminate).
  rewrite bool_decide_eq_false_2 by exact Hdir.
  eexists. split; reflexivity.
Qed.

Lemma readCursor_readable (filePath : string) (w : World) :
  (forall t path, readFile_error env t path = None) ->
  cursor_readable filePath (World.fs w) ->
  exists cursor w',
    readCursor env filePath w = (inr cursor, w') /\ World.fs w' = World.fs w.
Proof.
  intros Hread [[content Hfile]|[Hfile Hdir]].
  - destruct (readCursor_present filePath content w Hread Hfile) as (w' & E & F).
    eauto.
  - destruct (readCursor_absent filePath w Hfile Hdir) as (w' & E & F). eauto.
Qed.

Lemma callFetchAccounts_at_last_page (cursor : string) (first : Z)
    (after : option string) (w : World) :
  at_last_page env cursor ->
  exists nodes w',
    nodes <> []
    /\ callFetchAccounts env first after w
       = (inr (Page.mk nodes (PageInfo.mk false (Some cursor))), w').
Proof.
  intros Hsource.
  cbv [callFetchAccounts bind tick emit modify ret throw].
  cbn [fst snd World.clock World.fs World.events World.filter].
  destruct (Hsource (World.clock w) first (if truthy_str after then after else None))
    as (nodes & Hnodes & ->).
  eexists _, _. split; [exact Hnodes|reflexivity].
Qed.

(** *** An iteration over the last page *)

(** It returns [hasNextPage = false] and leaves the end cursor in the
    cursor file. *)
Lemma runIteration_at_last_page (cursor : string) (w : World) :
  1 <= IndexerConfig.maxConcurrentRequests config ->
  healthy_disk env ->
  at_last_page env cursor ->
  cursor <> "" ->
  IndexerConfig.cursorFilePath config <> IndexerConfig.dataDirectory config ->
  cursor_readable (IndexerConfig.cursorFilePath config) (World.fs w) ->
  exists result w',
    runIteration env config w = (Returned result, w')
    /\ IterationResult.hasNextPage result = false
    /\ IterationResult.endCursor result = Some cursor
    /\ FS.files (World.fs w') !! IndexerConfig.cursorFilePath config = Some cursor.
Proof.
  intros Hlimit (Hdir & Hwrite & Hread) Hsource Hcursor Hpaths Hreadable.
  unfold runIteration.
  rewrite bindF_liftF.
  destruct (emit_fs IterationStarted w) as (w0 & -> & F0). cbv beta iota.
  rewrite bindF_liftF.
  destruct (ensureDataDirectory_success (IndexerConfig.dataDirectory config) w0 Hdir)
    as (w1 & -> & F1). cbv beta iota.
  assert (R1 : cursor_readable (IndexerConfig.cursorFilePath config) (World.fs w1)).
  { rewrite F1, F0. destruct Hreadable as [Hfile|[Hfile Hnodir]].
    - left. exact Hfile.
    - right. split; [exact Hfile|]. simpl. intros Hin.
      apply elem_of_union in Hin as [Hin|Hin]; [|exact (Hnodir Hin)].
      apply elem_of_singleton in Hin. exact (Hpaths Hin). }
  rewrite bindF_liftF.
  destruct (readCursor_readable (IndexerConfig.cursorFilePath config) w1 Hread R1)
    as (after & w2 & -> & F2). cbv beta iota.
  rewrite bindF_liftF.
  destruct (callFetchAccounts_at_last_page cursor
              (IndexerConfig.accountsPerPage config) after w2 Hsource)
    as (nodes & w3 & Hnodes & ->). cbv beta iota zeta.
  cbn [Page.nodes Page.pageInfo PageInfo.endCursor PageInfo.hasNextPage].
  destruct nodes as [|a nodes]; [congruence|].
  cbn [length Nat.eqb].
  unfold bindF at 1.
  destruct (processAccountsBatch_ok env config (a :: nodes) w3 Hlimit)
    as (results & w4 & new & bs & -> & _). cbv beta iota.
  rewrite bindF_liftF.
  cbn [truthy_str default].
  rewrite (proj2 (String.eqb_neq _ _) Hcursor). cbn [negb].
  change (id cursor) with cursor.
  destruct (saveCursor_success (IndexerConfig.cursorFilePath config) cursor w4
              Hdir Hwrite) as (w5 & -> & F5). cbv beta iota.
  rewrite bindF_liftF.
  match goal with
  | |- context [emit ?e w5] => destruct (emit_fs e w5) as (w6 & -> & F6)
  end.
  cbv beta iota. unfold retF.
  eexists _, _. split; [reflexivity|]. split; [reflexivity|]. split; [reflexivity|].
  rewrite F6. exact F5.
Qed.

(** *** The loop against a source at its last page *)

(** Every read-back finds the cursor the iteration has just saved, so
    the loop goes on whatever [hasNextPage] the iteration returned. *)
Lemma runComplete_loop_at_last_page (cursor : string) :
  1 <= IndexerConfig.maxConcurrentRequests config ->
  healthy_disk env ->
  at_last_page env cursor ->
  js_trim cursor <> "" ->
  IndexerConfig.cursorFilePath config <> IndexerConfig.dataDirectory config ->
  forall (fuel : nat) (totals : Totals) (w : World),
    cursor_readable (IndexerConfig.cursorFilePath config) (World.fs w) ->
    (runComplete_loop env config fuel totals w).1 = Unfinished.
Proof.
  intros Hlimit Hdisk Hsource Htrim Hpaths.
  assert (Hcursor : cursor <> "") by (intros ->; apply Htrim; reflexivity).
  induction fuel as [|fuel IH]; intros totals w Hreadable; [reflexivity|].
  cbn [runComplete_loop]. unfold bindF at 1.
  destruct (runIteration_at_last_page cursor w Hlimit Hdisk Hsource Hcursor Hpaths
              Hreadable) as (result & w1 & -> & _ & _ & F1).
  cbv beta iota zeta. rewrite bindF_liftF.
  destruct Hdisk as (_ & _ & Hread).
  destruct (readCursor_present (IndexerConfig.cursorFilePath config) cursor w1
              Hread F1) as (w2 & -> & F2).
  cbv beta iota.
  rewrite (proj2 (String.eqb_neq _ _) Htrim). cbn [truthy_str].
  rewrite (proj2 (String.eqb_neq _ _) Htrim). cbn [negb].
  apply IH. left. rewrite F2, F1. eauto.
Qed.

End CompleteRun.

(** C7 on a page of four identifiers where the detail fetch of one and
    the store of another fail. *)
Lemma batch_survives_task_failures_witness :
  1 <= IndexerConfig.maxConcurrentRequests exampleConfig
  /\ exists results w' new,
       processAccountsBatch (platform := examplePlatform) failingEnv exampleConfig
         [address1; address2; address3; address4] World.initial
       = (Returned results, w')
       /\ World.events w' = (World.events World.initial ++ new)%list
       /\ length results = 4%nat
       /\ forall i a, [address1; address2; address3; address4] !! i = Some a ->
            exists r,
              results !! i = Some r
              /\ In (TaskSettled i r) new
              /\ ProcessingResult.address r = a
              /\ (forall m, In (OperationThrew i a m) new -> r = failedResult a m)
              /\ (ProcessingResult.success r = false ->
                  exists m, r = failedResult a m /\ In (OperationThrew i a m) new).
Proof.
  split; [vm_compute; discriminate|].
  apply (batch_survives_task_failures (platform := examplePlatform) failingEnv
           exampleConfig [address1; address2; address3; address4] World.initial).
  vm_compute. discriminate.
Defined.

(** The iteration over that page does save the cursor, after the four
    tasks have settled. *)
Lemma runIteration_saves_cursor_example :
  let events :=
    World.events
      (runIteration (platform := examplePlatform) failingEnv exampleConfig
         World.initial).2 in
  exists r0 r1 r2 r3 m1 m3 result,
    events =
      [IterationStarted; CursorRead None;
       PageFetched [address1; address2; address3; address4];
       OperationThrew 1 address2 m1; TaskSettled 1 r1; TaskSettled 2 r2;
       TaskSettled 0 r0; OperationThrew 3 address4 m3; TaskSettled 3 r3;
       SaveCursorCalled "c1"; CursorSaved "c1"; IterationFinished result].
Proof. vm_compute. repeat eexists. Qed.

(** C6. [runComplete] does not look at [hasNextPage].  Against a source
    at its last page, the first iteration returns [hasNextPage = false]
    and saves the end cursor; the read-back of the cursor file is then
    not null, and a second iteration is started.  So it goes on: with
    any number of iterations allowed, the run has not returned.  The
    loop stops only on a null read-back, as it does against an empty
    source whose cursor file was never written. *)
Theorem runComplete_ignores_hasNextPage :
  let run := runComplete (platform := examplePlatform) lastPageEnv exampleConfig 2
               World.initial in
  let stopped := runComplete (platform := examplePlatform) emptySourceEnv exampleConfig 2
                   World.initial in
  (exists first rest,
      iteration_markers (World.events run.2)
      = IterationStarted :: IterationFinished first :: IterationStarted :: rest
      /\ IterationResult.hasNextPage first = false
      /\ IterationResult.endCursor first = Some "c1")
  /\ (forall fuel : nat,
        (runComplete (platform := examplePlatform) lastPageEnv exampleConfig fuel
           World.initial).1 = Unfinished)
  /\ stopped.1 = Returned (mkTotals 0 0 0 0)
  /\ iteration_markers (World.events stopped.2) = [IterationStarted].
Proof.
  split.
  { eexists _, _. split; [vm_compute; reflexivity|]. split; reflexivity. }
  split.
  { intros fuel. unfold runComplete.
    apply (runComplete_loop_at_last_page (platform := examplePlatform) lastPageEnv
             exampleConfig "c1").
    - vm_compute. discriminate.
    - split; [|split]; reflexivity.
    - intros t first after. exists [address1]. split; [discriminate|reflexivity].
    - vm_compute. discriminate.
    - vm_compute. discriminate.
    - right. split; [apply lookup_empty|apply not_elem_of_empty]. }
  split; vm_compute; reflexivity.
Qed.

(** * Further properties of the code *)

(** ** The retry loops *)

Section RetryLoopProperties.

Variable Failure Response : Type.
Variable request : Z -> Failure + Response.
Variable handleError : Failure -> Z -> Handled.
Variable maxRetries : Z.

Abbreviation loop := (attempts_loop Failure Response request handleError maxRetries).

Lemma attempts_from_S (first : Z) (count : nat) :
  attempts_from first (S count) = first :: attempts_from (first + 1) count.
Proof.
  unfold attempts_from. cbn [seq map]. f_equal; [lia|].
  rewrite <- seq_shift, map_map. apply map_ext. intros i. lia.
Qed.

(** The requests of a run are numbered consecutively, there is one
    pause between two requests and none after the last. *)
Lemma attempts_loop_shape (remaining : nat) :
  forall attempt lastError,
    Z.of_nat remaining = maxRetries + 2 - attempt ->
    exists k,
      (k <= remaining)%nat
      /\ requests_of (loop remaining attempt lastError).2 = attempts_from attempt k
      /\ length (sleeps_of (loop remaining attempt lastError).2) = pred k
      /\ (remaining <> 0%nat -> k <> 0%nat)
      /\ (forall d, last (loop remaining attempt lastError).2 <> Some (Slept d)).
Proof.
  induction remaining as [|remaining IH]; intros attempt lastError Hbound.
  - exists 0%nat. cbn. split; [lia|]. split; [reflexivity|]. split; [reflexivity|].
    split; [congruence|]. intros d. discriminate.
  - cbn [attempts_loop]. destruct (request attempt) as [error|response].
    + destruct ((attempt =? maxRetries + 1)
                || negb (Handled.shouldRetry (handleError error attempt))) eqn:Hstop.
      * exists 1%nat. cbn. split; [lia|]. split; [f_equal; lia|].
        split; [reflexivity|]. split; [lia|]. intros d. discriminate.
      * apply orb_false_iff in Hstop as [Hnot_last _].
        apply Z.eqb_neq in Hnot_last.
        destruct (IH (attempt + 1)
                    (Some (Handled.error (handleError error attempt))))
          as (k & Hk & Hreq & Hsleep & Hpos & Hlast); [lia|].
        destruct (loop remaining (attempt + 1) _) as [result events].
        cbn [fst snd] in *. exists (S k). cbn [requests_of sleeps_of length].
        split; [lia|]. split; [rewrite Hreq, attempts_from_S; reflexivity|].
        assert (k <> 0%nat) by (apply Hpos; lia).
        split; [rewrite Hsleep; lia|]. split; [lia|].
        intros d. destruct events as [|event events].
        { destruct k; [lia|]. rewrite attempts_from_S in Hreq. discriminate. }
        cbn. exact (Hlast d).
    + exists 1%nat. cbn. split; [lia|]. split; [f_equal; lia|].
      split; [reflexivity|]. split; [lia|]. intros d. discriminate.
Qed.

(** The loop ends at the first attempt that is not retried. *)
Lemma attempts_loop_stops_at (n : nat) :
  forall remaining attempt lastError,
    Z.of_nat remaining = maxRetries + 2 - attempt ->
    (n < remaining)%nat ->
    (forall j, (j < n)%nat ->
       retried_at Failure Response request handleError maxRetries
         (attempt + Z.of_nat j)) ->
    ~ retried_at Failure Response request handleError maxRetries
        (attempt + Z.of_nat n) ->
    (loop remaining attempt lastError).1
    = outcome_at Failure Response request handleError (attempt + Z.of_nat n)
    /\ requests_of (loop remaining attempt lastError).2 = attempts_from attempt (S n)
    /\ sleeps_of (loop remaining attempt lastError).2
       = map (pause_after Failure Response request handleError)
           (attempts_from attempt n).
Proof.
  induction n as [|n IH]; intros remaining attempt lastError Hbound Hn Hretried Hstop.
  - destruct remaining as [|remaining]; [lia|].
    replace (attempt + Z.of_nat 0) with attempt in * by lia.
    unfold outcome_at. cbn [attempts_loop].
    destruct (request attempt) as [error|response] eqn:Hrequest.
    + destruct ((attempt =? maxRetries + 1)
                || negb (Handled.shouldRetry (handleError error attempt))) eqn:Hlast.
      * cbn. split; [reflexivity|]. split; [f_equal; lia|reflexivity].
      * exfalso. apply Hstop. apply orb_false_iff in Hlast as [Hne Hretry].
        apply Z.eqb_neq in Hne. apply negb_false_iff in Hretry.
        split; [exact Hne|]. exists error. split; [exact Hrequest|exact Hretry].
    + cbn. split; [reflexivity|]. split; [f_equal; lia|reflexivity].
  - destruct remaining as [|remaining]; [lia|].
    destruct (Hretried 0%nat ltac:(lia)) as (Hne & error & Hrequest & Hretry).
    replace (attempt + Z.of_nat 0) with attempt in * by lia.
    cbn [attempts_loop]. rewrite Hrequest.
    apply Z.eqb_neq in Hne. rewrite Hne, Hretry. cbn [orb negb].
    destruct (IH remaining (attempt + 1)
                (Some (Handled.error (handleError error attempt))))
      as (Hout & Hreq & Hsleep).
    + apply Z.eqb_neq in Hne. lia.
    + lia.
    + intros j Hj. replace (attempt + 1 + Z.of_nat j) with (attempt + Z.of_nat (S j))
        by lia. apply Hretried. lia.
    + replace (attempt + 1 + Z.of_nat n) with (attempt + Z.of_nat (S n)) by lia.
      exact Hstop.
    + destruct (loop remaining (attempt + 1) _) as [result events].
      cbn [fst snd] in *. cbn [requests_of sleeps_of].
      split; [rewrite Hout; f_equal; lia|].
      split; [rewrite Hreq, <- attempts_from_S; reflexivity|].
      rewrite Hsleep, (attempts_from_S attempt n). cbn [map]. f_equal.
      unfold pause_after. rewrite Hrequest. reflexivity.
Qed.

(** [null] is thrown only by a loop whose body never ran. *)
Lemma attempts_loop_null (remaining : nat) :
  forall attempt lastError,
    (loop remaining attempt lastError).1 = inl None ->
    remaining = 0%nat /\ lastError = None.
Proof.
  induction remaining as [|remaining IH]; intros attempt lastError.
  - cbn. intros H. split; [reflexivity|congruence].
  - cbn [attempts_loop]. destruct (request attempt) as [error|response];
      [|discriminate].
    destruct ((attempt =? maxRetries + 1) || _); [discriminate|].
    specialize (IH (attempt + 1) (Some (Handled.error (handleError error attempt)))).
    destruct (loop remaining (attempt + 1) _) as [result events].
    cbn [fst] in *. intros H. destruct (IH H) as [_ Hnone]. discriminate.
Qed.

Lemma with_retries_stops_at (k : nat) :
  1 <= Z.of_nat k <= maxRetries + 1 ->
  (forall j, 1 <= j < Z.of_nat k ->
     retried_at Failure Response request handleError maxRetries j) ->
  ~ retried_at Failure Response request handleError maxRetries (Z.of_nat k) ->
  let run := with_retries Failure Response request handleError maxRetries in
  run.1 = outcome_at Failure Response request handleError (Z.of_nat k)
  /\ requests_of run.2 = attempts_from 1 k
  /\ sleeps_of run.2
     = map (pause_after Failure Response request handleError)
         (attempts_from 1 (pred k)).
Proof.
  intros Hk Hretried Hfinal run. subst run. unfold with_retries.
  destruct k as [|n]; [lia|]. cbn [pred].
  replace (Z.of_nat (S n)) with (1 + Z.of_nat n) in * by lia.
  apply attempts_loop_stops_at.
  - lia.
  - lia.
  - intros j Hj. apply Hretried. lia.
  - exact Hfinal.
Qed.

End RetryLoopProperties.

(** X1. Whatever the answers to its requests, a loop of
    [inspectContract] / [fetchAccounts] sends at most [maxRetries + 1]
    requests, numbered 1, 2, ... without a gap; it pauses exactly once
    between two consecutive requests and never after the last one.  It
    throws [null] only when it has sent no request at all, which is
    what happens with a negative [maxRetries]. *)
Theorem with_retries_bounded
    (Failure Response : Type) (request : Z -> Failure + Response)
    (handleError : Failure -> Z -> Handled) (maxRetries : Z) :
  let run := with_retries Failure Response request handleError maxRetries in
  (exists k,
      (k <= Z.to_nat (maxRetries + 1))%nat
      /\ requests_of run.2 = attempts_from 1 k
      /\ length (sleeps_of run.2) = pred k
      /\ (forall d, last run.2 <> Some (Slept d))
      /\ (run.1 = inl None -> k = 0%nat))
  /\ (maxRetries < 0 -> run = (inl None, [])).
Proof.
  intros run. subst run. unfold with_retries. split.
  - destruct (Z.to_nat (maxRetries + 1)) as [|remaining] eqn:Hremaining.
    + exists 0%nat. cbn. split; [lia|]. split; [reflexivity|]. split; [reflexivity|].
      split; [intros d; discriminate|reflexivity].
    + destruct (attempts_loop_shape Failure Response request handleError maxRetries
                  (S remaining) 1 None ltac:(lia))
        as (k & Hk & Hreq & Hsleep & _ & Hlast).
      exists k. split; [exact Hk|]. split; [exact Hreq|]. split; [exact Hsleep|].
      split; [exact Hlast|].
      intros Hnull. apply attempts_loop_null in Hnull as [Hzero _]. discriminate.
  - intros Hnegative. replace (Z.to_nat (maxRetries + 1)) with 0%nat by lia.
    reflexivity.
Qed.

(** X2. The loop ends at the first attempt that is not
    retried, that is the first one that succeeds, or fails with an error
    [handleError] does not want retried, or is attempt [maxRetries + 1].
    It returns the response of that attempt, or throws the error
    [handleError] built for it; it has sent the requests 1 to [k], and
    paused after each of the first [k - 1] for the delay [handleError]
    gave for it. *)
Theorem with_retries_stops_at_first_final_attempt
    (Failure Response : Type) (request : Z -> Failure + Response)
    (handleError : Failure -> Z -> Handled) (maxRetries : Z) (k : nat)
    (Hk : 1 <= Z.of_nat k <= maxRetries + 1)
    (Hretried : forall j, 1 <= j < Z.of_nat k ->
                  retried_at Failure Response request handleError maxRetries j)
    (Hfinal : ~ retried_at Failure Response request handleError maxRetries
                  (Z.of_nat k)) :
  let run := with_retries Failure Response request handleError maxRetries in
  run.1 = outcome_at Failure Response request handleError (Z.of_nat k)
  /\ requests_of run.2 = attempts_from 1 k
  /\ sleeps_of run.2
     = map (pause_after Failure Response request handleError)
         (attempts_from 1 (pred k)).
Proof.
  exact (with_retries_stops_at Failure Response request handleError maxRetries k
           Hk Hretried Hfinal).
Qed.

(** One failed request with status 503, then a response. *)
Lemma with_retries_stops_at_first_final_attempt_witness :
  let handle := fun error attempt =>
                  RestClient.handleError exampleConfig error "0:ab" attempt in
  let run := with_retries RestClient.Thrown string (busy_then_ok 503) handle 3 in
  (1 <= Z.of_nat 2 <= 3 + 1)
  /\ run.1 = inr "{}"
  /\ requests_of run.2 = [1; 2]
  /\ sleeps_of run.2 = [1000].
Proof.
  intros handle run. split; [lia|].
  apply (with_retries_stops_at_first_final_attempt RestClient.Thrown string
           (busy_then_ok 503) handle 3 2).
  - lia.
  - intros j Hj. assert (j = 1) as -> by lia. split; [lia|].
    eexists. split; reflexivity.
  - intros (_ & error & Hrequest & _). discriminate Hrequest.
Defined.

Section ClientRetries.

Variable config : IndexerConfig.

Lemma sum_attempts_from (count : nat) :
  2 * foldr Z.add 0 (attempts_from 1 count) = Z.of_nat count * (Z.of_nat count + 1).
Proof.
  induction count as [|count IH]; [reflexivity|].
  unfold attempts_from in *. rewrite seq_S, map_app, foldr_app. cbn [map foldr].
  assert (Hshift : forall (l : list Z) (a : Z), foldr Z.add a l = foldr Z.add 0 l + a).
  { clear. induction l as [|x l IHl]; intros a; cbn [foldr]; [lia|].
    rewrite IHl. lia. }
  rewrite Hshift. lia.
Qed.

Lemma foldr_add_scaled (base : Z) (l : list Z) :
  foldr Z.add 0 (map (fun j => base * j) l) = base * foldr Z.add 0 l.
Proof. induction l as [|x l IH]; cbn [map foldr]; lia. Qed.

(** A response with a status other than 429 is retried, whatever the
    status, unless the attempt is the last. *)
Lemma rest_status_retried {Data : Type} (request : Z -> RestClient.Thrown + Data)
    (rawAddress : string) (attempt : Z) (r : RestClient.Response) (q : bool)
    (m : string) :
  request attempt = inl (RestClient.AxiosError (Some r) q m) ->
  attempt <> IndexerConfig.maxRetries config + 1 ->
  retried_at RestClient.Thrown Data request
    (fun error attempt => RestClient.handleError config error rawAddress attempt)
    (IndexerConfig.maxRetries config) attempt.
Proof.
  intros Hrequest Hne. split; [exact Hne|].
  eexists. split; [exact Hrequest|].
  cbn. destruct (RestClient.status r =? 429); reflexivity.
Qed.

End ClientRetries.

(** X3. [inspectContract] retries every error response,
    client errors such as 404 included.  When each of its requests is
    answered with a status other than 429, it sends all [maxRetries + 1]
    requests, pauses [retryDelayMs * attempt] after each attempt but the
    last (in total [retryDelayMs * maxRetries * (maxRetries + 1) / 2]),
    and throws the API error of the last response. *)
Theorem inspectContract_retries_every_status
    (Data : Type) (config : IndexerConfig)
    (request : Z -> RestClient.Thrown + Data) (rawAddress : string)
    (Hretries : 0 <= IndexerConfig.maxRetries config)
    (Hstatus : forall j, 1 <= j <= IndexerConfig.maxRetries config + 1 ->
                 exists r q m,
                   request j = inl (RestClient.AxiosError (Some r) q m)
                   /\ RestClient.status r <> 429) :
  let maxRetries := IndexerConfig.maxRetries config in
  let run := RestClient_inspectContract config request rawAddress in
  (exists r q m,
      request (maxRetries + 1) = inl (RestClient.AxiosError (Some r) q m)
      /\ run.1 = inl (Some ("API error (" ++ pretty (RestClient.status r) ++ "): "
                              ++ RestClient.errorMessage r)))
  /\ requests_of run.2 = attempts_from 1 (Z.to_nat (maxRetries + 1))
  /\ sleeps_of run.2
     = map (fun j => IndexerConfig.retryDelayMs config * j)
         (attempts_from 1 (Z.to_nat maxRetries))
  /\ 2 * foldr Z.add 0 (sleeps_of run.2)
     = IndexerConfig.retryDelayMs config * (maxRetries * (maxRetries + 1)).
Proof.
  intros maxRetries run.
  set (handle := fun error attempt =>
                   RestClient.handleError config error rawAddress attempt).
  assert (Hrun : run.1 = outcome_at RestClient.Thrown Data request handle
                           (Z.of_nat (Z.to_nat (maxRetries + 1)))
                 /\ requests_of run.2 = attempts_from 1 (Z.to_nat (maxRetries + 1))
                 /\ sleeps_of run.2
                    = map (pause_after RestClient.Thrown Data request handle)
                        (attempts_from 1 (pred (Z.to_nat (maxRetries + 1))))).
  { apply (with_retries_stops_at RestClient.Thrown Data request handle maxRetries
             (Z.to_nat (maxRetries + 1))).
    - lia.
    - intros j Hj. destruct (Hstatus j) as (r & q & m & Hreq & _);
        [subst maxRetries; lia|].
      apply (rest_status_retried config request rawAddress _ r q m Hreq).
      subst maxRetries. lia.
    - intros (Hne & _). subst maxRetries. lia. }
  destruct Hrun as (Hout & Hreq & Hsleep).
  replace (Z.of_nat (Z.to_nat (maxRetries + 1))) with (maxRetries + 1) in Hout by lia.
  replace (pred (Z.to_nat (maxRetries + 1))) with (Z.to_nat maxRetries) in Hsleep by lia.
  assert (Hpauses : sleeps_of run.2
                    = map (fun j => IndexerConfig.retryDelayMs config * j)
                        (attempts_from 1 (Z.to_nat maxRetries))).
  { rewrite Hsleep. unfold attempts_from. rewrite !map_map. apply map_ext_in.
    intros i Hi. apply in_seq in Hi.
    destruct (Hstatus (1 + Z.of_nat i)) as (r & q & m & Hr & Hs);
      [subst maxRetries; lia|].
    unfold pause_after. rewrite Hr. subst handle. cbn.
    apply Z.eqb_neq in Hs. rewrite Hs. reflexivity. }
  split.
  - destruct (Hstatus (maxRetries + 1)) as (r & q & m & Hr & Hs);
      [subst maxRetries; lia|].
    exists r, q, m. split; [exact Hr|]. rewrite Hout. unfold outcome_at.
    rewrite Hr. subst handle. cbn. apply Z.eqb_neq in Hs. rewrite Hs. reflexivity.
  - split; [exact Hreq|]. split; [exact Hpauses|].
    rewrite Hpauses, foldr_add_scaled.
    pose proof (sum_attempts_from (Z.to_nat maxRetries)) as Hsum.
    replace (Z.of_nat (Z.to_nat maxRetries)) with maxRetries in Hsum by lia.
    nia.
Qed.

(** With the defaults (three retries, a base delay of one second), an
    address the endpoint answers with 404 costs four requests and six
    seconds of pauses. *)
Lemma inspectContract_retries_every_status_witness :
  0 <= IndexerConfig.maxRetries exampleConfig
  /\ requests_of (RestClient_inspectContract exampleConfig always_404 "0:ab").2
     = [1; 2; 3; 4]
  /\ sleeps_of (RestClient_inspectContract exampleConfig always_404 "0:ab").2
     = [1000; 2000; 3000].
Proof.
  assert (Hretries : 0 <= IndexerConfig.maxRetries exampleConfig) by (cbn; lia).
  split; [exact Hretries|].
  pose proof (inspectContract_retries_every_status string exampleConfig always_404
                "0:ab" Hretries) as H.
  destruct H as (_ & Hreq & Hsleep & _).
  - intros j _. eexists _, _, _. split; [reflexivity|]. cbn. lia.
  - split; [exact Hreq|exact Hsleep].
Defined.

(** X4. A failure that is neither an HTTP error response nor,
    for the REST client, an Axios error with a request, is not retried:
    [fetchAccounts] gives up after one request on a failed [fetch] (a
    network failure), and [inspectContract] on an unknown error, however
    many retries are configured. *)
Theorem non_http_failure_is_not_retried
    (Data : Type) (config : IndexerConfig) (message rawAddress : string)
    (pages : Z -> GraphQLClient.Thrown + Page.t)
    (details : Z -> RestClient.Thrown + Data)
    (Hretries : 0 <= IndexerConfig.maxRetries config)
    (Hpages : pages 1 = inl (GraphQLClient.OtherThrown message))
    (Hdetails : details 1 = inl (RestClient.OtherThrown message)
                \/ details 1 = inl (RestClient.AxiosError None false message)) :
  GraphQLClient_fetchAccounts config pages
  = (inl (Some ("GraphQL request failed: " ++ message)), [Requested 1])
  /\ RestClient_inspectContract config details rawAddress
     = (inl (Some ("Unknown error: " ++ message)), [Requested 1]).
Proof.
  unfold GraphQLClient_fetchAccounts, RestClient_inspectContract, with_retries.
  destruct (Z.to_nat (IndexerConfig.maxRetries config + 1)) as [|remaining] eqn:H;
    [lia|].
  cbn [attempts_loop]. rewrite Hpages. cbn.
  rewrite orb_true_r. split; [reflexivity|].
  destruct Hdetails as [-> | ->]; cbn; rewrite orb_true_r; reflexivity.
Qed.

(** A failed [fetch] and a thrown string, with three retries configured. *)
Lemma non_http_failure_is_not_retried_witness :
  0 <= IndexerConfig.maxRetries exampleConfig
  /\ GraphQLClient_fetchAccounts exampleConfig
       (fun _ => inl (GraphQLClient.OtherThrown "fetch failed"))
     = (inl (Some "GraphQL request failed: fetch failed"), [Requested 1])
  /\ RestClient_inspectContract (Data := string) exampleConfig
       (fun _ => inl (RestClient.OtherThrown "boom")) "0:ab"
     = (inl (Some "Unknown error: boom"), [Requested 1]).
Proof.
  assert (Hretries : 0 <= IndexerConfig.maxRetries exampleConfig) by (cbn; lia).
  split; [exact Hretries|].
  pose proof (non_http_failure_is_not_retried string exampleConfig "fetch failed" "0:ab"
                (fun _ => inl (GraphQLClient.OtherThrown "fetch failed"))
                (fun _ => inl (RestClient.OtherThrown "fetch failed"))
                Hretries eq_refl (or_introl eq_refl)) as [Hpages _].
  pose proof (non_http_failure_is_not_retried string exampleConfig "boom" "0:ab"
                (fun _ => inl (GraphQLClient.OtherThrown "boom"))
                (fun _ => inl (RestClient.OtherThrown "boom"))
                Hretries eq_refl (or_introl eq_refl)) as [_ Hdetails].
  split; [exact Hpages|exact Hdetails].
Defined.


(** ** Configuration loading *)

Section LoadConfig.

Lemma js_range_check (x : option Z) (low high : Z) :
  js_lt x low || js_gt x high = false <-> nan_or_between x low high.
Proof.
  destruct x as [v|]; cbn; [|tauto].
  rewrite orb_false_iff, !Z.ltb_ge. lia.
Qed.

Lemma js_le_lt (x : option Z) (y : Z) : js_le x y = js_lt x (y + 1).
Proof.
  destruct x as [v|]; cbn; [|reflexivity].
  destruct (Z.leb_spec v y), (Z.ltb_spec v (y + 1)); (reflexivity || lia).
Qed.

Lemma loadConfig_unfold (env : ProcessEnv) :
  truthy_str (env !! "TONAPI_KEY") = true ->
  forall c,
    loadConfig env = inr c <->
    nan_or_between (parseInt10 (env_or env "MAX_CONCURRENT_REQUESTS" "4")) 1 10
    /\ nan_or_between (parseInt10 (env_or env "ACCOUNTS_PER_PAGE" "100")) 1 1000
    /\ nan_or_between (parseInt10 (env_or env "MAX_RETRIES" "3")) 0 10
    /\ c = Configuration.mk
             (default "" (env !! "TONAPI_KEY"))
             (env_or env "TONAPI_GRAPHQL_URL" "https://tonapi.io/v2/graphql")
             (env_or env "TONAPI_REST_URL" "https://tonapi.io/v2")
             (env_or env "CURSOR_FILE_PATH" "./cursor.txt")
             (env_or env "DATA_DIRECTORY" "./data")
             (parseInt10 (env_or env "MAX_CONCURRENT_REQUESTS" "4"))
             (parseInt10 (env_or env "REQUEST_DELAY_MS" "100"))
             (parseInt10 (env_or env "ACCOUNTS_PER_PAGE" "100"))
             (parseInt10 (env_or env "MAX_RETRIES" "3"))
             (parseInt10 (env_or env "RETRY_DELAY_MS" "1000"))
             (env_or env "LOG_LEVEL" "info")
             (bool_decide (env !! "LOG_PRETTY" = Some "true")).
Proof.
  intros Hkey c. unfold loadConfig, requiredEnvVars. cbn [find].
  rewrite Hkey. cbn [negb Configuration.maxConcurrentRequests
                       Configuration.accountsPerPage Configuration.maxRetries].
  rewrite !js_le_lt. change (0 + 1) with 1.
  rewrite <- !js_range_check.
  destruct (js_lt _ 1 || js_gt _ 10).
  { split; [discriminate|]. intros (H & _). discriminate. }
  destruct (js_lt _ 1 || js_gt _ 1000).
  { split; [discriminate|]. intros (_ & H & _). discriminate. }
  destruct (js_lt _ 0 || js_gt _ 10).
  { split; [discriminate|]. intros (_ & _ & H & _). discriminate. }
  split.
  - intros H. injection H as <-. repeat split.
  - intros (_ & _ & _ & ->). reflexivity.
Qed.

End LoadConfig.

(** X5. [loadConfig] returns a configuration exactly when
    [TONAPI_KEY] is set to a non-empty string and each of the three
    validated numbers either lies in its range or is not a number at
    all: a value [parseInt] cannot read (such as [four]) passes the
    validation, since every comparison with [NaN] is false. *)
Theorem loadConfig_accepts (env : ProcessEnv) :
  (exists c, loadConfig env = inr c)
  <-> truthy_str (env !! "TONAPI_KEY") = true
      /\ nan_or_between (parseInt10 (env_or env "MAX_CONCURRENT_REQUESTS" "4")) 1 10
      /\ nan_or_between (parseInt10 (env_or env "ACCOUNTS_PER_PAGE" "100")) 1 1000
      /\ nan_or_between (parseInt10 (env_or env "MAX_RETRIES" "3")) 0 10.
Proof.
  destruct (truthy_str (env !! "TONAPI_KEY")) eqn:Hkey.
  - split.
    + intros (c & Hc). apply (loadConfig_unfold env Hkey) in Hc.
      split; [reflexivity|]. tauto.
    + intros (_ & H1 & H2 & H3). eexists. apply (loadConfig_unfold env Hkey).
      split; [exact H1|]. split; [exact H2|]. split; [exact H3|reflexivity].
  - split; [|intros (H & _); discriminate].
    intros (c & Hc). unfold loadConfig, requiredEnvVars in Hc. cbn [find] in Hc.
    rewrite Hkey in Hc. discriminate.
Qed.

(** X6. A configuration [loadConfig] returns, when its
    numbers are numbers, has a non-empty API key, between 1 and 10
    concurrent requests, between 1 and 1000 accounts per page and
    between 0 and 10 retries. *)
Theorem loadConfig_validates_ranges
    (env : ProcessEnv) (c : Configuration) (config : IndexerConfig)
    (Hloaded : loadConfig env = inr c)
    (Hnumbers : Configuration.toIndexerConfig c = Some config) :
  IndexerConfig.tonApiKey config <> ""
  /\ 1 <= IndexerConfig.maxConcurrentRequests config <= 10
  /\ 1 <= IndexerConfig.accountsPerPage config <= 1000
  /\ 0 <= IndexerConfig.maxRetries config <= 10.
Proof.
  destruct (truthy_str (env !! "TONAPI_KEY")) eqn:Hkey.
  - apply (loadConfig_unfold env Hkey) in Hloaded as (H1 & H2 & H3 & ->).
    unfold Configuration.toIndexerConfig in Hnumbers. cbn in Hnumbers.
    destruct (parseInt10 (env_or env "MAX_CONCURRENT_REQUESTS" "4")); [|discriminate].
    destruct (parseInt10 (env_or env "REQUEST_DELAY_MS" "100")); [|discriminate].
    destruct (parseInt10 (env_or env "ACCOUNTS_PER_PAGE" "100")); [|discriminate].
    destruct (parseInt10 (env_or env "MAX_RETRIES" "3")); [|discriminate].
    destruct (parseInt10 (env_or env "RETRY_DELAY_MS" "1000")); [|discriminate].
    injection Hnumbers as <-. cbn in *.
    split; [|tauto].
    destruct (env !! "TONAPI_KEY") as [key|]; [|discriminate]. cbn in *.
    intros ->. discriminate.
  - unfold loadConfig, requiredEnvVars in Hloaded. cbn [find] in Hloaded.
    rewrite Hkey in Hloaded. discriminate.
Qed.

(** The settings of [exampleProcessEnv]: [parseInt] reads 250 from
    [" 250 accounts"], and the unset numbers take their defaults. *)
Lemma loadConfig_validates_ranges_witness :
  let c := Configuration.mk "key" "https://tonapi.io/v2/graphql" "https://tonapi.io/v2"
             "./cursor.txt" "./data" (Some 2) (Some 100) (Some 250) (Some 3)
             (Some 1000) "info" true in
  let config := IndexerConfig.mk "key" "https://tonapi.io/v2/graphql"
                  "https://tonapi.io/v2" "./cursor.txt" "./data" 2 100 250 3 1000
                  "info" true in
  loadConfig exampleProcessEnv = inr c
  /\ Configuration.toIndexerConfig c = Some config
  /\ IndexerConfig.tonApiKey config <> ""
  /\ 1 <= IndexerConfig.maxConcurrentRequests config <= 10
  /\ 1 <= IndexerConfig.accountsPerPage config <= 1000
  /\ 0 <= IndexerConfig.maxRetries config <= 10.
Proof.
  intros c config.
  assert (Hloaded : loadConfig exampleProcessEnv = inr c) by (vm_compute; reflexivity).
  assert (Hnumbers : Configuration.toIndexerConfig c = Some config) by reflexivity.
  split; [exact Hloaded|]. split; [exact Hnumbers|].
  exact (loadConfig_validates_ranges exampleProcessEnv c config Hloaded Hnumbers).
Defined.

(** ** The address filter *)

Section FilterStatistics.

Variable RegExp : Type.
Variable RegExp_new : string -> string + RegExp.
Variable RegExp_test : RegExp -> string -> bool.
Variable patterns : list string.

Lemma skipReasons_sum_insert (reasons : gmap string Z) (reason : string) :
  skipReasons_sum (<[reason := default 0 (reasons !! reason) + 1]> reasons)
  = skipReasons_sum reasons + 1.
Proof.
  unfold skipReasons_sum.
  assert (Hcomm : forall z1 z2 y : Z, z1 + (z2 + y) = z2 + (z1 + y))
    by (intros; lia).
  destruct (reasons !! reason) as [count|] eqn:Hreason; cbn [default from_option id].
  - rewrite <- (insert_delete_eq reasons).
    rewrite map_fold_insert_L; [|intros; apply Hcomm|apply lookup_delete_eq].
    rewrite (map_fold_delete_L _ _ reason count reasons);
      [lia|intros; apply Hcomm|exact Hreason].
  - rewrite map_fold_insert_L; [lia|intros; apply Hcomm|exact Hreason].
Qed.

Lemma skipAddress_counts (reason : string) (st : FilterState) :
  let st' := (skipAddress reason st).2 in
  FilterState.total st' = FilterState.total st
  /\ FilterState.processed st' = FilterState.processed st
  /\ FilterState.skipped st' = FilterState.skipped st + 1
  /\ skipReasons_sum (FilterState.skipReasons st')
     = skipReasons_sum (FilterState.skipReasons st) + 1.
Proof.
  cbn. split; [reflexivity|]. split; [reflexivity|]. split; [reflexivity|].
  apply skipReasons_sum_insert.
Qed.

Lemma customPatternsLoop_counts (a : string) (ps : list string) :
  forall st,
    let st' := (customPatternsLoop RegExp RegExp_new RegExp_test a ps st).2 in
    FilterState.total st' = FilterState.total st
    /\ FilterState.processed st' + FilterState.skipped st'
       = FilterState.processed st + FilterState.skipped st + 1
    /\ skipReasons_sum (FilterState.skipReasons st') - FilterState.skipped st'
       = skipReasons_sum (FilterState.skipReasons st) - FilterState.skipped st.
Proof.
  induction ps as [|p ps IH]; intros st.
  - rewrite (loop_nil RegExp RegExp_new RegExp_test). cbn. lia.
  - rewrite (loop_cons RegExp RegExp_new RegExp_test).
    destruct (RegExp_new p) as [e|regex].
    + apply (IH (warned p st)).
    + destruct (RegExp_test regex a); [|apply IH].
      destruct (skipAddress_counts ("custom_pattern:" ++ p) st) as (H1 & H2 & H3 & H4).
      cbv zeta in *. lia.
Qed.

Lemma shouldProcessAddress_counts (a : string) (st : FilterState) :
  counts_one_more st
    (shouldProcessAddress RegExp RegExp_new RegExp_test patterns a st).2.
Proof.
  rewrite (classify_unfold RegExp RegExp_new RegExp_test). cbv zeta.
  set (st1 := FilterState.mk (FilterState.total st + 1) _ _ _ _).
  unfold counts_one_more.
  destruct (isMasterchainSystemAddress a).
  { destruct (skipAddress_counts "masterchain_system" st1) as (H1 & H2 & H3 & H4).
    cbv zeta in *. subst st1. cbn in *. lia. }
  destruct (isZeroHeavyAddress a).
  { destruct (skipAddress_counts "zero_heavy" st1) as (H1 & H2 & H3 & H4).
    cbv zeta in *. subst st1. cbn in *. lia. }
  destruct (isShortAddress a).
  { destruct (skipAddress_counts "too_short" st1) as (H1 & H2 & H3 & H4).
    cbv zeta in *. subst st1. cbn in *. lia. }
  destruct (customPatternsLoop_counts a patterns st1) as (H1 & H2 & H3).
  cbv zeta in *. subst st1. cbn in *. lia.
Qed.

Lemma classify_all_counts (addresses : list string) :
  forall st,
    let st' := classify_all RegExp RegExp_new RegExp_test patterns addresses st in
    FilterState.total st' = FilterState.total st + Z.of_nat (length addresses)
    /\ FilterState.processed st' + FilterState.skipped st'
       = FilterState.processed st + FilterState.skipped st
         + Z.of_nat (length addresses)
    /\ skipReasons_sum (FilterState.skipReasons st') - FilterState.skipped st'
       = skipReasons_sum (FilterState.skipReasons st) - FilterState.skipped st.
Proof.
  induction addresses as [|a addresses IH]; intros st.
  - cbn. lia.
  - cbn [classify_all fold_left length].
    destruct (shouldProcessAddress_counts a st) as (H1 & H2 & H3).
    specialize (IH (shouldProcessAddress RegExp RegExp_new RegExp_test patterns a st).2).
    unfold classify_all in IH. cbv zeta in *. lia.
Qed.

End FilterStatistics.

(** X7. The statistics of the address filter add up.  From a
    new filter, or from any filter after [resetStats], and after any
    sequence of calls of [shouldProcessAddress] (whatever the custom
    patterns and the expression engine): [total] is the number of calls,
    [processed + skipped = total], and the counters of [skipReasons] sum
    to [skipped]. *)
Theorem filter_statistics_add_up
    (RegExp : Type) (RegExp_new : string -> string + RegExp)
    (RegExp_test : RegExp -> string -> bool)
    (patterns addresses : list string) (used : FilterState) :
  stats_add_up (length addresses)
    (classify_all RegExp RegExp_new RegExp_test patterns addresses FilterState.initial)
  /\ stats_add_up (length addresses)
       (classify_all RegExp RegExp_new RegExp_test patterns addresses
          (resetStats used).2).
Proof.
  assert (Hfrom : forall start,
             FilterState.total start = 0 -> FilterState.processed start = 0 ->
             FilterState.skipped start = 0 ->
             skipReasons_sum (FilterState.skipReasons start) = 0 ->
             stats_add_up (length addresses)
               (classify_all RegExp RegExp_new RegExp_test patterns addresses start)).
  { intros start Z1 Z2 Z3 Z4.
    destruct (classify_all_counts RegExp RegExp_new RegExp_test patterns addresses
                start) as (H1 & H2 & H3).
    unfold stats_add_up. cbv zeta in *. lia. }
  split; apply Hfrom; reflexivity.
Qed.

Section FilterDecisions.

Variable RegExp : Type.
Variable RegExp_new : string -> string + RegExp.
Variable RegExp_test : RegExp -> string -> bool.
Variable patterns : list string.

Local Arguments String.append !_ _ / : simpl nomatch.

Lemma string_drop_length (n : nat) :
  forall s, String.length (string_drop n s) = (String.length s - n)%nat.
Proof.
  induction n as [|n IH]; intros s.
  - cbn. lia.
  - destruct s as [|c s]; [reflexivity|]. cbn. apply IH.
Qed.

Lemma count_char_bounds (c : ascii) (s : string) :
  0 <= count_char c s <= Z.of_nat (String.length s).
Proof.
  induction s as [|c' s IH]; cbn [count_char String.length]; [lia|].
  destruct (Ascii.eqb c c'); lia.
Qed.

(** The comparison of the share of zeros with a threshold [p / q]. *)
Lemma zeroPercentageAbove_false (hash : string) (p : Z) (q : positive) :
  0 <= p ->
  zeroPercentageAbove hash (p # q) = false ->
  count_char "0" hash * Z.pos q <= p * Z.of_nat (String.length hash).
Proof.
  intros Hp. unfold zeroPercentageAbove, Qgtb.
  pose proof (count_char_bounds "0" hash) as Hcount.
  destruct (String.length hash) as [|len] eqn:Hlen.
  - intros _. cbn in Hcount. assert (count_char "0" hash = 0) as -> by lia. lia.
  - rewrite negb_false_iff, Qle_bool_iff.
    change (Z.of_nat (S len)) with (Z.pos (Pos.of_succ_nat len)).
    unfold Qle, Qdiv, Qmult, Qinv, inject_Z. cbn. lia.
Qed.

Lemma split_colon_plain (s : string) :
  count_char ":" s = 0 -> split_colon s = [s].
Proof.
  induction s as [|c s IH]; [reflexivity|].
  cbn [count_char split_colon]. pose proof (count_char_bounds ":" s) as Hb.
  rewrite Ascii.eqb_sym.
  destruct (Ascii.eqb c ":"); intros H; [lia|]. rewrite IH by lia. reflexivity.
Qed.

Lemma split_colon_two (workchain hash : string) :
  count_char ":" workchain = 0 -> count_char ":" hash = 0 ->
  split_colon (workchain ++ ":" ++ hash) = [workchain; hash].
Proof.
  intros Hw Hh. induction workchain as [|c w IH].
  - cbn. rewrite split_colon_plain by exact Hh. reflexivity.
  - cbn [count_char] in Hw. pose proof (count_char_bounds ":" w) as Hb.
    change (String c w ++ ":" ++ hash) with (String c (w ++ ":" ++ hash)).
    cbn [split_colon]. rewrite Ascii.eqb_sym in Hw.
    destruct (Ascii.eqb c ":"); [lia|]. rewrite IH by lia. reflexivity.
Qed.

Lemma isMasterchainSystemAddress_false (a : string) :
  isMasterchainSystemAddress a = false ->
  String.prefix "-2:" a = false
  /\ (String.prefix "-1:" a = true ->
      String.length a = 67%nat
      /\ 100 * count_char "0" (string_drop 3 a) <= 55 * 64).
Proof.
  unfold isMasterchainSystemAddress.
  destruct (String.prefix "-2:" a); [discriminate|].
  intros H. split; [reflexivity|]. intros Hprefix. rewrite Hprefix in H.
  cbn [negb] in H.
  destruct (String.length (string_drop 3 a) =? 64)%nat eqn:Hlen; [|discriminate].
  cbn [negb] in H. apply Nat.eqb_eq in Hlen.
  destruct (zeroPercentageAbove (string_drop 3 a) (55 # 100)) eqn:Hzeros;
    [discriminate|].
  apply zeroPercentageAbove_false in Hzeros; [|lia]. rewrite Hlen in Hzeros.
  split; [|lia].
  rewrite string_drop_length in Hlen.
  destruct a as [|c1 [|c2 [|c3 a]]]; try discriminate. cbn in *. lia.
Qed.

Lemma isZeroHeavyAddress_false (workchain hash : string) :
  count_char ":" workchain = 0 -> count_char ":" hash = 0 ->
  isZeroHeavyAddress (workchain ++ ":" ++ hash) = false ->
  if String.eqb workchain "-1" || String.eqb workchain "-2"
  then 10 * count_char "0" hash <= 8 * Z.of_nat (String.length hash)
  else 4 * count_char "0" hash <= 3 * Z.of_nat (String.length hash).
Proof.
  intros Hw Hh. unfold isZeroHeavyAddress. rewrite split_colon_two by assumption.
  destruct (String.eqb workchain "-1" || String.eqb workchain "-2"); intros H;
    apply zeroPercentageAbove_false in H; lia.
Qed.

(** The decision does not depend on the state of the filter. *)
Lemma customPatternsLoop_decision (a : string) (ps : list string) :
  forall st1 st2,
    (customPatternsLoop RegExp RegExp_new RegExp_test a ps st1).1
    = (customPatternsLoop RegExp RegExp_new RegExp_test a ps st2).1.
Proof.
  induction ps as [|p ps IH]; intros st1 st2.
  - reflexivity.
  - rewrite !(loop_cons RegExp RegExp_new RegExp_test).
    destruct (RegExp_new p) as [e|regex]; [apply IH|].
    destruct (RegExp_test regex a); [reflexivity|apply IH].
Qed.

Lemma customPatternsLoop_passed (a : string) (ps : list string) :
  forall st r st',
    customPatternsLoop RegExp RegExp_new RegExp_test a ps st = (inr r, st') ->
    FilterResult.shouldProcess r = true ->
    r = FilterResult.mk true None.
Proof.
  induction ps as [|p ps IH]; intros st r st' Hrun Hpassed.
  - rewrite (loop_nil RegExp RegExp_new RegExp_test) in Hrun.
    injection Hrun as <- _. reflexivity.
  - rewrite (loop_cons RegExp RegExp_new RegExp_test) in Hrun.
    destruct (RegExp_new p) as [e|regex]; [exact (IH _ _ _ Hrun Hpassed)|].
    destruct (RegExp_test regex a); [|exact (IH _ _ _ Hrun Hpassed)].
    injection Hrun as <- _. discriminate.
Qed.

End FilterDecisions.

(** X8. An address the filter lets through has at least
    ten characters and is not of workchain -2; if it is of workchain -1,
    its hash part has exactly 64 characters, at most 35 of them zeros;
    and if it has the form [workchain:hash], at most three quarters of
    the characters of its hash part are zeros.  The result then carries
    no skip reason. *)
Theorem passed_address_shape
    (RegExp : Type) (RegExp_new : string -> string + RegExp)
    (RegExp_test : RegExp -> string -> bool)
    (patterns : list string) (a : string) (st : FilterState)
    (r : FilterResult) (st' : FilterState)
    (Hrun : shouldProcessAddress RegExp RegExp_new RegExp_test patterns a st
            = (inr r, st'))
    (Hpassed : FilterResult.shouldProcess r = true) :
  r = FilterResult.mk true None
  /\ (10 <= String.length a)%nat
  /\ String.prefix "-2:" a = false
  /\ (String.prefix "-1:" a = true ->
      String.length a = 67%nat
      /\ count_char "0" (string_drop 3 a) <= 35)
  /\ (forall workchain hash,
        a = workchain ++ ":" ++ hash ->
        count_char ":" workchain = 0 -> count_char ":" hash = 0 ->
        4 * count_char "0" hash <= 3 * Z.of_nat (String.length hash)).
Proof.
  rewrite (classify_unfold RegExp RegExp_new RegExp_test) in Hrun. cbv zeta in Hrun.
  destruct (isMasterchainSystemAddress a) eqn:Hsystem.
  { injection Hrun as <- _. discriminate. }
  destruct (isZeroHeavyAddress a) eqn:Hzeros.
  { injection Hrun as <- _. discriminate. }
  destruct (isShortAddress a) eqn:Hshort.
  { injection Hrun as <- _. discriminate. }
  apply isMasterchainSystemAddress_false in Hsystem as [Hminus2 Hminus1].
  split.
  { exact (customPatternsLoop_passed RegExp RegExp_new RegExp_test a patterns _ _ _
             Hrun Hpassed). }
  split.
  { unfold isShortAddress in Hshort. apply Nat.ltb_ge in Hshort. exact Hshort. }
  split; [exact Hminus2|].
  split.
  { intros Hprefix. destruct (Hminus1 Hprefix) as [Hlen Hcount].
    split; [exact Hlen|lia]. }
  intros workchain hash -> Hw Hh.
  pose proof (isZeroHeavyAddress_false workchain hash Hw Hh Hzeros) as Hheavy.
  destruct (String.eqb workchain "-1") eqn:Hone.
  - apply String.eqb_eq in Hone. subst workchain.
    assert (Hprefix : String.prefix "-1:" ("-1" ++ ":" ++ hash) = true)
      by (cbv [String.append]; cbn; destruct hash; reflexivity).
    destruct (Hminus1 Hprefix) as [Hlen Hcount].
    change (string_drop 3 ("-1" ++ ":" ++ hash)) with hash in Hcount.
    change (String.length ("-1" ++ ":" ++ hash)) with (S (S (S (String.length hash))))
      in Hlen.
    lia.
  - destruct (String.eqb workchain "-2") eqn:Htwo.
    + apply String.eqb_eq in Htwo. subst workchain.
      assert (Hprefix : String.prefix "-2:" ("-2" ++ ":" ++ hash) = true)
        by (cbv [String.append]; cbn; destruct hash; reflexivity).
      congruence.
    + exact Hheavy.
Qed.

(** A base-chain address that passes, with the invalid pattern [(]
    configured. *)
Lemma passed_address_shape_witness :
  exists st',
    shouldProcessAddress string literal_RegExp_new literal_RegExp_test ["("] address1
      FilterState.initial
    = (inr (FilterResult.mk true None), st')
    /\ (10 <= String.length address1)%nat
    /\ String.prefix "-2:" address1 = false.
Proof.
  eexists.
  assert (Hrun : shouldProcessAddress string literal_RegExp_new literal_RegExp_test
                   ["("] address1 FilterState.initial
                 = (inr (FilterResult.mk true None), _)) by (vm_compute; reflexivity).
  split; [exact Hrun|].
  destruct (passed_address_shape string literal_RegExp_new literal_RegExp_test ["("]
              address1 FilterState.initial _ _ Hrun eq_refl)
    as (_ & Hlength & Hminus2 & _).
  split; [exact Hlength|exact Hminus2].
Defined.

(** The decision in one state of the filter. *)
Lemma shouldProcessAddress_decision
    (RegExp : Type) (RegExp_new : string -> string + RegExp)
    (RegExp_test : RegExp -> string -> bool)
    (patterns : list string) (a : string) (st : FilterState) :
  exists r,
    (shouldProcessAddress RegExp RegExp_new RegExp_test patterns a st).1 = inr r
    /\ (r = FilterResult.mk true None
        \/ exists reason,
             r = FilterResult.mk false (Some reason)
             /\ (In reason builtin_reasons
                 \/ exists pattern regex,
                      In pattern patterns
                      /\ reason = "custom_pattern:" ++ pattern
                      /\ RegExp_new pattern = inr regex
                      /\ RegExp_test regex a = true)).
Proof.
  rewrite (classify_unfold RegExp RegExp_new RegExp_test). cbv zeta.
  set (st1 := FilterState.mk (FilterState.total st + 1) _ _ _ _).
  destruct (isMasterchainSystemAddress a).
  { eexists. split; [reflexivity|]. right. eexists. split; [reflexivity|].
    left. cbn. tauto. }
  destruct (isZeroHeavyAddress a).
  { eexists. split; [reflexivity|]. right. eexists. split; [reflexivity|].
    left. cbn. tauto. }
  destruct (isShortAddress a).
  { eexists. split; [reflexivity|]. right. eexists. split; [reflexivity|].
    left. cbn. tauto. }
  generalize st1. clear st1 st.
  induction patterns as [|p ps IH]; intros st.
  - rewrite (loop_nil RegExp RegExp_new RegExp_test).
    eexists. split; [reflexivity|]. left. reflexivity.
  - rewrite (loop_cons RegExp RegExp_new RegExp_test).
    assert (Hrest : forall st0,
               exists r,
                 (customPatternsLoop RegExp RegExp_new RegExp_test a ps st0).1 = inr r
                 /\ (r = FilterResult.mk true None
                     \/ exists reason,
                          r = FilterResult.mk false (Some reason)
                          /\ (In reason builtin_reasons
                              \/ exists pattern regex,
                                   In pattern (p :: ps)
                                   /\ reason = "custom_pattern:" ++ pattern
                                   /\ RegExp_new pattern = inr regex
                                   /\ RegExp_test regex a = true))).
    { intros st0. destruct (IH st0) as (r & Hr & Hcases). exists r.
      split; [exact Hr|].
      destruct Hcases as [Hpass|(reason & Hskip & [Hin|(q & regex & Hq & Hrest)])].
      - left. exact Hpass.
      - right. exists reason. split; [exact Hskip|]. left. exact Hin.
      - right. exists reason. split; [exact Hskip|]. right. exists q, regex.
        split; [right; exact Hq|exact Hrest]. }
    destruct (RegExp_new p) as [e|regex] eqn:Hp; [apply Hrest|].
    destruct (RegExp_test regex a) eqn:Ht; [|apply Hrest].
    eexists. split; [reflexivity|]. right. eexists. split; [reflexivity|].
    right. exists p, regex. split; [left; reflexivity|].
    split; [reflexivity|]. split; [exact Hp|exact Ht].
Qed.

(** X9. The decision of [shouldProcessAddress] for an
    address is the same in every state of the filter (what it has
    counted and logged before never changes what it answers), and it is
    either to let the address through, without a skip reason, or to
    skip it with a reason that is one of [masterchain_system],
    [zero_heavy], [too_short], or [custom_pattern:] followed by a
    configured pattern that compiled and matched the address. *)
Theorem skip_reasons_vocabulary
    (RegExp : Type) (RegExp_new : string -> string + RegExp)
    (RegExp_test : RegExp -> string -> bool)
    (patterns : list string) (a : string) :
  exists r,
    (forall st,
        (shouldProcessAddress RegExp RegExp_new RegExp_test patterns a st).1 = inr r)
    /\ (r = FilterResult.mk true None
        \/ exists reason,
             r = FilterResult.mk false (Some reason)
             /\ (In reason builtin_reasons
                 \/ exists pattern regex,
                      In pattern patterns
                      /\ reason = "custom_pattern:" ++ pattern
                      /\ RegExp_new pattern = inr regex
                      /\ RegExp_test regex a = true)).
Proof.
  destruct (shouldProcessAddress_decision RegExp RegExp_new RegExp_test patterns a
              FilterState.initial) as (r & Hr & Hcases).
  exists r. split; [|exact Hcases].
  intros st. rewrite <- Hr.
  rewrite !(classify_unfold RegExp RegExp_new RegExp_test). cbv zeta.
  destruct (isMasterchainSystemAddress a); [reflexivity|].
  destruct (isZeroHeavyAddress a); [reflexivity|].
  destruct (isShortAddress a); [reflexivity|].
  apply customPatternsLoop_decision.
Qed.

Section ConfiguredPatterns.

Lemma js_split_length (sep : ascii) (s : string) :
  Z.of_nat (length (js_split sep s)) = count_char sep s + 1.
Proof.
  induction s as [|c s IH]; [reflexivity|].
  cbn [js_split count_char]. rewrite (Ascii.eqb_sym sep c).
  pose proof (count_char_bounds sep s) as Hcount.
  destruct (Ascii.eqb c sep).
  - cbn [length]. lia.
  - destruct (js_split sep s) as [|part parts]; cbn [length] in *; lia.
Qed.

Lemma js_split_parts (sep : ascii) (s : string) :
  Forall (fun part => count_char sep part = 0) (js_split sep s).
Proof.
  induction s as [|c s IH]; [repeat constructor|].
  cbn [js_split]. destruct (Ascii.eqb c sep) eqn:Hc.
  - constructor; [reflexivity|exact IH].
  - destruct (js_split sep s) as [|part parts].
    + repeat constructor. cbn. rewrite (Ascii.eqb_sym sep c), Hc. reflexivity.
    + inversion IH as [|? ? Hpart Hparts]; subst. constructor; [|exact Hparts].
      cbn [count_char]. rewrite (Ascii.eqb_sym sep c), Hc, Hpart. reflexivity.
Qed.

(** A separator at the end leaves an empty last part. *)
Lemma js_split_trailing (sep : ascii) (s : string) :
  js_split sep (s ++ String sep EmptyString)
  = (js_split sep s ++ [EmptyString])%list.
Proof.
  induction s as [|c s IH].
  - cbv [String.append]. cbn [js_split]. rewrite Ascii.eqb_refl. reflexivity.
  - change (String c s ++ String sep "") with (String c (s ++ String sep "")).
    cbn [js_split]. rewrite IH. destruct (Ascii.eqb c sep); [reflexivity|].
    pose proof (js_split_length sep s) as Hlen.
    pose proof (count_char_bounds sep s) as Hcount.
    destruct (js_split sep s) as [|part parts]; [cbn in Hlen; lia|reflexivity].
Qed.

Lemma count_char_skip_whitespace (c : ascii) (s : string) :
  count_char c (skip_whitespace s) <= count_char c s.
Proof.
  induction s as [|c' s IH]; cbn [skip_whitespace count_char]; [lia|].
  destruct (is_js_whitespace c'); cbn [count_char]; destruct (Ascii.eqb c c'); lia.
Qed.

Lemma count_char_trim_end (c : ascii) (s : string) :
  count_char c (trim_end s) <= count_char c s.
Proof.
  induction s as [|c' s IH]; cbn [trim_end count_char]; [lia|].
  destruct (trim_end s) as [|d t].
  - pose proof (count_char_bounds c s) as Hb.
    destruct (is_js_whitespace c'); cbn [count_char]; destruct (Ascii.eqb c c'); lia.
  - cbn [count_char] in *. destruct (Ascii.eqb c c'); lia.
Qed.

Lemma trim_end_idempotent (s : string) : trim_end (trim_end s) = trim_end s.
Proof.
  induction s as [|c s IH]; [reflexivity|].
  cbn [trim_end]. destruct (trim_end s) as [|d t] eqn:Ht.
  - destruct (is_js_whitespace c) eqn:Hc; [reflexivity|].
    cbn [trim_end]. rewrite Hc. reflexivity.
  - change (trim_end (String c (String d t)))
      with (match trim_end (String d t) with
            | EmptyString => if is_js_whitespace c then EmptyString
                             else String c EmptyString
            | String d' t' => String c (String d' t')
            end).
    rewrite IH. reflexivity.
Qed.

(** [trim_end] keeps a first character that is not white space. *)
Lemma trim_end_head (c : ascii) (s : string) :
  is_js_whitespace c = false ->
  exists t, trim_end (String c s) = String c t.
Proof.
  intros Hc. cbn [trim_end]. destruct (trim_end s) as [|d t].
  - rewrite Hc. eauto.
  - eauto.
Qed.

Lemma skip_whitespace_head (s : string) :
  skip_whitespace s = EmptyString
  \/ exists c t, skip_whitespace s = String c t /\ is_js_whitespace c = false.
Proof.
  induction s as [|c s IH]; [left; reflexivity|].
  cbn [skip_whitespace]. destruct (is_js_whitespace c) eqn:Hc; [exact IH|].
  right. eauto.
Qed.

Lemma js_trim_idempotent (s : string) : js_trim (js_trim s) = js_trim s.
Proof.
  unfold js_trim. destruct (skip_whitespace_head s) as [->|(c & t & -> & Hc)].
  - reflexivity.
  - destruct (trim_end_head c t Hc) as (t' & Ht). rewrite Ht.
    cbn [skip_whitespace]. rewrite Hc, <- Ht. apply trim_end_idempotent.
Qed.

Lemma count_char_js_trim (c : ascii) (s : string) :
  count_char c s = 0 -> count_char c (js_trim s) = 0.
Proof.
  intros H. unfold js_trim.
  pose proof (count_char_trim_end c (skip_whitespace s)) as H1.
  pose proof (count_char_skip_whitespace c s) as H2.
  pose proof (count_char_bounds c (trim_end (skip_whitespace s))) as H3.
  lia.
Qed.

End ConfiguredPatterns.

Section MatchingPattern.

Variable RegExp : Type.
Variable RegExp_new : string -> string + RegExp.
Variable RegExp_test : RegExp -> string -> bool.

(** A configured pattern that compiles and matches makes the loop over
    the custom patterns skip the address, wherever it stands. *)
Lemma customPatternsLoop_matching (a q : string) (regex : RegExp) (ps : list string) :
  RegExp_new q = inr regex ->
  RegExp_test regex a = true ->
  In q ps ->
  forall st, exists r,
    (customPatternsLoop RegExp RegExp_new RegExp_test a ps st).1 = inr r
    /\ FilterResult.shouldProcess r = false.
Proof.
  intros Hnew Htest. induction ps as [|p ps IH]; intros Hin st; [destruct Hin|].
  rewrite (loop_cons RegExp RegExp_new RegExp_test).
  destruct Hin as [->|Hin].
  - rewrite Hnew, Htest. eexists. split; reflexivity.
  - destruct (RegExp_new p) as [e|regex']; [apply (IH Hin)|].
    destruct (RegExp_test regex' a); [|apply (IH Hin)].
    eexists. split; reflexivity.
Qed.

End MatchingPattern.

(** X10. The custom patterns come from
    [CUSTOM_SKIP_PATTERNS] split at every comma: unset or empty it gives
    no pattern; otherwise it gives one pattern more than it has commas,
    and every pattern is free of commas and of surrounding white space.
    A pattern that needs a comma, such as [0{20,}], cannot be
    configured. *)
Theorem configured_patterns_are_split_at_commas (env : ProcessEnv) :
  let patterns := createDefaultAddressFilterConfig env in
  match env !! "CUSTOM_SKIP_PATTERNS" with
  | None | Some EmptyString => patterns = []
  | Some value =>
      Z.of_nat (length patterns) = count_char "," value + 1
  end
  /\ Forall (fun pattern => count_char "," pattern = 0 /\ js_trim pattern = pattern)
       patterns.
Proof.
  intros patterns. subst patterns. unfold createDefaultAddressFilterConfig.
  destruct (env !! "CUSTOM_SKIP_PATTERNS") as [[|c value]|];
    [split; [reflexivity|constructor]| |split; [reflexivity|constructor]].
  cbn [truthy_str String.eqb negb default from_option id].
  split.
  - rewrite length_map. apply js_split_length.
  - apply Forall_forall. intros pattern Hin.
    apply list_elem_of_In, in_map_iff in Hin as (part & <- & Hpart).
    split; [|apply js_trim_idempotent].
    apply count_char_js_trim.
    pose proof (js_split_parts "," (String c value)) as Hparts.
    rewrite Forall_forall in Hparts. apply Hparts, list_elem_of_In, Hpart.
Qed.

(** X11. A comma at the end of [CUSTOM_SKIP_PATTERNS]
    configures the empty pattern, and the empty pattern matches every
    string: with an engine for which it does, no address at all is let
    through. *)
Theorem trailing_comma_skips_every_address
    (RegExp : Type) (RegExp_new : string -> string + RegExp)
    (RegExp_test : RegExp -> string -> bool)
    (env : ProcessEnv) (value : string) (regex : RegExp)
    (Hvalue : env !! "CUSTOM_SKIP_PATTERNS" = Some (value ++ ","))
    (Hcompiles : RegExp_new "" = inr regex)
    (Hmatches : forall s, RegExp_test regex s = true)
    (a : string) (st : FilterState) :
  In "" (createDefaultAddressFilterConfig env)
  /\ exists r,
       (shouldProcessAddress RegExp RegExp_new RegExp_test
          (createDefaultAddressFilterConfig env) a st).1 = inr r
       /\ FilterResult.shouldProcess r = false.
Proof.
  assert (Hin : In "" (createDefaultAddressFilterConfig env)).
  { unfold createDefaultAddressFilterConfig. rewrite Hvalue.
    assert (Htruthy : truthy_str (Some (value ++ ",")) = true).
    { destruct value; reflexivity. }
    rewrite Htruthy. cbn [default from_option id].
    rewrite js_split_trailing, map_app. apply in_or_app. right. left. reflexivity. }
  split; [exact Hin|].
  rewrite (classify_unfold RegExp RegExp_new RegExp_test). cbv zeta.
  destruct (isMasterchainSystemAddress a); [eexists; split; reflexivity|].
  destruct (isZeroHeavyAddress a); [eexists; split; reflexivity|].
  destruct (isShortAddress a); [eexists; split; reflexivity|].
  apply (customPatternsLoop_matching RegExp RegExp_new RegExp_test a "" regex _
           Hcompiles (Hmatches a) Hin).
Qed.

(** [CUSTOM_SKIP_PATTERNS="^-9:,"] with the literal engine. *)
Lemma trailing_comma_skips_every_address_witness :
  createDefaultAddressFilterConfig {[ "CUSTOM_SKIP_PATTERNS" := "^-9:," ]}
  = ["^-9:"; ""]
  /\ exists r,
       (shouldProcessAddress string literal_RegExp_new literal_RegExp_test
          (createDefaultAddressFilterConfig {[ "CUSTOM_SKIP_PATTERNS" := "^-9:," ]})
          address1 FilterState.initial).1 = inr r
       /\ FilterResult.shouldProcess r = false.
Proof.
  split; [vm_compute; reflexivity|].
  apply (trailing_comma_skips_every_address string literal_RegExp_new
           literal_RegExp_test {[ "CUSTOM_SKIP_PATTERNS" := "^-9:," ]} "^-9:" "").
  - vm_compute. reflexivity.
  - reflexivity.
  - intros s. destruct s; reflexivity.
Defined.

(** ** directoryStructure *)

Section DirectoryLevels.

Lemma depth_by_fan_out_cases (n : Z) :
  (n <= 1000 * 65536 ^ 2 /\ depth_by_fan_out 65536 n = 2)
  \/ (1000 * 65536 ^ 2 < n <= 1000 * 65536 ^ 3 /\ depth_by_fan_out 65536 n = 3)
  \/ (1000 * 65536 ^ 3 < n <= 1000 * 65536 ^ 4 /\ depth_by_fan_out 65536 n = 4)
  \/ (1000 * 65536 ^ 4 < n <= 1000 * 65536 ^ 5 /\ depth_by_fan_out 65536 n = 5)
  \/ (1000 * 65536 ^ 5 < n /\ depth_by_fan_out 65536 n = 6).
Proof.
  unfold depth_by_fan_out. cbn [find].
  destruct (Z.leb_spec n (1000 * 65536 ^ 2)); [left; split; [lia|reflexivity]|].
  destruct (Z.leb_spec n (1000 * 65536 ^ 3));
    [right; left; split; [lia|reflexivity]|].
  destruct (Z.leb_spec n (1000 * 65536 ^ 4));
    [right; right; left; split; [lia|reflexivity]|].
  destruct (Z.leb_spec n (1000 * 65536 ^ 5));
    [right; right; right; left; split; [lia|reflexivity]|].
  right; right; right; right. split; [lia|].
  destruct (n <=? 1000 * 65536 ^ 6); reflexivity.
Qed.

End DirectoryLevels.

(** X12. [calculateOptimalDirectoryLevels] returns for every
    file count, a depth between 2 and 6 that never decreases when the
    count grows; it is 2 for every count up to 1000 * 65536^2 (about
    4.29 * 10^12 files), and 6 above 1000 * 65536^5. *)
Theorem optimal_levels_range_and_growth (n m : Z) :
  exists dn dm,
    calculateOptimalDirectoryLevels n = Some dn
    /\ calculateOptimalDirectoryLevels m = Some dm
    /\ 2 <= dn <= 6
    /\ (n <= m -> dn <= dm)
    /\ (n <= 4294967296000 -> dn = 2)
    /\ (1000 * 65536 ^ 5 < n -> dn = 6).
Proof.
  exists (depth_by_fan_out 65536 n), (depth_by_fan_out 65536 m).
  split; [apply calculateOptimalDirectoryLevels_total|].
  split; [apply calculateOptimalDirectoryLevels_total|].
  pose proof (depth_by_fan_out_cases n) as Hn.
  pose proof (depth_by_fan_out_cases m) as Hm.
  change (1000 * 65536 ^ 2) with 4294967296000 in *.
  change (1000 * 65536 ^ 3) with 281474976710656000 in *.
  change (1000 * 65536 ^ 4) with 18446744073709551616000 in *.
  change (1000 * 65536 ^ 5) with 1208925819614629174706176000 in *.
  lia.
Qed.

Section ShardPathEdges.

Variable generateHash : string -> string.
Variable path_join : list string -> string.

Lemma substring_beyond (s : string) :
  forall n m, (String.length s <= n)%nat -> String.substring n m s = EmptyString.
Proof.
  induction s as [|c s IH]; intros n m Hn.
  - destruct n, m; reflexivity.
  - destruct n as [|n]; [cbn in Hn; lia|]. cbn [String.substring].
    apply IH. cbn in Hn. lia.
Qed.

Lemma shardSegments_spec (address : string) (depth : Z) :
  depth <> 0 ->
  shardSegments generateHash address (Some depth)
  = map (fun j => String.substring (2 * j) 2
                    (generateHash (stripAddressPrefix address)))
      (seq 0 (Z.to_nat depth)).
Proof.
  intros Hdepth. unfold shardSegments. rewrite effectiveLevels_configured by exact Hdepth.
  rewrite directories_loop_spec. reflexivity.
Qed.

End ShardPathEdges.

(** X13. The depth argument of [getDirectoryPath] at its
    edges: an absent depth and a depth of zero both mean two levels; a
    negative depth gives no level at all (the path is the base
    directory); and since the digest has 32 characters, every level
    beyond the sixteenth is the empty string. *)
Theorem directory_depth_edge_cases
    (generateHash : string -> string) (path_join : list string -> string)
    (Hlen : forall s, String.length (generateHash s) = 32%nat)
    (address baseDir : string) :
  getDirectoryPath generateHash path_join address baseDir None
  = getDirectoryPath generateHash path_join address baseDir (Some 2)
  /\ getDirectoryPath generateHash path_join address baseDir (Some 0)
     = getDirectoryPath generateHash path_join address baseDir (Some 2)
  /\ (forall depth, depth < 0 ->
        getDirectoryPath generateHash path_join address baseDir (Some depth)
        = path_join [baseDir])
  /\ (forall depth i, (16 <= i < Z.to_nat depth)%nat ->
        shardSegments generateHash address (Some depth) !! i = Some "").
Proof.
  split; [reflexivity|]. split; [reflexivity|]. split.
  - intros depth Hdepth. unfold getDirectoryPath.
    rewrite shardSegments_spec by lia.
    replace (Z.to_nat depth) with 0%nat by lia. reflexivity.
  - intros depth i Hi. rewrite shardSegments_spec by lia.
    rewrite list_lookup_fmap, lookup_seq_lt by lia. cbn [fmap option_fmap option_map].
    f_equal. apply substring_beyond. rewrite Hlen. lia.
Qed.

(** A depth of 18 over a fixed digest: the seventeenth level is empty. *)
Lemma directory_depth_edge_cases_witness :
  let generateHash := fun _ : string => "d41d8cd98f00b204e9800998ecf8427e" in
  shardSegments generateHash "0:ab" (Some 18) !! 16%nat = Some ""
  /\ getDirectoryPath generateHash (String.concat "/") "0:ab" "./data" (Some 0)
     = "./data/d4/1d".
Proof.
  intros generateHash.
  destruct (directory_depth_edge_cases generateHash (String.concat "/")
              (fun _ => eq_refl) "0:ab" "./data") as (_ & Hzero & _ & Hdeep).
  split.
  - apply (Hdeep 18 16%nat). split; [lia|]. vm_compute. lia.
  - rewrite Hzero. reflexivity.
Defined.


(** ** File names *)

Section FileNames.

Local Arguments String.append !_ _ / : simpl nomatch.

Lemma length_append (s t : string) :
  String.length (s ++ t) = (String.length s + String.length t)%nat.
Proof. induction s as [|c s IH]; cbn; [reflexivity|]. rewrite IH. reflexivity. Qed.

Lemma count_char_append (c : ascii) (s t : string) :
  count_char c (s ++ t) = count_char c s + count_char c t.
Proof. induction s as [|c' s IH]; cbn; [reflexivity|]. rewrite IH. lia. Qed.

Lemma string_forallb_append (p : ascii -> bool) (s t : string) :
  string_forallb p (s ++ t) = string_forallb p s && string_forallb p t.
Proof.
  induction s as [|c s IH]; cbn; [reflexivity|]. rewrite IH, andb_assoc. reflexivity.
Qed.

Lemma append_cancel_r (s : string) :
  forall x y, x ++ s = y ++ s -> x = y.
Proof.
  induction x as [|c x IH]; intros y H.
  - destruct y as [|d y]; [reflexivity|].
    apply (f_equal String.length) in H. rewrite !length_append in H. cbn in H. lia.
  - destruct y as [|d y].
    + apply (f_equal String.length) in H. rewrite !length_append in H. cbn in H. lia.
    + cbn in H. injection H as -> H. f_equal. apply IH, H.
Qed.

Lemma sanitizeAddress_chars (a : string) :
  string_forallb is_file_name_char (sanitizeAddress a) = true.
Proof.
  induction a as [|c a IH]; [reflexivity|].
  unfold sanitizeAddress in *. cbn [string_map string_forallb]. rewrite IH, andb_true_r.
  unfold is_file_name_char. destruct (is_alnum c) eqn:Hc; [rewrite Hc|]; reflexivity.
Qed.

Lemma sanitizeAddress_length (a : string) :
  String.length (sanitizeAddress a) = String.length a.
Proof.
  induction a as [|c a IH]; [reflexivity|].
  unfold sanitizeAddress in *. cbn. rewrite IH. reflexivity.
Qed.

Lemma forallb_count_char (p : ascii -> bool) (c : ascii) (s : string) :
  p c = false -> string_forallb p s = true -> count_char c s = 0.
Proof.
  intros Hc. induction s as [|c' s IH]; [reflexivity|].
  cbn. intros H. apply andb_true_iff in H as [Hc' Hs].
  destruct (Ascii.eqb_spec c c') as [->|_]; [congruence|]. rewrite IH by exact Hs.
  reflexivity.
Qed.

Lemma replace_colons_length (a : string) :
  String.length (replace_colons a) = String.length a.
Proof. induction a as [|c a IH]; cbn; [reflexivity|]. rewrite IH. reflexivity. Qed.

Lemma replace_colons_no_colon (a : string) : count_char ":" (replace_colons a) = 0.
Proof.
  induction a as [|c a IH]; [reflexivity|]. cbn [replace_colons count_char].
  rewrite IH. destruct (Ascii.eqb_spec c ":") as [->|Hc]; [reflexivity|].
  destruct (Ascii.eqb_spec ":" c) as [<-|_]; [contradiction|reflexivity].
Qed.

Lemma replace_colons_other (c : ascii) (a : string) :
  c <> ":"%char -> c <> "_"%char ->
  count_char c (replace_colons a) = count_char c a.
Proof.
  intros Hcolon Hunderscore. induction a as [|c' a IH]; [reflexivity|].
  cbn [replace_colons count_char]. rewrite IH.
  destruct (Ascii.eqb_spec c' ":") as [->|Hc'].
  - destruct (Ascii.eqb_spec c "_"); [contradiction|].
    destruct (Ascii.eqb_spec c ":"); [contradiction|]. reflexivity.
  - reflexivity.
Qed.

Lemma replace_colons_injective (a : string) :
  forall b,
    count_char "_" a = 0 -> count_char "_" b = 0 ->
    replace_colons a = replace_colons b -> a = b.
Proof.
  induction a as [|c a IH]; intros b Ha Hb H.
  - destruct b; [reflexivity|discriminate].
  - destruct b as [|d b]; [discriminate|].
    cbn [replace_colons] in H. injection H as Hhead Htail.
    cbn [count_char] in Ha, Hb.
    pose proof (count_char_bounds "_" a) as Hba.
    pose proof (count_char_bounds "_" b) as Hbb.
    destruct (Ascii.eqb_spec "_" c) as [<-|Hc]; [lia|].
    destruct (Ascii.eqb_spec "_" d) as [<-|Hd]; [lia|].
    f_equal; [|apply IH; [lia|lia|exact Htail]].
    destruct (Ascii.eqb_spec c ":") as [->|Hc'];
      destruct (Ascii.eqb_spec d ":") as [->|Hd']; congruence.
Qed.

End FileNames.

(** X14. The file name the hierarchical store gives an
    address consists of letters, digits, underscores and dots only, so
    it contains no path separator and the file stays in its shard
    directory, whatever the address; its length is that of the address
    plus 13. *)
Theorem inspectFileName_stays_in_directory (address : string) :
  string_forallb is_file_name_char (inspectFileName address) = true
  /\ count_char "/" (inspectFileName address) = 0
  /\ String.length (inspectFileName address) = (String.length address + 13)%nat.
Proof.
  assert (Hchars : string_forallb is_file_name_char (inspectFileName address) = true).
  { unfold inspectFileName. rewrite !string_forallb_append, sanitizeAddress_chars.
    reflexivity. }
  split; [exact Hchars|]. split.
  - apply (forallb_count_char is_file_name_char); [reflexivity|exact Hchars].
  - unfold inspectFileName. rewrite !length_append, sanitizeAddress_length. cbn. lia.
Qed.

(** X15. [generateFileName] of the flat store replaces the
    colons and nothing else: the name has no colon, every character
    other than the colon and the underscore occurs in it as often as in
    the address and in [inspect_.json] together (a path separator in the
    address stays one in the name), and two addresses without
    underscores get the same name only if they are equal. *)
Theorem generateFileName_replaces_only_colons (rawAddress : string) :
  count_char ":" (generateFileName rawAddress) = 0
  /\ String.length (generateFileName rawAddress) = (String.length rawAddress + 13)%nat
  /\ (forall c, c <> ":"%char -> c <> "_"%char ->
        count_char c (generateFileName rawAddress)
        = count_char c rawAddress + count_char c "inspect_.json")
  /\ (forall other,
        count_char "_" rawAddress = 0 -> count_char "_" other = 0 ->
        generateFileName rawAddress = generateFileName other -> rawAddress = other).
Proof.
  unfold generateFileName. split; [|split; [|split]].
  - rewrite !count_char_append, replace_colons_no_colon. reflexivity.
  - rewrite !length_append, replace_colons_length. cbn. lia.
  - intros c Hcolon Hunderscore.
    rewrite !count_char_append, replace_colons_other by assumption.
    change "inspect_.json" with ("inspect_" ++ ".json").
    rewrite count_char_append. lia.
  - intros other Ha Hb H. apply String.app_inj in H. apply append_cancel_r in H.
    apply replace_colons_injective; assumption.
Qed.

(** ** The distribution of the files over the directories *)

Section Distribution.

Lemma counted_more_refl (stats : DirectoryStats) : counted_more 0 0 stats stats.
Proof. unfold counted_more. repeat split; (lia || tauto). Qed.

Lemma counted_more_trans (f1 d1 f2 d2 : nat) (s1 s2 s3 : DirectoryStats) :
  counted_more f1 d1 s1 s2 -> counted_more f2 d2 s2 s3 ->
  counted_more (f1 + f2) (d1 + d2) s1 s3.
Proof.
  intros (F1 & D1 & A1 & S1) (F2 & D2 & A2 & S2). unfold counted_more.
  split; [lia|]. split; [lia|]. split; [congruence|tauto].
Qed.

Lemma record_directory_counted (currentPath : string) (files : nat)
    (stats : DirectoryStats) :
  (1 <= files)%nat ->
  counted_more files 1 stats (record_directory currentPath files stats).
Proof.
  intros Hfiles. unfold counted_more, record_directory, spread_ok.
  cbn [DirectoryStats.totalDirectories DirectoryStats.totalFiles
       DirectoryStats.averageFilesPerDirectory DirectoryStats.maxFilesInDirectory
       DirectoryStats.minFilesInDirectory].
  split; [reflexivity|]. split; [lia|]. split; [reflexivity|].
  destruct (DirectoryStats.minFilesInDirectory stats) as [least|].
  - intros (Hd & Hl & Hf).
    destruct (Nat.ltb_spec files least);
      destruct (Nat.ltb_spec (DirectoryStats.maxFilesInDirectory stats) files);
      (split; [lia|]; split; [lia|nia]).
  - intros (-> & -> & ->).
    destruct (Nat.ltb_spec 0 files); [|lia]. lia.
Qed.

Lemma count_here_counted (entries : list DirEntry) (currentPath : string)
    (stats : DirectoryStats) :
  exists stats',
    count_here entries currentPath stats = (inr tt, stats')
    /\ counted_more (json_here entries)
         (if (0 <? json_here entries)%nat then 1 else 0) stats stats'.
Proof.
  unfold count_here. destruct (Nat.ltb_spec 0 (json_here entries)) as [Hpos|Hzero].
  - eexists. split; [reflexivity|]. apply record_directory_counted. lia.
  - exists stats. split; [reflexivity|].
    replace (json_here entries) with 0%nat by lia. apply counted_more_refl.
Qed.

(** The loop over the entries of a listing, when each entry behaves. *)
Lemma for_each_counted (body : DirEntry -> M DirectoryStats unit)
    (files directories : DirEntry -> nat) (entries : list DirEntry) :
  Forall (fun entry => forall stats, exists stats',
            body entry stats = (inr tt, stats')
            /\ counted_more (files entry) (directories entry) stats stats') entries ->
  forall stats, exists stats',
    for_each body entries stats = (inr tt, stats')
    /\ counted_more (sum_list_with files entries) (sum_list_with directories entries)
         stats stats'.
Proof.
  intros Hall. induction Hall as [|entry entries Hentry _ IH]; intros stats.
  - exists stats. split; [reflexivity|apply counted_more_refl].
  - destruct (Hentry stats) as (stats1 & Hrun1 & Hcount1).
    destruct (IH stats1) as (stats2 & Hrun2 & Hcount2).
    exists stats2. split.
    + cbn [for_each]. unfold bind. rewrite Hrun1. exact Hrun2.
    + cbn [sum_list_with]. exact (counted_more_trans _ _ _ _ _ _ _ Hcount1 Hcount2).
Qed.

(** A readable entry is gone through to the end, and everything below
    it is counted. *)
Lemma visit_readable (entry : DirEntry) :
  readable_entry entry = true ->
  forall currentPath stats, exists stats',
    visit currentPath entry stats = (inr tt, stats')
    /\ counted_more (json_below entry) (populated_below entry) stats stats'.
Proof.
  induction entry as [name|name|name error|name entries IH] using DirEntry_tree_ind;
    intros Hreadable currentPath stats.
  - exists stats. split; [reflexivity|apply counted_more_refl].
  - exists stats. split; [reflexivity|apply counted_more_refl].
  - discriminate.
  - cbn [readable_entry] in Hreadable. cbn [visit json_below populated_below].
    set (subCurrentPath := if truthy_str (Some currentPath) then _ else _).
    destruct (count_here_counted entries subCurrentPath stats)
      as (stats1 & Hrun1 & Hcount1).
    assert (Hall : Forall (fun entry => forall stats, exists stats',
                             visit subCurrentPath entry stats = (inr tt, stats')
                             /\ counted_more (json_below entry) (populated_below entry)
                                  stats stats') entries).
    { rewrite forallb_forall in Hreadable. rewrite List.Forall_forall in IH.
      apply List.Forall_forall. intros e He stats0.
      apply IH; [exact He|apply Hreadable, He]. }
    destruct (for_each_counted _ _ _ entries Hall stats1) as (stats2 & Hrun2 & Hcount2).
    exists stats2. split.
    + unfold bind. rewrite Hrun1. exact Hrun2.
    + exact (counted_more_trans _ _ _ _ _ _ _ Hcount1 Hcount2).
Qed.

Lemma countFilesRecursively_readable (entries : list DirEntry) (currentPath : string)
    (stats : DirectoryStats) :
  readable entries = true ->
  exists stats',
    countFilesRecursively (inr entries) currentPath stats = (inr tt, stats')
    /\ counted_more (json_files entries) (populated_directories entries) stats stats'.
Proof.
  intros Hreadable. unfold countFilesRecursively.
  destruct (count_here_counted entries currentPath stats) as (stats1 & Hrun1 & Hcount1).
  assert (Hall : Forall (fun entry => forall stats, exists stats',
                           visit currentPath entry stats = (inr tt, stats')
                           /\ counted_more (json_below entry) (populated_below entry)
                                stats stats') entries).
  { unfold readable in Hreadable. rewrite forallb_forall in Hreadable.
    apply List.Forall_forall. intros e He stats0.
    apply visit_readable, Hreadable, He. }
  destruct (for_each_counted _ _ _ entries Hall stats1) as (stats2 & Hrun2 & Hcount2).
  exists stats2. split.
  - unfold bind. rewrite Hrun1. exact Hrun2.
  - exact (counted_more_trans _ _ _ _ _ _ _ Hcount1 Hcount2).
Qed.

(** Whatever happens, a traversal leaves the average alone. *)
Lemma for_each_average (body : DirEntry -> M DirectoryStats unit)
    (entries : list DirEntry) :
  Forall (fun entry => forall stats,
            DirectoryStats.averageFilesPerDirectory (body entry stats).2
            = DirectoryStats.averageFilesPerDirectory stats) entries ->
  forall stats,
    DirectoryStats.averageFilesPerDirectory (for_each body entries stats).2
    = DirectoryStats.averageFilesPerDirectory stats.
Proof.
  intros Hall. induction Hall as [|entry entries Hentry _ IH]; intros stats;
    [reflexivity|].
  cbn [for_each]. unfold bind. specialize (Hentry stats).
  destruct (body entry stats) as [[error|[]] stats1]; cbn [snd] in *.
  - exact Hentry.
  - rewrite IH. exact Hentry.
Qed.

Lemma count_here_average (entries : list DirEntry) (currentPath : string)
    (stats : DirectoryStats) :
  count_here entries currentPath stats = (inr tt, (count_here entries currentPath stats).2)
  /\ DirectoryStats.averageFilesPerDirectory (count_here entries currentPath stats).2
     = DirectoryStats.averageFilesPerDirectory stats.
Proof.
  destruct (count_here_counted entries currentPath stats) as (stats1 & -> & _ & _ & H & _).
  split; [reflexivity|exact H].
Qed.

Lemma visit_average (entry : DirEntry) :
  forall currentPath stats,
    DirectoryStats.averageFilesPerDirectory (visit currentPath entry stats).2
    = DirectoryStats.averageFilesPerDirectory stats.
Proof.
  induction entry as [name|name|name error|name entries IH] using DirEntry_tree_ind;
    intros currentPath stats; try reflexivity.
  cbn [visit]. set (subCurrentPath := if truthy_str (Some currentPath) then _ else _).
  unfold bind. destruct (count_here_average entries subCurrentPath stats) as [-> Haverage].
  rewrite for_each_average; [exact Haverage|].
  apply List.Forall_forall. rewrite List.Forall_forall in IH.
  intros e He stats0. apply IH, He.
Qed.

Lemma countFilesRecursively_average (root : string + list DirEntry)
    (currentPath : string) (stats : DirectoryStats) :
  DirectoryStats.averageFilesPerDirectory
    (countFilesRecursively root currentPath stats).2
  = DirectoryStats.averageFilesPerDirectory stats.
Proof.
  destruct root as [error|entries]; [reflexivity|]. unfold countFilesRecursively, bind.
  destruct (count_here_average entries currentPath stats) as [-> Haverage].
  rewrite for_each_average; [exact Haverage|].
  apply List.Forall_forall. intros e _ stats0. apply visit_average.
Qed.

(** A directory that cannot be read makes the traversal throw. *)
Lemma for_each_throws (body : DirEntry -> M DirectoryStats unit)
    (good : DirEntry -> bool) (entries : list DirEntry) :
  Forall (fun entry => forall stats,
            if good entry then exists stats', body entry stats = (inr tt, stats')
            else exists error stats', body entry stats = (inl error, stats')) entries ->
  forallb good entries = false ->
  forall stats, exists error stats',
    for_each body entries stats = (inl error, stats').
Proof.
  intros Hall. induction Hall as [|entry entries Hentry _ IH]; intros Hgood stats;
    [discriminate|].
  cbn [forallb for_each] in *. unfold bind. specialize (Hentry stats).
  destruct (good entry).
  - destruct Hentry as (stats1 & ->). apply IH. exact Hgood.
  - destruct Hentry as (error & stats1 & ->). eauto.
Qed.

Lemma visit_outcome (entry : DirEntry) :
  forall currentPath stats,
    if readable_entry entry
    then exists stats', visit currentPath entry stats = (inr tt, stats')
    else exists error stats', visit currentPath entry stats = (inl error, stats').
Proof.
  induction entry as [name|name|name error|name entries IH] using DirEntry_tree_ind;
    intros currentPath stats.
  - cbn. eauto.
  - cbn. eauto.
  - cbn. eauto.
  - destruct (readable_entry (DirectoryEntry name (inr entries))) eqn:Hreadable.
    + destruct (visit_readable _ Hreadable currentPath stats) as (stats' & H & _).
      eauto.
    + cbn [readable_entry] in Hreadable. cbn [visit].
      set (subCurrentPath := if truthy_str (Some currentPath) then _ else _).
      unfold bind.
      destruct (count_here_average entries subCurrentPath stats) as [-> _].
      apply (for_each_throws _ readable_entry); [|exact Hreadable].
      apply List.Forall_forall. rewrite List.Forall_forall in IH.
      intros e He stats0. apply IH, He.
Qed.

Lemma countFilesRecursively_throws (entries : list DirEntry) (currentPath : string)
    (stats : DirectoryStats) :
  readable entries = false ->
  exists error stats',
    countFilesRecursively (inr entries) currentPath stats = (inl error, stats').
Proof.
  intros Hreadable. unfold countFilesRecursively, bind.
  destruct (count_here_average entries currentPath stats) as [-> _].
  apply (for_each_throws _ readable_entry); [|exact Hreadable].
  apply List.Forall_forall. intros e _ stats0. apply visit_outcome.
Qed.

End Distribution.

(** X16. On a tree in which every directory can be read,
    [analyzeDirectoryDistribution] reports as [totalFiles] the number of
    [.json] files of the whole tree, as [totalDirectories] the number of
    directories (the base directory included) that hold such a file
    directly, and as average their quotient, or 0 when there is no such
    directory.  The reported extremes are in line with these totals:
    without any [.json] file everything is 0; otherwise the least
    number of files in a directory is at least 1 and at most the
    greatest, and the total lies between the least and the greatest
    number times the number of directories. *)
Theorem analyzeDirectoryDistribution_counts_the_tree
    (entries : list DirEntry) (Hreadable : readable entries = true) :
  let stats := analyzeDirectoryDistribution (inr entries) in
  DirectoryStats.totalFiles stats = json_files entries
  /\ DirectoryStats.totalDirectories stats = populated_directories entries
  /\ DirectoryStats.averageFilesPerDirectory stats
     = (if (0 <? populated_directories entries)%nat
        then (inject_Z (Z.of_nat (json_files entries))
              / inject_Z (Z.of_nat (populated_directories entries)))%Q
        else 0%Q)
  /\ exists least,
       DirectoryStats.minFilesInDirectory stats = Some least
       /\ if (0 <? DirectoryStats.totalDirectories stats)%nat
          then (1 <= least <= DirectoryStats.maxFilesInDirectory stats)%nat
               /\ (least * DirectoryStats.totalDirectories stats
                   <= DirectoryStats.totalFiles stats
                   <= DirectoryStats.maxFilesInDirectory stats
                      * DirectoryStats.totalDirectories stats)%nat
          else least = 0%nat
               /\ DirectoryStats.maxFilesInDirectory stats = 0%nat
               /\ DirectoryStats.totalFiles stats = 0%nat.
Proof.
  intros stats. subst stats. unfold analyzeDirectoryDistribution.
  destruct (countFilesRecursively_readable entries ""
              (DirectoryStats.mk 0 0 0 0 None ∅) Hreadable)
    as (stats' & -> & Hfiles & Hdirs & _ & Hspread).
  assert (Hok : spread_ok stats').
  { apply Hspread. unfold spread_ok. cbn. repeat split. }
  unfold spread_ok in Hok.
  cbn [DirectoryStats.totalFiles DirectoryStats.totalDirectories
       DirectoryStats.averageFilesPerDirectory
       DirectoryStats.maxFilesInDirectory DirectoryStats.minFilesInDirectory] in *.
  split; [rewrite Hfiles; reflexivity|].
  split; [rewrite Hdirs; reflexivity|].
  split; [rewrite Hfiles, Hdirs; reflexivity|].
  destruct (DirectoryStats.minFilesInDirectory stats') as [least|].
  - exists least. split; [reflexivity|]. destruct Hok as (Hd & Hl & Hf).
    destruct (Nat.ltb_spec 0 (DirectoryStats.totalDirectories stats')); [|lia].
    split; [exact Hl|exact Hf].
  - exists 0%nat. split; [reflexivity|]. destruct Hok as (-> & -> & ->).
    cbn. repeat split.
Qed.

(** The example tree: three [.json] files in two directories, one of
    two files and one of one file. *)
Lemma analyzeDirectoryDistribution_counts_the_tree_witness :
  let stats := analyzeDirectoryDistribution (inr exampleTree) in
  readable exampleTree = true
  /\ DirectoryStats.totalFiles stats = 3%nat
  /\ DirectoryStats.totalDirectories stats = 2%nat
  /\ DirectoryStats.maxFilesInDirectory stats = 2%nat
  /\ exists least,
       DirectoryStats.minFilesInDirectory stats = Some least
       /\ (1 <= least <= 2)%nat.
Proof.
  intros stats. subst stats. split; [reflexivity|].
  destruct (analyzeDirectoryDistribution_counts_the_tree exampleTree eq_refl)
    as (Hfiles & Hdirs & _ & least & Hleast & Hbounds).
  split; [rewrite Hfiles; reflexivity|]. split; [rewrite Hdirs; reflexivity|].
  split; [reflexivity|].
  exists least. split; [exact Hleast|].
  destruct Hbounds as [Hbounds _]. exact Hbounds.
Defined.

(** X17. [analyzeDirectoryDistribution] never throws.
    When [readdir] fails, on the base directory or on any directory
    below it, the result keeps what was counted up to the failure, with
    [minFilesInDirectory] set to 0 and the average left at 0, even when
    files were counted. *)
Theorem analyzeDirectoryDistribution_after_failure
    (root : string + list DirEntry)
    (Hfails : match root with
              | inl _ => True
              | inr entries => readable entries = false
              end) :
  let stats := analyzeDirectoryDistribution root in
  DirectoryStats.minFilesInDirectory stats = Some 0%nat
  /\ DirectoryStats.averageFilesPerDirectory stats = 0%Q.
Proof.
  intros stats. subst stats. unfold analyzeDirectoryDistribution.
  pose proof (countFilesRecursively_average root ""
                (DirectoryStats.mk 0 0 0 0 None ∅)) as Haverage.
  destruct root as [error|entries].
  - cbn. split; reflexivity.
  - destruct (countFilesRecursively_throws entries ""
                (DirectoryStats.mk 0 0 0 0 None ∅) Hfails) as (error & stats' & Hrun).
    rewrite Hrun in *. cbn in *. split; [reflexivity|exact Haverage].
Qed.

(** The example tree with a shard that cannot be read: three files are
    counted, and the average is 0. *)
Lemma analyzeDirectoryDistribution_after_failure_witness :
  readable brokenTree = false
  /\ DirectoryStats.totalFiles (analyzeDirectoryDistribution (inr brokenTree)) = 3%nat
  /\ DirectoryStats.minFilesInDirectory (analyzeDirectoryDistribution (inr brokenTree))
     = Some 0%nat
  /\ DirectoryStats.averageFilesPerDirectory
       (analyzeDirectoryDistribution (inr brokenTree)) = 0%Q.
Proof.
  split; [reflexivity|]. split; [reflexivity|].
  exact (analyzeDirectoryDistribution_after_failure (inr brokenTree) eq_refl).
Defined.

(** X18. [determineOptimalDirectoryLevels] always answers
    with a depth between 2 and 6.  An estimate of 0 counts as no
    estimate; without an estimate the files found under the data
    directory are taken, and 100000 when the directory is missing or
    holds no [.json] file, which gives the depth 2. *)
Theorem determineOptimalDirectoryLevels_plans_for_100000
    (dataDirectoryExists : bool) (root : string + list DirEntry)
    (estimatedTotalFiles : option Z) :
  (exists depth,
      determineOptimalDirectoryLevels dataDirectoryExists root estimatedTotalFiles
      = Some depth
      /\ 2 <= depth <= 6)
  /\ determineOptimalDirectoryLevels dataDirectoryExists root (Some 0)
     = determineOptimalDirectoryLevels dataDirectoryExists root None
  /\ determineOptimalDirectoryLevels false root None = Some 2
  /\ (DirectoryStats.totalFiles (analyzeDirectoryDistribution root) = 0%nat ->
      determineOptimalDirectoryLevels dataDirectoryExists root None = Some 2)
  /\ (forall estimate, estimate <> 0 ->
        determineOptimalDirectoryLevels dataDirectoryExists root (Some estimate)
        = calculateOptimalDirectoryLevels estimate).
Proof.
  split; [|split; [|split; [|split]]].
  - unfold determineOptimalDirectoryLevels.
    rewrite calculateOptimalDirectoryLevels_total. eexists. split; [reflexivity|].
    match goal with |- context [depth_by_fan_out 65536 ?n] =>
      pose proof (depth_by_fan_out_cases n) as H end.
    lia.
  - reflexivity.
  - reflexivity.
  - intros Hnone. unfold determineOptimalDirectoryLevels. rewrite Hnone.
    destruct dataDirectoryExists; reflexivity.
  - intros estimate Hestimate. unfold determineOptimalDirectoryLevels.
    apply Z.eqb_neq in Hestimate. rewrite Hestimate. reflexivity.
Qed.

(** ** The cursor file and the snapshot store *)

Section StoreRoundTrips.

Context {platform : Platform.t}.
Variable env : Env.

Lemma appends_after_open (path content : string) (files : gmap string string)
    (dirs : gset string) :
  run_steps
    (map (fun c => Append path (String c EmptyString))
       (String.list_ascii_of_string content))
    (FS.mk (<[path := ""]> files) dirs)
  = FS.mk (<[path := content]> files) dirs.
Proof. exact (writeFile_steps_complete path content (FS.mk files dirs)). Qed.

Lemma saveCursor_returns (filePath cursor : string) (w w' : World) :
  saveCursor env filePath cursor w = (inr tt, w') ->
  FS.files (World.fs w') !! filePath = Some cursor.
Proof.
  cbv [saveCursor try_catch bind emit modify ensureDir writeFile tick set_fs ret throw].
  cbn [fst snd World.clock World.fs World.events World.filter].
  destruct (ensureDir_error env _ _); [discriminate|].
  cbn [fst snd World.clock World.fs World.events World.filter].
  destruct (writeFile_error env _ _); [discriminate|].
  cbn [fst snd World.clock World.fs World.events World.filter].
  intros [= <-]. cbn [World.fs]. rewrite appends_after_open. apply lookup_insert_eq.
Qed.

Lemma saveContractData_returns (dataDirectory rawAddress : string) (data : Data)
    (filePath : string) (w w' : World) :
  saveContractData env dataDirectory rawAddress data w = (inr filePath, w') ->
  filePath = storeFileOf dataDirectory rawAddress
  /\ FS.files (World.fs w') !! filePath = Some (JSON_stringify data).
Proof.
  cbv [saveContractData try_catch bind emit modify ensureDir writeFile tick set_fs ret
         throw].
  cbn [fst snd World.clock World.fs World.events World.filter].
  destruct (ensureDir_error env _ _); [discriminate|].
  cbn [fst snd World.clock World.fs World.events World.filter].
  destruct (writeFile_error env _ _); [discriminate|].
  cbn [fst snd World.clock World.fs World.events World.filter].
  intros [= <- <-]. split; [reflexivity|].
  cbn [World.fs]. rewrite appends_after_open. apply lookup_insert_eq.
Qed.

Lemma contractFileExists_run (dataDirectory rawAddress : string) (w : World) :
  contractFileExists dataDirectory rawAddress w
  = (inr (FS.pathExists (World.fs w) (storeFileOf dataDirectory rawAddress)),
     World.mk (World.fs w) (World.filter w) (S (World.clock w)) (World.events w)).
Proof. reflexivity. Qed.

(** What [readCursor] has found when it returns null: no file and no
    directory at the path, or a file with nothing but white space. *)
Lemma readCursor_null (filePath : string) (w w' : World) :
  readCursor env filePath w = (inr None, w') ->
  World.fs w' = World.fs w
  /\ (FS.pathExists (World.fs w) filePath = false
      \/ exists content,
           FS.files (World.fs w) !! filePath = Some content
           /\ js_trim content = "").
Proof.
  cbv [readCursor try_catch bind pathExists readFile tick get_fs ret emit modify throw].
  cbn [fst snd World.clock World.fs World.events World.filter].
  destruct (FS.pathExists (World.fs w) filePath) eqn:Hexists.
  - cbn [fst snd World.clock World.fs World.events World.filter].
    destruct (readFile_error env _ _); [discriminate|].
    destruct (FS.files (World.fs w) !! filePath) as [content|] eqn:Hfile;
      [|discriminate].
    cbn [fst snd World.clock World.fs World.events World.filter].
    destruct (String.eqb (js_trim content) "") eqn:Hblank; [|discriminate].
    intros [= <-]. split; [reflexivity|]. right. exists content.
    split; [reflexivity|]. apply String.eqb_eq, Hblank.
  - cbn [fst snd World.clock World.fs World.events World.filter].
    intros [= <-]. split; [reflexivity|]. left. reflexivity.
Qed.

End StoreRoundTrips.

(** X19. A cursor [saveCursor] has saved is what
    [readCursor] reads back from the same path when the file can be
    read: the cursor without its surrounding white space, and null when
    nothing else is left of it.  Reading does not change the file
    system. *)
Theorem saved_cursor_is_read_back
    {platform : Platform.t} (env : Env) (filePath cursor : string) (w w1 : World)
    (Hsaved : saveCursor env filePath cursor w = (inr tt, w1))
    (Hreadable : forall t path, readFile_error env t path = None) :
  exists w2,
    readCursor env filePath w1
    = (inr (if String.eqb (js_trim cursor) "" then None else Some (js_trim cursor)),
       w2)
    /\ World.fs w2 = World.fs w1.
Proof.
  apply saveCursor_returns in Hsaved.
  exact (readCursor_present env filePath cursor w1 Hreadable Hsaved).
Qed.

(** The cursor [" c1 "] is read back as [c1]. *)
Lemma saved_cursor_is_read_back_witness :
  exists w1 w2,
    saveCursor (platform := examplePlatform) lastPageEnv "./cursor.txt" " c1 "
      World.initial = (inr tt, w1)
    /\ readCursor (platform := examplePlatform) lastPageEnv "./cursor.txt" w1
       = (inr (Some "c1"), w2).
Proof.
  eexists.
  assert (Hsaved : saveCursor (platform := examplePlatform) lastPageEnv "./cursor.txt"
                     " c1 " World.initial = (inr tt, _)) by (vm_compute; reflexivity).
  destruct (saved_cursor_is_read_back (platform := examplePlatform) lastPageEnv
              "./cursor.txt" " c1 " World.initial _ Hsaved (fun _ _ => eq_refl))
    as (w2 & Hread & _).
  exists w2. split; [exact Hsaved|exact Hread].
Defined.

(** X20. When [saveContractData] returns, the path it
    returns is the one [contractFileExists] looks at, the file there
    holds the serialization of the data, and [contractFileExists]
    answers true from then on, as long as the file is not removed. *)
Theorem saved_contract_is_found
    {platform : Platform.t} (env : Env) (dataDirectory rawAddress : string)
    (data : Data) (filePath : string) (w w1 : World)
    (Hsaved : saveContractData env dataDirectory rawAddress data w = (inr filePath, w1)) :
  filePath = storeFileOf dataDirectory rawAddress
  /\ FS.files (World.fs w1) !! filePath = Some (JSON_stringify data)
  /\ forall w2,
       is_Some (FS.files (World.fs w2) !! filePath) ->
       (contractFileExists dataDirectory rawAddress w2).1 = inr true.
Proof.
  apply saveContractData_returns in Hsaved as [-> Hfile].
  split; [reflexivity|]. split; [exact Hfile|].
  intros w2 Hstill. rewrite contractFileExists_run. cbn [fst]. f_equal.
  unfold FS.pathExists. rewrite bool_decide_eq_true_2 by exact Hstill. reflexivity.
Qed.

(** Saving the snapshot [{}] of [address1]. *)
Lemma saved_contract_is_found_witness :
  exists w1,
    saveContractData (platform := examplePlatform) lastPageEnv "./data" address1 "{}"
      World.initial
    = (inr (flat_filePathOf (String.concat "/") "./data" address1), w1)
    /\ (contractFileExists (platform := examplePlatform) "./data" address1
          w1).1 = inr true.
Proof.
  eexists.
  assert (Hsaved : saveContractData (platform := examplePlatform) lastPageEnv "./data"
                     address1 "{}" World.initial
                   = (inr (flat_filePathOf (String.concat "/") "./data" address1), _))
    by (vm_compute; reflexivity).
  split; [exact Hsaved|].
  destruct (saved_contract_is_found (platform := examplePlatform) lastPageEnv "./data"
              address1 "{}" _ World.initial _ Hsaved) as (_ & Hfile & Hfound).
  apply Hfound. rewrite Hfile. eauto.
Defined.

(** ** The paths of a task *)

Section TaskPaths.

Context {platform : Platform.t}.
Variable env : Env.
Variable config : IndexerConfig.

Lemma run_to_await_filter (index : nat) (a : string) (w : World)
    (r : FilterResult) (st' : FilterState) :
  shouldProcessAddress RegExp RegExp_new RegExp_test (customSkipPatterns env) a
    (World.filter w) = (inr r, st') ->
  run_to_await env index (processAccount config a) w
  = if FilterResult.shouldProcess r
    then (Running (afterFilter config a),
          World.mk (World.fs w) st' (World.clock w) (World.events w))
    else (Fulfilled (filteredResult a r),
          World.mk (World.fs w) st' (World.clock w)
            (World.events w ++ [TaskSettled index (filteredResult a r)])).
Proof.
  intros Hfilter. unfold processAccount, call. cbn [prog_bind prog_try run_to_await is_sync].
  unfold exec_op. cbn [perform]. unfold runFilter. rewrite Hfilter.
  cbn [prog_bind prog_try]. destruct (FilterResult.shouldProcess r); reflexivity.
Qed.

Lemma resume_afterFilter (index : nat) (a : string) (w : World) :
  resume env index (afterFilter config a) w
  = let w1 := World.mk (World.fs w) (World.filter w) (S (World.clock w))
                (World.events w) in
    if FS.pathExists (World.fs w)
         (storeFileOf (IndexerConfig.dataDirectory config) a)
    then (Fulfilled (existingResult a),
          World.mk (World.fs w) (World.filter w) (S (World.clock w))
            (World.events w ++ [TaskSettled index (existingResult a)]))
    else (Running (afterCheck config a), w1).
Proof.
  unfold afterFilter, call. cbn [prog_bind prog_try resume].
  unfold exec_op. cbn [perform]. rewrite contractFileExists_run.
  cbn [prog_bind prog_try].
  destruct (FS.pathExists _ _); reflexivity.
Qed.

Lemma resume_afterCheck (index : nat) (a : string) (w : World) :
  resume env index (afterCheck config a) w
  = let w1 := World.mk (World.fs w) (World.filter w) (S (World.clock w))
                (World.events w) in
    match inspectContract env (World.clock w) a with
    | inr data => (Running (afterInspect config a data), w1)
    | inl e =>
        (Fulfilled (failedResult a e),
         World.mk (World.fs w) (World.filter w) (S (World.clock w))
           ((World.events w ++ [OperationThrew index a e])
              ++ [TaskSettled index (failedResult a e)]))
    end.
Proof.
  unfold afterCheck, call. cbn [prog_bind prog_try resume].
  unfold exec_op. cbn [perform op_address].
  cbv [callInspect bind tick ret throw]. cbn [fst snd World.clock].
  destruct (inspectContract env (World.clock w) a); reflexivity.
Qed.

Lemma resume_afterInspect (index : nat) (a : string) (data : Data) (w : World) :
  resume env index (afterInspect config a data) w
  = match saveContractData env (IndexerConfig.dataDirectory config) a data w with
    | (inr filePath, w') =>
        (Fulfilled (savedResult a filePath),
         World.mk (World.fs w') (World.filter w') (World.clock w')
           (World.events w' ++ [TaskSettled index (savedResult a filePath)]))
    | (inl e, w') =>
        (Fulfilled (failedResult a e),
         World.mk (World.fs w') (World.filter w') (World.clock w')
           ((World.events w' ++ [OperationThrew index a e])
              ++ [TaskSettled index (failedResult a e)]))
    end.
Proof.
  unfold afterInspect, call. cbn [prog_bind prog_try resume].
  unfold exec_op. cbn [perform op_address].
  destruct (saveContractData env (IndexerConfig.dataDirectory config) a data w)
    as [[e|filePath] w']; reflexivity.
Qed.

(** A batch of one task: each turn of the event loop resumes it. *)
Lemma turn_single (limit : nat) (p : Prog ProcessingResult) (w : World) :
  (forall a, (resume env 0 p w).1 <> Queued a) ->
  turn env config limit [Running p] w = ([(resume env 0 p w).1], (resume env 0 p w).2).
Proof.
  intros Hslot. unfold turn. cbn [running_from length].
  rewrite Nat.mod_1_r. cbn [lookup list_lookup].
  destruct (resume env 0 p w) as [slot w'] eqn:Hresume. cbn [fst snd] in *.
  cbn [length list_insert insert]. rewrite fill_S.
  destruct (activeCount [slot] <? limit)%nat; [|reflexivity].
  destruct slot as [a| | |]; [exfalso; exact (Hslot a eq_refl)|reflexivity..].
Qed.

Lemma await_all_single_turn (fuel limit : nat) (p : Prog ProcessingResult) (w : World) :
  (forall a, (resume env 0 p w).1 <> Queued a) ->
  await_all env config (S fuel) limit [Running p] w
  = await_all env config fuel limit [(resume env 0 p w).1] (resume env 0 p w).2.
Proof.
  intros Hslot. rewrite await_all_unfold. cbn [first_rejection all_fulfilled].
  rewrite (turn_single limit p w Hslot). reflexivity.
Qed.

Lemma await_all_single_done (fuel limit : nat) (r : ProcessingResult) (w : World) :
  await_all env config fuel limit [Fulfilled r] w = (Returned [r], w).
Proof. rewrite await_all_unfold. reflexivity. Qed.

End TaskPaths.

(** X21. A task whose address the filter rejects settles
    as soon as it is started, with a result that is a success marked
    skipped and carries the reason ([Filtered: <reason>]).  It makes no
    call to the outside and leaves the file system alone: only the
    statistics of the filter and the trace change. *)
Theorem filtered_address_settles_at_once
    {platform : Platform.t} (env : Env) (config : IndexerConfig)
    (index : nat) (a : string) (w : World) (r : FilterResult) (st' : FilterState)
    (Hfilter : shouldProcessAddress RegExp RegExp_new RegExp_test
                 (customSkipPatterns env) a (World.filter w) = (inr r, st'))
    (Hskip : FilterResult.shouldProcess r = false) :
  run_to_await env index (processAccount config a) w
  = (Fulfilled (filteredResult a r),
     World.mk (World.fs w) st' (World.clock w)
       (World.events w ++ [TaskSettled index (filteredResult a r)]))
  /\ ProcessingResult.success (filteredResult a r) = true
  /\ ProcessingResult.skipped (filteredResult a r) = Some true.
Proof.
  rewrite (run_to_await_filter env config index a w r st' Hfilter), Hskip.
  repeat split.
Qed.

(** The address of workchain -2 of the examples. *)
Lemma filtered_address_settles_at_once_witness :
  exists st' w',
    run_to_await (platform := examplePlatform) failingEnv 2
      (processAccount exampleConfig address3) World.initial
    = (Fulfilled (ProcessingResult.mk address3 true (Some "Filtered: masterchain_system")
                    (Some true) None), w')
    /\ World.filter w' = st'
    /\ World.fs w' = World.fs World.initial
    /\ World.clock w' = World.clock World.initial.
Proof.
  eexists _, _.
  assert (Hfilter : shouldProcessAddress (RegExp (t := examplePlatform))
                      (RegExp_new (t := examplePlatform))
                      (RegExp_test (t := examplePlatform))
                      (customSkipPatterns failingEnv) address3
                      (World.filter World.initial)
                    = (inr (FilterResult.mk false (Some "masterchain_system")), _))
    by (vm_compute; reflexivity).
  destruct (filtered_address_settles_at_once (platform := examplePlatform) failingEnv
              exampleConfig 2 address3 World.initial _ _ Hfilter eq_refl)
    as (Hrun & _).
  split; [exact Hrun|]. repeat split.
Defined.

(** X22. A task whose address the filter lets through is
    suspended on the check for an existing snapshot.  When the snapshot
    file is there at the time of the check, the task settles with a
    success marked skipped after that one look at the file system: no
    request is sent and nothing is written. *)
Theorem stored_address_is_not_fetched_again
    {platform : Platform.t} (env : Env) (config : IndexerConfig)
    (index : nat) (a : string) (w : World) (r : FilterResult) (st' : FilterState)
    (Hfilter : shouldProcessAddress RegExp RegExp_new RegExp_test
                 (customSkipPatterns env) a (World.filter w) = (inr r, st'))
    (Hpass : FilterResult.shouldProcess r = true) :
  run_to_await env index (processAccount config a) w
  = (Running (afterFilter config a),
     World.mk (World.fs w) st' (World.clock w) (World.events w))
  /\ forall w2,
       FS.pathExists (World.fs w2) (storeFileOf (IndexerConfig.dataDirectory config) a)
       = true ->
       resume env index (afterFilter config a) w2
       = (Fulfilled (existingResult a),
          World.mk (World.fs w2) (World.filter w2) (S (World.clock w2))
            (World.events w2 ++ [TaskSettled index (existingResult a)])).
Proof.
  rewrite (run_to_await_filter env config index a w r st' Hfilter), Hpass.
  split; [reflexivity|]. intros w2 Hexists.
  rewrite resume_afterFilter. cbv zeta. rewrite Hexists. reflexivity.
Qed.

(** [address1], whose snapshot is in [storedWorld]. *)
Lemma stored_address_is_not_fetched_again_witness :
  exists st',
    shouldProcessAddress (RegExp (t := examplePlatform))
      (RegExp_new (t := examplePlatform)) (RegExp_test (t := examplePlatform))
      (customSkipPatterns lastPageEnv) address1 (World.filter World.initial)
    = (inr (FilterResult.mk true None), st')
    /\ resume (platform := examplePlatform) lastPageEnv 0
         (afterFilter exampleConfig address1) storedWorld
       = (Fulfilled (existingResult address1),
          World.mk (World.fs storedWorld) (World.filter storedWorld) 1
            [TaskSettled 0 (existingResult address1)]).
Proof.
  eexists.
  assert (Hfilter : shouldProcessAddress (RegExp (t := examplePlatform))
                      (RegExp_new (t := examplePlatform))
                      (RegExp_test (t := examplePlatform))
                      (customSkipPatterns lastPageEnv) address1
                      (World.filter World.initial)
                    = (inr (FilterResult.mk true None), _))
    by (vm_compute; reflexivity).
  split; [exact Hfilter|].
  destruct (stored_address_is_not_fetched_again (platform := examplePlatform)
              lastPageEnv exampleConfig 0 address1 World.initial _ _ Hfilter eq_refl)
    as (_ & Hresume).
  apply (Hresume storedWorld). vm_compute. reflexivity.
Defined.

(** X23. A page of one address that the filter lets through
    and that has no snapshot yet: when the detail request is answered
    and the store accepts the write, the batch returns the one result, a
    success that is not skipped, with the path of the snapshot; the file
    system has gained the store directory and the snapshot file with
    the serialization of the answer, and nothing else. *)
Theorem single_address_is_fetched_and_stored
    {platform : Platform.t} (env : Env) (config : IndexerConfig)
    (a : string) (w : World) (r : FilterResult) (st' : FilterState) (data : Data)
    (Hlimit : 1 <= IndexerConfig.maxConcurrentRequests config)
    (Hfilter : shouldProcessAddress RegExp RegExp_new RegExp_test
                 (customSkipPatterns env) a (World.filter w) = (inr r, st'))
    (Hpass : FilterResult.shouldProcess r = true)
    (Habsent : FS.pathExists (World.fs w)
                 (storeFileOf (IndexerConfig.dataDirectory config) a) = false)
    (Hinspect : inspectContract env (S (World.clock w)) a = inr data)
    (Hdir : ensureDir_error env (S (S (World.clock w)))
              (storeDirOf (IndexerConfig.dataDirectory config) a) = None)
    (Hwrite : writeFile_error env (S (S (S (World.clock w))))
                (storeFileOf (IndexerConfig.dataDirectory config) a) = None) :
  let filePath := storeFileOf (IndexerConfig.dataDirectory config) a in
  exists w',
    processAccountsBatch env config [a] w = (Returned [savedResult a filePath], w')
    /\ World.fs w'
       = FS.mk (<[filePath := JSON_stringify data]> (FS.files (World.fs w)))
           ({[storeDirOf (IndexerConfig.dataDirectory config) a]}
              ∪ FS.dirs (World.fs w))
    /\ World.events w' = (World.events w ++ [TaskSettled 0 (savedResult a filePath)])%list.
Proof.
  intros filePath. unfold processAccountsBatch.
  set (limit := Z.to_nat (IndexerConfig.maxConcurrentRequests config)).
  assert (Hfree : (0 <? limit)%nat = true) by (apply Nat.ltb_lt; lia).
  cbn [length map]. rewrite fill_S. cbn [activeCount running_from length].
  rewrite Hfree. cbn [first_queued_from].
  rewrite (run_to_await_filter env config 0 a w r st' Hfilter), Hpass.
  cbn [fst snd list_insert insert fill Nat.mul Nat.add].
  (* the check for an existing snapshot *)
  rewrite await_all_single_turn;
    rewrite resume_afterFilter; cbv zeta; cbn [World.fs]; rewrite Habsent;
    [|intros a'; discriminate].
  cbn [fst snd World.fs World.filter World.clock World.events].
  (* the detail request *)
  rewrite await_all_single_turn;
    rewrite resume_afterCheck; cbv zeta; cbn [World.clock]; rewrite Hinspect;
    [|intros a'; discriminate].
  cbn [fst snd World.fs World.filter World.clock World.events].
  (* the write *)
  assert (Hsave : saveContractData env (IndexerConfig.dataDirectory config) a data
                    (World.mk (World.fs w) st' (S (S (World.clock w))) (World.events w))
                  = (inr filePath,
                     World.mk
                       (FS.mk (<[filePath := JSON_stringify data]> (FS.files (World.fs w)))
                          ({[storeDirOf (IndexerConfig.dataDirectory config) a]}
                             ∪ FS.dirs (World.fs w)))
                       st' (S (S (S (S (World.clock w))))) (World.events w))).
  { cbv [saveContractData try_catch bind emit modify ensureDir writeFile tick set_fs ret
           throw].
    cbn [fst snd World.clock World.fs World.events World.filter].
    rewrite Hdir. cbn [fst snd World.clock World.fs World.events World.filter].
    rewrite Hwrite. cbn [fst snd World.clock World.fs World.events World.filter].
    rewrite writeFile_steps_complete. reflexivity. }
  rewrite await_all_single_turn; rewrite resume_afterInspect, Hsave;
    [|intros a'; discriminate].
  cbn [fst snd World.fs World.filter World.clock World.events].
  rewrite await_all_single_done.
  eexists. split; [reflexivity|]. split; reflexivity.
Qed.

(** [address1] against a source that answers, on an empty disk. *)
Lemma single_address_is_fetched_and_stored_witness :
  let filePath := flat_filePathOf (String.concat "/") "./data" address1 in
  exists w',
    processAccountsBatch (platform := examplePlatform) lastPageEnv exampleConfig
      [address1] World.initial
    = (Returned [savedResult address1 filePath], w')
    /\ World.fs w' = FS.mk {[ filePath := "{}" ]} ({[ "./data" ]} ∪ ∅).
Proof.
  intros filePath.
  assert (Hfilter : shouldProcessAddress (RegExp (t := examplePlatform))
                      (RegExp_new (t := examplePlatform))
                      (RegExp_test (t := examplePlatform))
                      (customSkipPatterns lastPageEnv) address1
                      (World.filter World.initial)
                    = (inr (FilterResult.mk true None),
                       FilterState.mk 1 1 0 ∅ []))
    by (vm_compute; reflexivity).
  destruct (single_address_is_fetched_and_stored (platform := examplePlatform)
              lastPageEnv exampleConfig address1 World.initial _ _ "{}"
              ltac:(vm_compute; discriminate) Hfilter eq_refl
              ltac:(vm_compute; reflexivity) eq_refl eq_refl eq_refl)
    as (w' & Hrun & Hfs & _).
  exists w'. split; [exact Hrun|]. rewrite Hfs. reflexivity.
Defined.

(** ** The batch summary *)

Section SummaryBuckets.

Lemma summary_step_buckets (s : BatchSummary) (r : ProcessingResult) :
  summary_step s r
  = BatchSummary.mk (BatchSummary.total s)
      (BatchSummary.successful s + (if is_successful r then 1 else 0))
      (BatchSummary.failed s + (if is_failed r then 1 else 0))
      (BatchSummary.skipped s + (if is_skipped r then 1 else 0))
      (BatchSummary.errors s ++ option_list (listed_error r)).
Proof.
  destruct s as [t su f sk er]. unfold summary_step, is_successful, is_failed,
    is_skipped, listed_error. cbn [BatchSummary.total BatchSummary.successful
    BatchSummary.failed BatchSummary.skipped BatchSummary.errors].
  destruct (ProcessingResult.success r); cbn [andb negb].
  - destruct (truthy_bool (ProcessingResult.skipped r)); cbn [negb option_list];
      rewrite ?Nat.add_0_r, ?Nat.add_1_r, ?app_nil_r; reflexivity.
  - destruct (ProcessingResult.error r) as [e|]; cbn [option_list truthy_str].
    + destruct (String.eqb e ""); cbn [negb option_list];
        rewrite ?Nat.add_0_r, ?Nat.add_1_r, ?app_nil_r; reflexivity.
    + rewrite ?Nat.add_0_r, ?Nat.add_1_r, ?app_nil_r. reflexivity.
Qed.

Lemma fold_summary_buckets (results : list ProcessingResult) :
  forall s,
    fold_left summary_step results s
    = BatchSummary.mk (BatchSummary.total s)
        (BatchSummary.successful s + length (List.filter is_successful results))
        (BatchSummary.failed s + length (List.filter is_failed results))
        (BatchSummary.skipped s + length (List.filter is_skipped results))
        (BatchSummary.errors s ++ omap listed_error results).
Proof.
  induction results as [|r results IH]; intros s.
  - destruct s. cbn. rewrite !Nat.add_0_r, app_nil_r. reflexivity.
  - cbn [fold_left]. rewrite IH, summary_step_buckets.
    cbn [BatchSummary.total BatchSummary.successful BatchSummary.failed
         BatchSummary.skipped BatchSummary.errors List.filter omap list_omap].
    f_equal.
    + destruct (is_successful r); cbn [length]; lia.
    + destruct (is_failed r); cbn [length]; lia.
    + destruct (is_skipped r); cbn [length]; lia.
    + rewrite <- app_assoc. f_equal.
      destruct (listed_error r); reflexivity.
Qed.

End SummaryBuckets.

(** X24. What [compileBatchSummary] counts and lists: the
    successes that are not skipped, the failures, the successes marked
    skipped; and in [errors], in the order of the results, exactly the
    failures whose message is not empty.  A failure with an empty or
    absent message is counted in [failed] but not listed. *)
Theorem compileBatchSummary_by_bucket (results : list ProcessingResult) :
  let summary := compileBatchSummary results in
  BatchSummary.successful summary = length (List.filter is_successful results)
  /\ BatchSummary.failed summary = length (List.filter is_failed results)
  /\ BatchSummary.skipped summary = length (List.filter is_skipped results)
  /\ BatchSummary.errors summary = omap listed_error results
  /\ (length (BatchSummary.errors summary) <= BatchSummary.failed summary)%nat.
Proof.
  intros summary. subst summary. unfold compileBatchSummary.
  rewrite fold_summary_buckets.
  cbn [BatchSummary.total BatchSummary.successful BatchSummary.failed
       BatchSummary.skipped BatchSummary.errors Nat.add app].
  split; [reflexivity|]. split; [reflexivity|]. split; [reflexivity|].
  split; [reflexivity|].
  induction results as [|r results IH]; [cbn; lia|].
  cbn [omap list_omap List.filter]. unfold listed_error at 1, is_failed at 1.
  destruct (ProcessingResult.success r); cbn [negb]; [exact IH|].
  destruct (ProcessingResult.error r) as [e|]; [|cbn [length]; lia].
  destruct (String.eqb e ""); cbn [length]; lia.
Qed.

(** ** One iteration, and the complete run *)

Section IterationOutcomes.

Context {platform : Platform.t}.
Variable env : Env.
Variable config : IndexerConfig.

Lemma emit_eq (e : Event) (w : World) :
  emit e w
  = (inr tt, World.mk (World.fs w) (World.filter w) (World.clock w)
               (World.events w ++ [e])%list).
Proof. reflexivity. Qed.

(** The wrappers of fileUtils: what they throw, and what they leave of
    the files. *)
Lemma ensureDataDirectory_outcome (dataDirectory : string) (w : World) :
  FS.files (World.fs (ensureDataDirectory env dataDirectory w).2)
  = FS.files (World.fs w)
  /\ forall e,
       (ensureDataDirectory env dataDirectory w).1 = inl e ->
       exists reason, e = "Failed to create data directory: " ++ reason.
Proof.
  cbv [ensureDataDirectory try_catch bind modify ensureDir tick set_fs ret throw].
  cbn [fst snd World.clock World.fs World.events World.filter].
  destruct (ensureDir_error env _ _) as [reason|];
    cbn [fst snd World.clock World.fs World.events World.filter].
  - split; [reflexivity|]. intros e [= <-]. eauto.
  - split; [reflexivity|]. intros e H. discriminate.
Qed.

Lemma readCursor_outcome (filePath : string) (w : World) :
  World.fs (readCursor env filePath w).2 = World.fs w
  /\ forall e,
       (readCursor env filePath w).1 = inl e ->
       exists reason, e = "Failed to read cursor file: " ++ reason.
Proof.
  cbv [readCursor try_catch bind pathExists readFile tick get_fs ret emit modify throw].
  cbn [fst snd World.clock World.fs World.events World.filter].
  destruct (FS.pathExists (World.fs w) filePath);
    cbn [fst snd World.clock World.fs World.events World.filter].
  - destruct (readFile_error env _ _) as [reason|].
    + cbn. split; [reflexivity|]. intros e [= <-]. eauto.
    + destruct (FS.files (World.fs w) !! filePath) as [content|];
        cbn [fst snd World.clock World.fs World.events World.filter].
      * split; [reflexivity|]. intros e H. discriminate.
      * split; [reflexivity|]. intros e [= <-]. eauto.
  - split; [reflexivity|]. intros e H. discriminate.
Qed.

Lemma saveCursor_outcome (filePath cursor : string) (w : World) :
  forall e,
    (saveCursor env filePath cursor w).1 = inl e ->
    exists reason, e = "Failed to save cursor: " ++ reason.
Proof.
  cbv [saveCursor try_catch bind emit modify ensureDir writeFile tick set_fs ret throw].
  cbn [fst snd World.clock World.fs World.events World.filter].
  destruct (ensureDir_error env _ _) as [reason|];
    cbn [fst snd World.clock World.fs World.events World.filter].
  - intros e [= <-]. eauto.
  - destruct (writeFile_error env _ _) as [reason|];
      cbn [fst snd World.clock World.fs World.events World.filter].
    + intros e [= <-]. eauto.
    + intros e H. discriminate.
Qed.

Lemma callFetchAccounts_outcome (first : Z) (after : option string) (w : World) :
  World.fs (callFetchAccounts env first after w).2 = World.fs w
  /\ exists t after',
       match (callFetchAccounts env first after w).1 with
       | inl e => fetchAccounts env t first after' = inl e
       | inr response => fetchAccounts env t first after' = inr response
       end.
Proof.
  cbv [callFetchAccounts bind tick emit modify ret throw].
  cbn [fst snd World.clock World.fs World.events World.filter].
  destruct (fetchAccounts env (World.clock w) first
              (if truthy_str after then after else None)) as [e|response] eqn:Hfetch;
    cbn [fst snd World.clock World.fs World.events World.filter].
  - split; [reflexivity|]. eexists _, _. exact Hfetch.
  - split; [reflexivity|]. eexists _, _. exact Hfetch.
Qed.

(** The batch of an iteration does not throw, and when it returns it has
    one result per address. *)
Lemma processAccountsBatch_outcome (accounts : list string) (w : World) :
  (processAccountsBatch env config accounts w).1 = Unfinished
  \/ exists results,
       (processAccountsBatch env config accounts w).1 = Returned results
       /\ length results = length accounts.
Proof.
  destruct (processAccountsBatch_partial env config accounts w)
    as (new & bs & slots' & (_ & _ & Hlen & _) & [Hout|(results & Hout & ->)]).
  - left. exact Hout.
  - right. exists results. split; [exact Hout|].
    rewrite length_map in Hlen. exact Hlen.
Qed.

(** What an iteration has done when it returns or throws. *)
Lemma runIteration_outcome (w : World) :
  match (runIteration env config w).1 with
  | Returned result =>
      exists t after response results,
        fetchAccounts env t (IndexerConfig.accountsPerPage config) after = inr response
        /\ length results = length (Page.nodes response)
        /\ IterationResult.summary result = compileBatchSummary results
        /\ match Page.nodes response with
           | [] =>
               result = IterationResult.mk emptySummary false None
               /\ FS.files (World.fs (runIteration env config w).2)
                  = FS.files (World.fs w)
           | _ :: _ =>
               IterationResult.hasNextPage result
               = PageInfo.hasNextPage (Page.pageInfo response)
               /\ IterationResult.endCursor result
                  = PageInfo.endCursor (Page.pageInfo response)
           end
  | Thrown e => iteration_error env e
  | Unfinished => True
  end.
Proof.
  unfold runIteration.
  rewrite bindF_liftF, emit_eq. cbv beta iota.
  set (w0 := World.mk (World.fs w) _ _ _).
  rewrite bindF_liftF.
  destruct (ensureDataDirectory_outcome (IndexerConfig.dataDirectory config) w0)
    as [Hfiles1 Herror1].
  destruct (ensureDataDirectory env (IndexerConfig.dataDirectory config) w0)
    as [[e|[]] w1]; cbn [fst snd] in *.
  { left. exact (Herror1 e eq_refl). }
  rewrite bindF_liftF.
  destruct (readCursor_outcome (IndexerConfig.cursorFilePath config) w1)
    as [Hfs2 Herror2].
  destruct (readCursor env (IndexerConfig.cursorFilePath config) w1)
    as [[e|cursor] w2]; cbn [fst snd] in *.
  { right. left. exact (Herror2 e eq_refl). }
  rewrite bindF_liftF.
  destruct (callFetchAccounts_outcome (IndexerConfig.accountsPerPage config) cursor w2)
    as [Hfs3 (t & after & Hfetch)].
  destruct (callFetchAccounts env (IndexerConfig.accountsPerPage config) cursor w2)
    as [[e|response] w3]; cbn [fst snd] in *.
  { right. right. left. eauto. }
  cbv zeta. destruct (Page.nodes response) as [|a accounts] eqn:Hnodes.
  { cbn [length Nat.eqb retF fst snd]. exists t, after, response, [].
    split; [exact Hfetch|]. rewrite Hnodes.
    split; [reflexivity|]. split; [reflexivity|]. split; [reflexivity|].
    rewrite Hfs3, Hfs2, Hfiles1. reflexivity. }
  cbn [length Nat.eqb]. unfold bindF at 1.
  destruct (processAccountsBatch_outcome (a :: accounts) w3)
    as [Hout|(results & Hout & Hlen)];
    destruct (processAccountsBatch env config (a :: accounts) w3) as [outcome w4];
    cbn [fst snd] in Hout; subst outcome; [exact I|].
  rewrite bindF_liftF.
  set (save := if truthy_str (PageInfo.endCursor (Page.pageInfo response)) then _ else _).
  assert (Hsave : forall e, (save w4).1 = inl e ->
                            exists reason, e = "Failed to save cursor: " ++ reason).
  { subst save. destruct (truthy_str _); [apply saveCursor_outcome|].
    intros e H. discriminate. }
  destruct (save w4) as [[e|[]] w5]; cbn [fst snd] in *.
  { right. right. right. exact (Hsave e eq_refl). }
  rewrite bindF_liftF, emit_eq. cbv beta iota. cbn [retF fst snd].
  exists t, after, response, results. split; [exact Hfetch|]. rewrite Hnodes.
  split; [exact Hlen|]. split; [reflexivity|]. split; reflexivity.
Qed.

Lemma readCursor_falsy (filePath : string) (w w' : World) (cursor : option string) :
  readCursor env filePath w = (inr cursor, w') ->
  truthy_str cursor = false ->
  cursor = None.
Proof.
  cbv [readCursor try_catch bind pathExists readFile tick get_fs ret emit modify throw].
  cbn [fst snd World.clock World.fs World.events World.filter].
  destruct (FS.pathExists (World.fs w) filePath);
    cbn [fst snd World.clock World.fs World.events World.filter].
  - destruct (readFile_error env _ _); [discriminate|].
    destruct (FS.files (World.fs w) !! filePath) as [content|]; [|discriminate].
    cbn [fst snd World.clock World.fs World.events World.filter].
    destruct (String.eqb (js_trim content) "") eqn:Hblank.
    + intros [= <- _] _. reflexivity.
    + intros [= <- _]. cbn [truthy_str]. rewrite Hblank. discriminate.
  - intros [= <- _] _. reflexivity.
Qed.

Lemma summary_adds_up (results : list ProcessingResult) :
  BatchSummary.total (compileBatchSummary results)
  = (BatchSummary.successful (compileBatchSummary results)
     + BatchSummary.failed (compileBatchSummary results)
     + BatchSummary.skipped (compileBatchSummary results))%nat
  /\ BatchSummary.total (compileBatchSummary results) = length results.
Proof.
  unfold compileBatchSummary.
  destruct (fold_summary_invariant results
              (BatchSummary.mk (length results) 0 0 0 [])) as (Ht & Hc & _).
  cbv zeta in *. unfold counted in Hc. cbn in Ht, Hc. lia.
Qed.

(** The loop of [runComplete] returns only after a read-back that found
    no cursor, and its totals add up. *)
Lemma runComplete_loop_returned (fuel : nat) :
  forall totals w result w',
    runComplete_loop env config fuel totals w = (Returned result, w') ->
    no_cursor (IndexerConfig.cursorFilePath config) (World.fs w')
    /\ (totals_add_up totals -> totals_add_up result).
Proof.
  induction fuel as [|fuel IH]; intros totals w result w' Hrun; [discriminate|].
  cbn [runComplete_loop] in Hrun. unfold bindF at 1 in Hrun.
  pose proof (runIteration_outcome w) as Hiteration.
  destruct (runIteration env config w) as [[summary|e|] w1]; try discriminate.
  cbn [fst snd] in Hiteration.
  destruct Hiteration as (t & after & response & results & _ & _ & Hsummary & _).
  cbv zeta in Hrun. rewrite bindF_liftF in Hrun.
  destruct (readCursor env (IndexerConfig.cursorFilePath config) w1)
    as [[e|cursor] w2] eqn:Hread; [discriminate|].
  destruct (summary_adds_up results) as [Hparts _]. rewrite <- Hsummary in Hparts.
  destruct (truthy_str cursor) eqn:Htruthy.
  - destruct (IH _ _ _ _ Hrun) as [Hcursor Htotals].
    split; [exact Hcursor|]. intros Hadd. apply Htotals.
    unfold totals_add_up in *. cbn. lia.
  - injection Hrun as <- <-.
    pose proof (readCursor_falsy _ _ _ _ Hread Htruthy) as ->.
    apply readCursor_null in Hread as [Hfs Hnone].
    split; [unfold no_cursor; rewrite Hfs; exact Hnone|].
    intros Hadd. unfold totals_add_up in *. cbn. lia.
Qed.

End IterationOutcomes.

(** X25. The summary of an iteration that returns counts
    every address of the page it fetched: [total] is the length of the
    page and the three counters add up to it. *)
Theorem iteration_summary_counts_the_page
    {platform : Platform.t} (env : Env) (config : IndexerConfig)
    (w w' : World) (result : IterationResult)
    (Hrun : runIteration env config w = (Returned result, w')) :
  exists t after response,
    fetchAccounts env t (IndexerConfig.accountsPerPage config) after = inr response
    /\ BatchSummary.total (IterationResult.summary result)
       = length (Page.nodes response)
    /\ (BatchSummary.successful (IterationResult.summary result)
        + BatchSummary.failed (IterationResult.summary result)
        + BatchSummary.skipped (IterationResult.summary result))%nat
       = length (Page.nodes response).
Proof.
  pose proof (runIteration_outcome env config w) as H. rewrite Hrun in H.
  cbn [fst] in H.
  destruct H as (t & after & response & results & Hfetch & Hlen & Hsummary & _).
  exists t, after, response. split; [exact Hfetch|].
  destruct (summary_adds_up results) as [Hparts Htotal].
  rewrite Hsummary, <- Hlen. split; [exact Htotal|]. rewrite <- Hparts. exact Htotal.
Qed.

(** The page of four identifiers of the examples. *)
Lemma iteration_summary_counts_the_page_witness :
  exists result w',
    runIteration (platform := examplePlatform) failingEnv exampleConfig World.initial
    = (Returned result, w')
    /\ BatchSummary.total (IterationResult.summary result) = 4%nat
    /\ BatchSummary.failed (IterationResult.summary result) = 2%nat.
Proof.
  eexists _, _.
  assert (Hrun : runIteration (platform := examplePlatform) failingEnv exampleConfig
                   World.initial = (Returned _, _)) by (vm_compute; reflexivity).
  split; [exact Hrun|].
  destruct (iteration_summary_counts_the_page (platform := examplePlatform) failingEnv
              exampleConfig World.initial _ _ Hrun)
    as (t & after & response & Hfetch & Htotal & _).
  split; [|reflexivity]. rewrite Htotal. injection Hfetch as <-. reflexivity.
Defined.

(** X26. When the source answers with an empty page,
    the iteration returns the empty summary with [hasNextPage = false]
    and [endCursor = null], whatever the page information says, and it
    leaves every file, the cursor file included, as it was. *)
Theorem empty_page_ends_the_iteration
    {platform : Platform.t} (env : Env) (config : IndexerConfig)
    (w w' : World) (result : IterationResult)
    (Hrun : runIteration env config w = (Returned result, w'))
    (Hempty : forall t first after response,
                fetchAccounts env t first after = inr response ->
                Page.nodes response = []) :
  result = IterationResult.mk emptySummary false None
  /\ FS.files (World.fs w') = FS.files (World.fs w).
Proof.
  pose proof (runIteration_outcome env config w) as H. rewrite Hrun in H.
  cbn [fst snd] in H.
  destruct H as (t & after & response & results & Hfetch & _ & _ & Hcases).
  rewrite (Hempty _ _ _ _ Hfetch) in Hcases. exact Hcases.
Qed.

(** An empty page that claims a next page and carries a cursor. *)
Lemma empty_page_ends_the_iteration_witness :
  exists w',
    runIteration (platform := examplePlatform) emptyPageEnv exampleConfig World.initial
    = (Returned (IterationResult.mk emptySummary false None), w')
    /\ FS.files (World.fs w') = FS.files (World.fs World.initial).
Proof.
  eexists.
  assert (Hrun : runIteration (platform := examplePlatform) emptyPageEnv exampleConfig
                   World.initial
                 = (Returned (IterationResult.mk emptySummary false None), _))
    by (vm_compute; reflexivity).
  split; [exact Hrun|].
  apply (empty_page_ends_the_iteration (platform := examplePlatform) emptyPageEnv
           exampleConfig World.initial _ _ Hrun).
  intros t first after response [= <-]. reflexivity.
Defined.

(** X27. An iteration can only throw what one of four
    calls threw: the creation of the data directory, the reading of the
    cursor file, the request for the page, or the saving of the cursor,
    the three file operations with their own prefix.  No failure of a
    task makes the iteration throw. *)
Theorem iteration_throws_only_its_own_errors
    {platform : Platform.t} (env : Env) (config : IndexerConfig)
    (w w' : World) (e : string)
    (Hrun : runIteration env config w = (Thrown e, w')) :
  iteration_error env e.
Proof.
  pose proof (runIteration_outcome env config w) as H. rewrite Hrun in H. exact H.
Qed.

(** A source that is down. *)
Lemma iteration_throws_only_its_own_errors_witness :
  exists w',
    runIteration (platform := examplePlatform) downEnv exampleConfig World.initial
    = (Thrown "GraphQL request failed: fetch failed", w')
    /\ iteration_error downEnv "GraphQL request failed: fetch failed".
Proof.
  eexists.
  assert (Hrun : runIteration (platform := examplePlatform) downEnv exampleConfig
                   World.initial
                 = (Thrown "GraphQL request failed: fetch failed", _))
    by (vm_compute; reflexivity).
  split; [exact Hrun|].
  exact (iteration_throws_only_its_own_errors (platform := examplePlatform) downEnv
           exampleConfig World.initial _ _ Hrun).
Defined.

(** X28. [runComplete] returns only when the read-back
    after an iteration found no cursor: at its return there is nothing
    at the path of the cursor file, or a file with nothing but white
    space; what the last iteration reported plays no part.  The totals
    it logs then add up: the processed addresses are the successful,
    the failed and the skipped ones together. *)
Theorem runComplete_returns_without_cursor
    {platform : Platform.t} (env : Env) (config : IndexerConfig)
    (fuel : nat) (w w' : World) (totals : Totals)
    (Hrun : runComplete env config fuel w = (Returned totals, w')) :
  no_cursor (IndexerConfig.cursorFilePath config) (World.fs w')
  /\ totalProcessed totals
     = (totalSuccessful totals + totalFailed totals + totalSkipped totals)%nat.
Proof.
  destruct (runComplete_loop_returned env config fuel _ _ _ _ Hrun) as [Hcursor Htotals].
  split; [exact Hcursor|]. apply Htotals. reflexivity.
Qed.

(** A single page without an end cursor: the run returns after one
    iteration, with one address processed. *)
Lemma runComplete_returns_without_cursor_witness :
  exists w',
    runComplete (platform := examplePlatform) singlePageEnv exampleConfig 2
      World.initial = (Returned (mkTotals 1 1 0 0), w')
    /\ no_cursor "./cursor.txt" (World.fs w').
Proof.
  eexists.
  assert (Hrun : runComplete (platform := examplePlatform) singlePageEnv exampleConfig 2
                   World.initial = (Returned (mkTotals 1 1 0 0), _))
    by (vm_compute; reflexivity).
  split; [exact Hrun|].
  exact (proj1 (runComplete_returns_without_cursor (platform := examplePlatform)
                  singlePageEnv exampleConfig 2 World.initial _ _ Hrun)).
Defined.

(** ** The run modes *)

Section RunModeProperties.

Context {platform : Platform.t}.
Variable env : Env.
Variable config : IndexerConfig.
Variable processEnv : ProcessEnv.
Variable now : nat -> Z.
Variable shouldStop : nat -> bool.

Lemma bindF_returned {S A B : Type} (m : MF S A) (k : A -> MF S B) (s s' : S) (a : A) :
  m s = (Returned a, s') -> bindF m k s = k a s'.
Proof. intros H. unfold bindF. rewrite H. reflexivity. Qed.

Lemma bindF_unfinished {S A B : Type} (m : MF S A) (k : A -> MF S B) (s s' : S) :
  m s = (Unfinished, s') -> bindF m k s = (Unfinished, s').
Proof. intros H. unfold bindF. rewrite H. reflexivity. Qed.

(** What a step of a mode does to the log: nothing, or one more line. *)
Lemma attemptIteration_log (s : ModeState) :
  ModeState.log (attemptIteration env config s).2 = ModeState.log s
  /\ forall e, (attemptIteration env config s).1 <> Thrown e.
Proof.
  unfold attemptIteration.
  destruct (runIteration env config (ModeState.world s)) as [[result|e|] w'];
    cbn; split; (reflexivity || discriminate).
Qed.

(** The optional pause of timed mode after a completed iteration. *)
Lemma timed_delay_log (endTime : Z) (s : ModeState) :
  let delay :=
    let iterationDelay := parseInt10 (env_or processEnv "ITERATION_DELAY_MS" "2000") in
    if js_gt iterationDelay 0 then
      bindF (dateNow now) (fun time =>
        if time + default 0 iterationDelay <? endTime
        then sleep iterationDelay
        else retF tt)
    else retF tt in
  exists s',
    delay s = (Returned tt, s')
    /\ (ModeState.log s' = ModeState.log s
        \/ exists ms, ModeState.log s' = (ModeState.log s ++ [Paused ms])%list).
Proof.
  cbv zeta. destruct (js_gt _ 0).
  - unfold bindF, dateNow. cbn [fst snd].
    destruct (_ <? endTime); eexists; (split; [reflexivity|]).
    + right. eexists. reflexivity.
    + left. reflexivity.
  - eexists. split; [reflexivity|]. left. reflexivity.
Qed.

Lemma timed_retry_log (endTime time : Z) (s : ModeState) :
  let pause :=
    if 0 <? Z.min 10000 (Z.max 0 (endTime - time - 5000))
    then sleep (Some (Z.min 10000 (Z.max 0 (endTime - time - 5000))))
    else retF tt in
  exists s',
    pause s = (Returned tt, s')
    /\ (ModeState.log s' = ModeState.log s
        \/ exists ms, ModeState.log s' = (ModeState.log s ++ [Paused ms])%list).
Proof.
  cbv zeta. destruct (0 <? _); eexists; (split; [reflexivity|]).
  - right. eexists. reflexivity.
  - left. reflexivity.
Qed.

Lemma timed_log_ok_paused (ms : option Z) (l : list ModeEvent) :
  timed_log_ok l -> timed_log_ok (Paused ms :: l).
Proof. intros H. exact H. Qed.

(** The loop of timed mode keeps its log in order and never throws. *)
Lemma runTimedMode_loop_log (fuel : nat) :
  forall iterationCount endTime s,
    let run := runTimedMode_loop env config processEnv now shouldStop fuel
                 iterationCount endTime s in
    (exists added,
        ModeState.log run.2 = (ModeState.log s ++ added)%list
        /\ timed_log_ok added)
    /\ forall e, run.1 <> Thrown e.
Proof.
  induction fuel as [|fuel IH]; intros iterationCount endTime s run; subst run.
  { cbn. split; [exists []; rewrite app_nil_r; split; [reflexivity|exact I]|].
    discriminate. }
  cbn [runTimedMode_loop].
  rewrite (bindF_returned (callShouldStop shouldStop) _ s _ _ eq_refl).
  destruct (shouldStop _).
  { cbn. split; [exists []; rewrite app_nil_r; split; [reflexivity|exact I]|].
    discriminate. }
  rewrite (bindF_returned (dateNow now) _ _ _ _ eq_refl).
  destruct (negb _).
  { cbn. split; [exists []; rewrite app_nil_r; split; [reflexivity|exact I]|].
    discriminate. }
  rewrite (bindF_returned (dateNow now) _ _ _ _ eq_refl).
  set (remainingTime := Z.max 0 _).
  rewrite (bindF_returned (note _) _ _ _ _ eq_refl).
  destruct (Z.ltb_spec remainingTime 30000) as [Hshort|Hlong].
  { rewrite (bindF_returned (note _) _ _ _ _ eq_refl). cbn.
    split; [|discriminate].
    exists [IterationAnnounced (S iterationCount) (Some remainingTime); OutOfTime].
    rewrite <- app_assoc. split; [reflexivity|]. cbn. eauto. }
  set (s1 := ModeState.mk _ (ModeState.log _ ++ [IterationAnnounced _ _])%list).
  assert (Hs1 : ModeState.log s1
                = (ModeState.log s
                     ++ [IterationAnnounced (S iterationCount) (Some remainingTime)])%list)
    by reflexivity.
  destruct (attemptIteration_log s1) as [Hlog2 Hthrown2].
  destruct (attemptIteration env config s1) as [[[message|result]|e|] s2] eqn:Hattempt;
    cbn [fst snd] in *.
  - (* the iteration failed *)
    rewrite (bindF_returned _ _ _ _ _ Hattempt).
    rewrite (bindF_returned (note _) _ _ _ _ eq_refl).
    rewrite (bindF_returned (dateNow now) _ _ _ _ eq_refl).
    match goal with
    | |- context [bindF (if 0 <? Z.min 10000 (Z.max 0 (endTime - ?time - 5000))
                         then _ else _) _ ?s3] =>
        destruct (timed_retry_log endTime time s3) as (s4 & Hpause & Hlog4);
        cbv zeta in Hpause; rewrite (bindF_returned _ _ _ _ _ Hpause)
    end.
    destruct (IH (S iterationCount) endTime s4) as [(added & Hadded & Hok) Hthrown].
    cbv zeta in Hadded, Hthrown. split; [|exact Hthrown].
    cbn [ModeState.log mode_tick] in Hlog4. rewrite Hlog2, Hs1 in Hlog4.
    destruct Hlog4 as [Hlog4|(ms & Hlog4)]; rewrite Hadded, Hlog4.
    + exists (IterationAnnounced (S iterationCount) (Some remainingTime)
              :: IterationFailed (S iterationCount) message :: added).
      split; [repeat rewrite <- app_assoc; reflexivity|].
      cbn. split; [reflexivity|]. split; [eauto|exact Hok].
    + exists (IterationAnnounced (S iterationCount) (Some remainingTime)
              :: IterationFailed (S iterationCount) message :: Paused ms :: added).
      split; [repeat rewrite <- app_assoc; reflexivity|].
      cbn. split; [reflexivity|]. split; [eauto|exact Hok].
  - (* the iteration returned *)
    rewrite (bindF_returned _ _ _ _ _ Hattempt).
    rewrite (bindF_returned (note _) _ _ _ _ eq_refl).
    destruct (IterationResult.hasNextPage result) eqn:Hnext; cbn [negb].
    + match goal with
      | |- context [bindF _ _ ?s3] =>
          destruct (timed_delay_log endTime s3) as (s4 & Hpause & Hlog4);
          cbv zeta in Hpause; rewrite (bindF_returned _ _ _ _ _ Hpause)
      end.
      destruct (IH (S iterationCount) endTime s4) as [(added & Hadded & Hok) Hthrown].
      cbv zeta in Hadded, Hthrown. split; [|exact Hthrown].
      cbn [ModeState.log] in Hlog4. rewrite Hlog2, Hs1 in Hlog4.
      destruct Hlog4 as [Hlog4|(ms & Hlog4)]; rewrite Hadded, Hlog4.
      * exists (IterationAnnounced (S iterationCount) (Some remainingTime)
                :: IterationCompleted (S iterationCount) result :: added).
        split; [repeat rewrite <- app_assoc; reflexivity|].
        cbn. rewrite Hnext. split; [reflexivity|]. split; [eauto|exact Hok].
      * exists (IterationAnnounced (S iterationCount) (Some remainingTime)
                :: IterationCompleted (S iterationCount) result :: Paused ms :: added).
        split; [repeat rewrite <- app_assoc; reflexivity|].
        cbn. rewrite Hnext. split; [reflexivity|]. split; [eauto|exact Hok].
    + rewrite (bindF_returned (note _) _ _ _ _ eq_refl). cbn [retF fst snd ModeState.log].
      split; [|discriminate]. rewrite Hlog2, Hs1.
      exists [IterationAnnounced (S iterationCount) (Some remainingTime);
              IterationCompleted (S iterationCount) result; EndOfData].
      split; [repeat rewrite <- app_assoc; reflexivity|].
      cbn. rewrite Hnext. split; [reflexivity|]. split; [eauto|reflexivity].
  - exfalso. exact (Hthrown2 e eq_refl).
  - rewrite (bindF_unfinished _ _ _ _ Hattempt). cbn [fst snd].
    split; [|discriminate]. rewrite Hlog2, Hs1.
    exists [IterationAnnounced (S iterationCount) (Some remainingTime)].
    split; [reflexivity|exact I].
Qed.

(** The loop of infinite mode keeps its log in order, never throws, and
    returns only after [shouldStop] answered with true. *)
Lemma runInfiniteMode_loop_log (fuel : nat) :
  forall iterationCount s,
    let run := runInfiniteMode_loop env config processEnv shouldStop fuel
                 iterationCount s in
    (exists added,
        ModeState.log run.2 = (ModeState.log s ++ added)%list
        /\ infinite_log_ok processEnv added)
    /\ (forall e, run.1 <> Thrown e)
    /\ (run.1 = Returned tt -> exists t, shouldStop t = true).
Proof.
  induction fuel as [|fuel IH]; intros iterationCount s run; subst run.
  { cbn. split; [exists []; rewrite app_nil_r; split; [reflexivity|exact I]|].
    split; discriminate. }
  cbn [runInfiniteMode_loop].
  rewrite (bindF_returned (callShouldStop shouldStop) _ s _ _ eq_refl).
  destruct (shouldStop _) eqn:Hstop.
  { cbn. split; [exists []; rewrite app_nil_r; split; [reflexivity|exact I]|].
    split; [discriminate|]. intros _. eexists. exact Hstop. }
  rewrite (bindF_returned (note _) _ _ _ _ eq_refl).
  set (s1 := ModeState.mk _ (ModeState.log _ ++ [IterationAnnounced _ _])%list).
  assert (Hs1 : ModeState.log s1
                = (ModeState.log s ++ [IterationAnnounced (S iterationCount) None])%list)
    by reflexivity.
  destruct (attemptIteration_log s1) as [Hlog2 Hthrown2].
  destruct (attemptIteration env config s1) as [[[message|result]|e|] s2] eqn:Hattempt;
    cbn [fst snd] in *.
  - (* the iteration failed *)
    rewrite (bindF_returned _ _ _ _ _ Hattempt).
    rewrite (bindF_returned (note _) _ _ _ _ eq_refl).
    rewrite (bindF_returned (sleep _) _ _ _ _ eq_refl).
    match goal with
    | |- context [runInfiniteMode_loop _ _ _ _ fuel _ ?s4] =>
        destruct (IH (S iterationCount) s4) as [(added & Hadded & Hok) Hrest];
        cbv zeta in Hadded, Hrest
    end.
    split; [|exact Hrest].
    rewrite Hadded. cbn [ModeState.log]. rewrite Hlog2, Hs1.
    eexists (IterationAnnounced (S iterationCount) None
             :: IterationFailed (S iterationCount) message :: Paused _ :: added).
    split; [repeat rewrite <- app_assoc; reflexivity|].
    cbn. split; [reflexivity|]. split; [reflexivity|exact Hok].
  - (* the iteration returned *)
    rewrite (bindF_returned _ _ _ _ _ Hattempt).
    rewrite (bindF_returned (note _) _ _ _ _ eq_refl).
    destruct (IterationResult.hasNextPage result) eqn:Hnext; cbn [negb].
    + destruct (js_gt (parseInt10 (env_or processEnv "ITERATION_DELAY_MS" "5000")) 0)
        eqn:Hdelay.
      * rewrite (bindF_returned (sleep _) _ _ _ _ eq_refl).
        match goal with
        | |- context [runInfiniteMode_loop _ _ _ _ fuel _ ?s4] =>
            destruct (IH (S iterationCount) s4) as [(added & Hadded & Hok) Hrest];
            cbv zeta in Hadded, Hrest
        end.
        split; [|exact Hrest].
        rewrite Hadded. cbn [ModeState.log]. rewrite Hlog2, Hs1.
        eexists (IterationAnnounced (S iterationCount) None
                 :: IterationCompleted (S iterationCount) result :: Paused _ :: added).
        split; [repeat rewrite <- app_assoc; reflexivity|].
        cbn. rewrite Hnext. split; [reflexivity|]. split; [reflexivity|].
        split; [exact Hdelay|exact Hok].
      * rewrite (bindF_returned (retF tt) _ _ _ _ eq_refl).
        match goal with
        | |- context [runInfiniteMode_loop _ _ _ _ fuel _ ?s4] =>
            destruct (IH (S iterationCount) s4) as [(added & Hadded & Hok) Hrest];
            cbv zeta in Hadded, Hrest
        end.
        split; [|exact Hrest].
        rewrite Hadded. cbn [ModeState.log]. rewrite Hlog2, Hs1.
        exists (IterationAnnounced (S iterationCount) None
                :: IterationCompleted (S iterationCount) result :: added).
        split; [repeat rewrite <- app_assoc; reflexivity|].
        cbn. rewrite Hnext. split; [reflexivity|].
        destruct added as [|[] added]; try (split; [exact Hdelay|exact Hok]);
          destruct Hok.
    + rewrite (bindF_returned
                 (bindF (note EndOfData) (fun _ => sleep _)) _ _ _ _ eq_refl).
      match goal with
      | |- context [runInfiniteMode_loop _ _ _ _ fuel _ ?s4] =>
          destruct (IH (S iterationCount) s4) as [(added & Hadded & Hok) Hrest];
          cbv zeta in Hadded, Hrest
      end.
      split; [|exact Hrest].
      rewrite Hadded. cbn [ModeState.log]. rewrite Hlog2, Hs1.
      eexists (IterationAnnounced (S iterationCount) None
               :: IterationCompleted (S iterationCount) result
               :: EndOfData :: Paused _ :: added).
      split; [repeat rewrite <- app_assoc; reflexivity|].
      cbn. rewrite Hnext. split; [reflexivity|]. split; [reflexivity|exact Hok].
  - exfalso. exact (Hthrown2 e eq_refl).
  - rewrite (bindF_unfinished _ _ _ _ Hattempt). cbn [fst snd].
    split; [|split; discriminate]. rewrite Hlog2, Hs1.
    exists [IterationAnnounced (S iterationCount) None].
    split; [reflexivity|exact I].
Qed.

End RunModeProperties.

(** X29. Timed mode throws in one case only: when the end time it
    computes from its duration is not a time value (the duration is
    not a number, or so large that the end lies beyond the range of
    [Date]), the first log line throws [Invalid time value] before any
    iteration has run.  In every other case it never throws: an
    iteration that fails is noted and the loop goes on.  What it adds
    to the log is in order: no iteration is run once, at its
    announcement, less than 30 seconds are left (the mode stops there),
    and a completed iteration that reported no next page ends the
    mode. *)
Theorem runTimedMode_keeps_its_log_in_order `{platform : Platform.t}
    (env : Env) (config : IndexerConfig) (processEnv : ProcessEnv)
    (now : nat -> Z) (shouldStop : nat -> bool)
    (fuel : nat) (minutes : option Z) (s : ModeState) :
  let run := runTimedMode env config processEnv now shouldStop fuel minutes s in
  let endTime :=
    (fun minutes => now (World.clock (ModeState.world s)) + minutes * 60 * 1000)
      <$> minutes in
  (exists added,
      ModeState.log run.2 = (ModeState.log s ++ added)%list
      /\ timed_log_ok added)
  /\ (forall e, run.1 = Thrown e ->
        e = "Invalid time value"
        /\ is_time_value endTime = false
        /\ ModeState.log run.2 = ModeState.log s)
  /\ (is_time_value endTime = false -> run.1 = Thrown "Invalid time value").
Proof.
  intros run endTime. subst run endTime. unfold runTimedMode.
  rewrite (bindF_returned (dateNow now) _ s _ _ eq_refl).
  destruct minutes as [minutes|]; cbn [fmap option_fmap option_map].
  - destruct (is_time_value
                (Some (now (World.clock (ModeState.world s)) + minutes * 60 * 1000)))
      eqn:Hvalid.
    + destruct (runTimedMode_loop_log env config processEnv now shouldStop fuel 0
                  (now (World.clock (ModeState.world s)) + minutes * 60 * 1000)
                  (mode_tick s)) as [Hlog Hthrown].
      split; [exact Hlog|]. split; [|discriminate].
      intros e He. exfalso. exact (Hthrown e He).
    + cbn. split; [exists []; rewrite app_nil_r; split; [reflexivity|exact I]|].
      split; [|reflexivity]. intros e [= <-]. repeat split.
  - cbn. split; [exists []; rewrite app_nil_r; split; [reflexivity|exact I]|].
    split; [|reflexivity]. intros e [= <-]. repeat split.
Qed.

(** A run without a duration, and a run of a duration beyond the range
    of [Date]. *)
Lemma runTimedMode_keeps_its_log_in_order_witness :
  (runTimedMode emptyPageEnv exampleConfig ∅ (fun _ => 0) (fun _ => false) 3 None
     (ModeState.mk World.initial [])).1
  = Thrown "Invalid time value"
  /\ (runTimedMode emptyPageEnv exampleConfig ∅ (fun _ => 0) (fun _ => false) 3
        (Some 144000000001) (ModeState.mk World.initial [])).1
     = Thrown "Invalid time value".
Proof.
  split.
  - exact (proj2 (proj2
      (runTimedMode_keeps_its_log_in_order emptyPageEnv exampleConfig ∅
         (fun _ => 0) (fun _ => false) 3 None (ModeState.mk World.initial [])))
      eq_refl).
  - exact (proj2 (proj2
      (runTimedMode_keeps_its_log_in_order emptyPageEnv exampleConfig ∅
         (fun _ => 0) (fun _ => false) 3 (Some 144000000001)
         (ModeState.mk World.initial [])))
      eq_refl).
Defined.

(** X30. Infinite mode never throws and returns only after
    [shouldStop] has answered with true; neither a failed iteration
    nor the end of the data ends it.  What it adds to the log is in
    order: a failed iteration is followed by a pause of
    [ERROR_RETRY_DELAY_MS], a completed one that reported no next page
    by a pause of [END_OF_DATA_WAIT_MS], any other completed one by a
    pause of [ITERATION_DELAY_MS] when that is more than 0. *)
Theorem runInfiniteMode_runs_until_stopped `{platform : Platform.t}
    (env : Env) (config : IndexerConfig) (processEnv : ProcessEnv)
    (shouldStop : nat -> bool) (fuel : nat) (s : ModeState) :
  let run := runInfiniteMode env config processEnv shouldStop fuel s in
  (forall e, run.1 <> Thrown e)
  /\ (run.1 = Returned tt -> exists t, shouldStop t = true)
  /\ exists added,
       ModeState.log run.2 = (ModeState.log s ++ added)%list
       /\ infinite_log_ok processEnv added.
Proof.
  intros run. subst run. unfold runInfiniteMode.
  destruct (runInfiniteMode_loop_log env config processEnv shouldStop fuel 0 s)
    as (Hlog & Hthrown & Hstop).
  split; [exact Hthrown|]. split; [exact Hstop|exact Hlog].
Qed.
